(** * QR rendering engine: module matrix to vector document

    A shallow embedding of [apps/web/lib/qr] (path encoder, excavation,
    styled modules, gradients, layout) and of the plan gate of the QR image
    route, together with the properties stated about them.

    Conventions.  JavaScript numbers that the code only ever uses as
    integers (indices, margins, module counts) are [Z]; pixel sizes and
    logo geometry are IEEE 754 doubles, Rocq's primitive [float], with
    their rounding, their infinities and NaN; strings are [string];
    optional properties and [null]/[undefined] are [option]; an object
    literal used as a dictionary is a [gmap string _] of its own
    properties, read through [get_property], which also finds the members
    it inherits from [Object.prototype]. *)

From Stdlib Require Import ZArith QArith Qround Qpower Qabs Lia Lqa Floats.
From Stdlib Require Import Strings.Ascii Strings.String.
From Stdlib Require Import DecimalString DecimalZ DecimalPos.
From stdpp Require Import base list strings gmap.

Local Open Scope Z_scope.

(* ================================================================== *)
(** * Data model ([types.ts]) *)
(* ================================================================== *)

(** [Modules]: the rows of the symbol, each a row of dark/light cells. *)
Abbreviation Modules := (list (list bool)).

Record Excavation := mkExcavation { ex_x : Z; ex_y : Z; ex_w : Z; ex_h : Z }.

Record ImageSettings := mkImageSettings {
  img_src : string;
  img_height : float;
  img_width : float;
  img_excavate : bool;
  img_x : option float;
  img_y : option float
}.

Inductive QRCodeType :=
  | standard | micro | compact | custom | holographic | cube3d.

#[global] Instance QRCodeType_eq_dec : EqDecision QRCodeType.
Proof. solve_decision. Defined.

Inductive QRDotStyle := DotSquare | DotRounded | DotCircle | DotDiamond.

Inductive QRCornerStyle := CornerSquare | CornerRounded | CornerCircle.

Record QRStyleSettings := mkStyle {
  dotStyle : option QRDotStyle;
  cornerStyle : option QRCornerStyle;
  gradientDirection : option string;
  gradientStartColor : option string;
  gradientEndColor : option string
}.

(* ================================================================== *)
(** * JavaScript helpers *)
(* ================================================================== *)

(** Template-literal interpolation [`${n}`] of an integral number. *)
Definition string_of_Z (z : Z) : string :=
  NilZero.string_of_int (Z.to_int z).

(** [Array.prototype.forEach] with the index passed to the callback; the
    callback's effect on the variables it closes over is the state [S]. *)
Fixpoint forEach_from {A S : Type} (f : S -> A -> Z -> S) (i : Z)
    (l : list A) (s : S) : S :=
  match l with
  | [] => s
  | a :: l' => forEach_from f (i + 1) l' (f s a i)
  end.

Definition forEach {A S : Type} (f : S -> A -> Z -> S) (l : list A) (s : S) : S :=
  forEach_from f 0 l s.

(** [Array.prototype.map] with the index passed to the callback. *)
Fixpoint map_from {A B : Type} (f : A -> Z -> B) (i : Z) (l : list A) : list B :=
  match l with
  | [] => []
  | a :: l' => f a i :: map_from f (i + 1) l'
  end.

Definition map_i {A B : Type} (f : A -> Z -> B) (l : list A) : list B :=
  map_from f 0 l.

(** [modules[y][x]], [false] when out of range. *)
Definition cell_at (modules : Modules) (x y : Z) : bool :=
  if (x <? 0) || (y <? 0) then false
  else match modules !! Z.to_nat y with
       | Some row => match row !! Z.to_nat x with
                     | Some c => c
                     | None => false
                     end
       | None => false
       end.

(** ** Object literals used as lookup tables *)

(** The properties every object literal inherits from [Object.prototype]. *)
Definition Object_prototype : list string :=
  [ "constructor"; "hasOwnProperty"; "isPrototypeOf"; "propertyIsEnumerable";
    "toLocaleString"; "toString"; "valueOf"; "__proto__";
    "__defineGetter__"; "__defineSetter__"; "__lookupGetter__";
    "__lookupSetter__" ].

(** What [o[k]] can be besides [undefined]: a value of the table, or the
    member of [Object.prototype] named [k] (a function; the prototype
    object itself for [__proto__]). *)
Inductive Value (A : Type) :=
  | Own (a : A)
  | Inherited (k : string).
Arguments Own {A} a.
Arguments Inherited {A} k.

(** [o[k]] for an object literal whose own properties are [o]; [None] is
    [undefined]. *)
Definition get_property {A : Type} (o : gmap string A) (k : string)
    : option (Value A) :=
  match o !! k with
  | Some a => Some (Own a)
  | None => if bool_decide (k ∈ Object_prototype) then Some (Inherited k) else None
  end.

(** [`${v}`], and [v] as a property key: a string is itself; a built-in
    function prints as its native-code source text and the prototype
    object as [[object Object]]. *)
Definition to_string (v : Value string) : string :=
  match v with
  | Own s => s
  | Inherited k =>
      if String.eqb k "__proto__" then "[object Object]"
      else "function " +:+ (if String.eqb k "constructor" then "Object" else k)
           +:+ "() { [native code] }"
  end.

(** [a >= b] where the operands are numbers or inherited members; a
    function or object operand converts to NaN, and the comparison is
    false. *)
Definition ge_values (a b : Value Z) : bool :=
  match a, b with
  | Own x, Own y => x >=? y
  | _, _ => false
  end.

(** ** Numbers that are not confined to integers *)

(** The double nearest to an integer. *)
Definition number_of_Z (z : Z) : float :=
  SF2Prim (binary_normalize prec emax z 0 false).

(** The exact value of a finite double; [None] for NaN and the infinities. *)
Definition number_value (f : float) : option Q :=
  match Prim2SF f with
  | S754_zero _ => Some 0%Q
  | S754_finite s m e =>
      Some (if 0 <=? e then inject_Z (cond_Zopp s (Z.pos m) * 2 ^ e)
            else Qmake (cond_Zopp s (Z.pos m)) (2 ^ Z.to_pos (- e)))
  | _ => None
  end.

(** The integer a double holds, when it is finite and whole. *)
Definition integer_value (f : float) : option Z :=
  match number_value f with
  | Some q => if Qeq_bool q (inject_Z (Qfloor q)) then Some (Qfloor q) else None
  | None => None
  end.

(** [Math.floor]: NaN, the infinities, the zeros and the doubles from 2^52
    on (all whole) are returned as they are. *)
Definition Math_floor (x : float) : float :=
  match Prim2SF x with
  | S754_finite s m e =>
      if e <? 0 then number_of_Z (cond_Zopp s (Z.pos m) / 2 ^ (- e)) else x
  | _ => x
  end.

(** [Math.ceil]; [Math.ceil(x)] is [-Math.floor(-x)], signed zeros included. *)
Definition Math_ceil (x : float) : float := (- Math_floor (- x))%float.

(** ** The arithmetic of doubles

    A finite double is a sign, a mantissa and an exponent; the sum and the
    difference of two doubles are the exact ones, rounded to the nearest
    double, ties to the even mantissa. *)

(** The value of a sign, a mantissa and an exponent. *)
Definition exact_value (s : bool) (m : positive) (e : Z) : Q :=
  (inject_Z (cond_Zopp s (Z.pos m)) * 2 ^ e)%Q.

(** The exact value of a finite specification float. *)
Definition SF_value (x : spec_float) : option Q :=
  match x with
  | S754_zero _ => Some 0%Q
  | S754_finite s m e => Some (exact_value s m e)
  | _ => None
  end.

(** [r] is what the real number [V] rounds to: within a 2^53-th of it
    when finite, an infinity of its sign otherwise. *)
Definition rounds_to (V : Q) (r : spec_float) : Prop :=
  match r with
  | S754_nan => False
  | S754_infinity s => if s then (V < 0)%Q else (0 < V)%Q
  | S754_zero _ => (V == 0)%Q
  | S754_finite s m e =>
      (Qabs (exact_value s m e - V) <= Qabs V * (1 # 2 ^ 53))%Q
  end.

(** What a comparison of doubles answers is the order of the values. *)
Definition ordered (c : option comparison) (X Y : Q) : Prop :=
  match c with
  | Some Lt => (X < Y)%Q
  | Some Eq => (X == Y)%Q
  | Some Gt => (Y < X)%Q
  | None => False
  end.

(** What a shift record says of the mantissa [mz] after [j] shifts to the
    right: the bits shifted out are [rem], the round bit tells whether
    they reach the half and the sticky bit whether anything else is left. *)
Definition shr_inv (mz : Z) (j : Z) (mrs : shr_record) : Prop :=
  exists rem,
    mz = shr_m mrs * 2 ^ j + rem /\ 0 <= rem < 2 ^ j /\ 0 <= shr_m mrs
    /\ (shr_r mrs = true <-> 2 ^ j <= 2 * rem)
    /\ (shr_s mrs = false <-> rem = 0 \/ 2 * rem = 2 ^ j).

(** [a || b] on numbers: [0], [-0] and NaN are falsy. *)
Definition num_or (a d : float) : float :=
  if (a =? 0)%float || is_nan a then d else a.

(* ================================================================== *)
(** * PathEncoder: [generatePath] *)
(* ================================================================== *)

(** The variables the row callback closes over: the shared [ops] array and
    the per-row [start]. *)
Record PathState := mkPathState { ops : list string; start : option Z }.

Definition push (st : PathState) (op : string) : PathState :=
  {| ops := ops st ++ [op]; start := start st |}.

(** [`M${start + margin} ${y + margin}h${x - start}v1H${start + margin}z`] *)
Definition op_close_run (margin y s x : Z) : string :=
  "M" +:+ string_of_Z (s + margin) +:+ " " +:+ string_of_Z (y + margin)
  +:+ "h" +:+ string_of_Z (x - s) +:+ "v1H" +:+ string_of_Z (s + margin) +:+ "z".

(** [`M${x + margin},${y + margin} h1v1H${x + margin}z`] *)
Definition op_single (margin y x : Z) : string :=
  "M" +:+ string_of_Z (x + margin) +:+ "," +:+ string_of_Z (y + margin)
  +:+ " h1v1H" +:+ string_of_Z (x + margin) +:+ "z".

(** [`M${start + margin},${y + margin} h${x + 1 - start}v1H${start + margin}z`] *)
Definition op_finish_run (margin y s x : Z) : string :=
  "M" +:+ string_of_Z (s + margin) +:+ "," +:+ string_of_Z (y + margin)
  +:+ " h" +:+ string_of_Z (x + 1 - s) +:+ "v1H" +:+ string_of_Z (s + margin) +:+ "z".

(** The callback of [row.forEach]. *)
Definition path_cell (margin y row_length : Z)
    (st : PathState) (cell : bool) (x : Z) : PathState :=
  match cell, start st with
  | false, Some s =>
      {| ops := ops st ++ [op_close_run margin y s x]; start := None |}
  | _, _ =>
      if x =? row_length - 1 then
        if negb cell then st
        else match start st with
             | None => push st (op_single margin y x)
             | Some s => push st (op_finish_run margin y s x)
             end
      else
        match cell, start st with
        | true, None => {| ops := ops st; start := Some x |}
        | _, _ => st
        end
  end.

(** The callback of [modules.forEach]: [start] is a fresh [null] per row. *)
Definition path_row (margin : Z) (acc : list string) (row : list bool) (y : Z)
    : list string :=
  ops (forEach (path_cell margin y (Z.of_nat (length row))) row
         {| ops := acc; start := None |}).

Definition generatePath_ops (modules : Modules) (margin : Z) : list string :=
  forEach (path_row margin) modules [].

(** [ops.join] with the empty separator. *)
Definition generatePath (modules : Modules) (margin : Z) : string :=
  String.concat EmptyString (generatePath_ops modules margin).

(* ================================================================== *)
(** * Rasterizing a path string

    The reading of the [d] attribute that the property of the encoder is
    about: the path grammar restricted to the commands [M], [h], [v], [H],
    [V] and [z], the polygon they trace, and the non-zero winding rule
    sampled at the centre of each unit cell. *)
(* ================================================================== *)

Inductive token := TCmd (c : ascii) | TNum (z : Z) | TBad.

Definition is_digit (c : ascii) : bool :=
  match c with
  | "0" | "1" | "2" | "3" | "4" | "5" | "6" | "7" | "8" | "9" => true
  | _ => false
  end%char.

Definition is_sep (c : ascii) : bool :=
  match c with
  | " " | "," | "009" | "010" | "013" => true
  | _ => false
  end%char.

(** The number whose lexeme has been collected, if any. *)
Definition flush (buf : option string) : list token :=
  match buf with
  | None => []
  | Some b => match NilZero.int_of_string b with
              | Some d => [TNum (Z.of_int d)]
              | None => [TBad]
              end
  end.

Definition snoc_digit (buf : option string) (c : ascii) : string :=
  match buf with
  | None => String c EmptyString
  | Some b => b +:+ String c EmptyString
  end.

Fixpoint lex (buf : option string) (s : string) : list token :=
  match s with
  | EmptyString => flush buf
  | String c s' =>
      if is_digit c then lex (Some (snoc_digit buf c)) s'
      else if Ascii.eqb c "-" then flush buf ++ lex (Some "-"%string) s'
      else if is_sep c then flush buf ++ lex None s'
      else flush buf ++ TCmd c :: lex None s'
  end.

Inductive cmd :=
  | MoveTo (x y : Z)
  | HLineRel (dx : Z)
  | VLineRel (dy : Z)
  | HLineAbs (x : Z)
  | VLineAbs (y : Z)
  | ClosePath.

Fixpoint parse (ts : list token) : option (list cmd) :=
  match ts with
  | [] => Some []
  | TCmd c :: ts1 =>
      if Ascii.eqb c "z" || Ascii.eqb c "Z" then cons ClosePath <$> parse ts1
      else match ts1 with
           | TNum a :: ts2 =>
               if Ascii.eqb c "h" then cons (HLineRel a) <$> parse ts2
               else if Ascii.eqb c "v" then cons (VLineRel a) <$> parse ts2
               else if Ascii.eqb c "H" then cons (HLineAbs a) <$> parse ts2
               else if Ascii.eqb c "V" then cons (VLineAbs a) <$> parse ts2
               else if Ascii.eqb c "M" then
                 match ts2 with
                 | TNum b :: ts3 => cons (MoveTo a b) <$> parse ts3
                 | _ => None
                 end
               else None
           | _ => None
           end
  | _ => None
  end.

Definition point : Type := Z * Z.
Definition edge : Type := point * point.

(** The segments drawn, given the current point and the start of the
    current subpath. *)
Fixpoint trace (cur sub : point) (cs : list cmd) : list edge :=
  match cs with
  | [] => []
  | MoveTo x y :: cs' => trace (x, y) (x, y) cs'
  | HLineRel dx :: cs' => (cur, (fst cur + dx, snd cur)) :: trace (fst cur + dx, snd cur) sub cs'
  | VLineRel dy :: cs' => (cur, (fst cur, snd cur + dy)) :: trace (fst cur, snd cur + dy) sub cs'
  | HLineAbs x :: cs' => (cur, (x, snd cur)) :: trace (x, snd cur) sub cs'
  | VLineAbs y :: cs' => (cur, (fst cur, y)) :: trace (fst cur, y) sub cs'
  | ClosePath :: cs' => (cur, sub) :: trace sub sub cs'
  end.

(** Signed crossing of the ray going right from the centre
    [(cx + 1/2, cy + 1/2)] of a cell with one segment. *)
Definition crossing (cx cy : Z) (e : edge) : Z :=
  let '((x1, y1), (x2, y2)) := e in
  if (y1 <=? cy) && (cy <? y2) then
    if (2 * cx + 1) * (y2 - y1) <? 2 * x1 * (y2 - y1) + (x2 - x1) * (2 * cy + 1 - 2 * y1)
    then 1 else 0
  else if (y2 <=? cy) && (cy <? y1) then
    if (2 * cx + 1) * (y1 - y2) <? 2 * x1 * (y1 - y2) + (x2 - x1) * (2 * y1 - 2 * cy - 1)
    then -1 else 0
  else 0.

Definition winding (es : list edge) (cx cy : Z) : Z :=
  foldr (fun e acc => crossing cx cy e + acc) 0 es.

Definition path_edges (d : string) : option (list edge) :=
  trace (0, 0) (0, 0) <$> parse (lex None d).

(** Winding number of the cell [(cx, cy)]; [None] on a syntax error. *)
Definition winding_number (d : string) (cx cy : Z) : option Z :=
  (fun es => winding es cx cy) <$> path_edges d.

(** Non-zero fill rule. *)
Definition filled (d : string) (cx cy : Z) : bool :=
  match winding_number d cx cy with
  | Some w => negb (w =? 0)
  | None => false
  end.

(* ================================================================== *)
(** * ExcavationPlanner: [excavateModules] and [getImageSettings] *)
(* ================================================================== *)

(** The callback of the inner [row.map]. *)
Definition excavate_cell (excavation : Excavation) (cell : bool) (x : Z) : bool :=
  if (x <? ex_x excavation) || (x >=? ex_x excavation + ex_w excavation)
  then cell
  else false.

(** The callback of the outer [map]. *)
Definition excavate_row (excavation : Excavation) (row : list bool) (y : Z)
    : list bool :=
  if (y <? ex_y excavation) || (y >=? ex_y excavation + ex_h excavation)
  then row
  else map_i (excavate_cell excavation) row.

(** [modules.slice().map(...)] as a function of the matrix value. *)
Definition excavateModules (modules : Modules) (excavation : Excavation)
    : Modules :=
  map_i (excavate_row excavation) modules.

(** ** The same function over a store of arrays

    A matrix is an array of references to row arrays.  [slice] and [map]
    allocate; nothing in [excavateModules] assigns to an existing array. *)
Module Store.

Record heap := mkHeap {
  rows : list (list bool);   (* row arrays, by reference *)
  mats : list (list nat)     (* arrays of row references, by reference *)
}.

Definition alloc_row (h : heap) (r : list bool) : heap * nat :=
  ({| rows := rows h ++ [r]; mats := mats h |}, length (rows h)).

Definition alloc_mat (h : heap) (m : list nat) : heap * nat :=
  ({| rows := rows h; mats := mats h ++ [m] |}, length (mats h)).

(** The value of the matrix behind a reference. *)
Definition read (h : heap) (m : nat) : option Modules :=
  refs ← mats h !! m; mapM (fun r => rows h !! r) refs.

(** One step of the outer [map]: the callback returns either the row
    reference it was given or a freshly allocated row. *)
Definition excavate_row_ref (excavation : Excavation)
    (st : heap * list nat) (r : nat) (y : Z) : heap * list nat :=
  let '(h, out) := st in
  if (y <? ex_y excavation) || (y >=? ex_y excavation + ex_h excavation)
  then (h, out ++ [r])
  else
    let '(h', r') :=
      alloc_row h (map_i (excavate_cell excavation) (default [] (rows h !! r))) in
    (h', out ++ [r']).

Definition excavateModules (h : heap) (modules : nat) (excavation : Excavation)
    : heap * nat :=
  let '(h1, copy) := alloc_mat h (default [] (mats h !! modules)) in
  let '(h2, out) :=
    forEach (excavate_row_ref excavation) (default [] (mats h1 !! copy)) (h1, []) in
  alloc_mat h2 out.

End Store.

Definition DEFAULT_SIZE : float := 128.
Definition DEFAULT_LEVEL : string := "L".
Definition DEFAULT_BGCOLOR : string := "#FFFFFF".
Definition DEFAULT_FGCOLOR : string := "#000000".
Definition DEFAULT_MARGIN : Z := 2.
(** [0.1], that is, the double nearest to it. *)
Definition DEFAULT_IMG_SCALE : float := 0x1.999999999999ap-4.

(** [a || b] on optional strings: [undefined] and the empty string are falsy. *)
Definition str_or (o : option string) (d : string) : string :=
  match o with
  | Some (String c s) => String c s
  | _ => d
  end.

(** The [excavation] object [getImageSettings] builds: four doubles. *)
Record ExcavationDoubles := mkDoubles {
  ed_x : float; ed_y : float; ed_w : float; ed_h : float
}.

Record ImagePlacement := mkPlacement {
  ip_x : float; ip_y : float; ip_h : float; ip_w : float;
  ip_excavation : option ExcavationDoubles
}.

Definition getImageSettings (cells : Modules) (size : float) (margin : Z)
    (imageSettings : option ImageSettings) : option ImagePlacement :=
  match imageSettings with
  | None => None
  | Some img =>
      let qrCodeSize := number_of_Z (Z.of_nat (length cells)) in
      let defaultSize := Math_floor (size * DEFAULT_IMG_SCALE) in
      let scale := (qrCodeSize / size)%float in
      let w := (num_or (img_width img) defaultSize * scale)%float in
      let h := (num_or (img_height img) defaultSize * scale)%float in
      let x := match img_x img with
               | None => (qrCodeSize / 2 - w / 2)%float
               | Some ix => (ix * scale)%float
               end in
      let y := match img_y img with
               | None => (qrCodeSize / 2 - h / 2)%float
               | Some iy => (iy * scale)%float
               end in
      let excavation :=
        if img_excavate img then
          let floorX := Math_floor x in
          let floorY := Math_floor y in
          let ceilW := Math_ceil (w + x - floorX) in
          let ceilH := Math_ceil (h + y - floorY) in
          Some {| ed_x := floorX; ed_y := floorY; ed_w := ceilW; ed_h := ceilH |}
        else None in
      Some {| ip_x := x; ip_y := y; ip_h := h; ip_w := w;
              ip_excavation := excavation |}
  end.

Record ImagePixels := mkPixels {
  imgWidth : float; imgHeight : float; imgLeft : float; imgTop : float
}.

Definition convertImageSettingsToPixels (c : ImagePlacement) (size : float)
    (numCells : Z) (margin : Z) : ImagePixels :=
  let pixelRatio := (size / number_of_Z numCells)%float in
  {| imgWidth := (ip_w c * pixelRatio)%float;
     imgHeight := (ip_h c * pixelRatio)%float;
     imgLeft := ((ip_x c + number_of_Z margin) * pixelRatio)%float;
     imgTop := ((ip_y c + number_of_Z margin) * pixelRatio)%float |}.

(** The rectangle as integers, when its four fields are whole numbers. *)
Definition whole_rectangle (e : ExcavationDoubles) : option Excavation :=
  match integer_value (ed_x e), integer_value (ed_y e),
        integer_value (ed_w e), integer_value (ed_h e) with
  | Some x, Some y, Some w, Some h =>
      Some {| ex_x := x; ex_y := y; ex_w := w; ex_h := h |}
  | _, _, _, _ => None
  end.

(** [i < origin || i >= origin + extent] on doubles; a comparison with NaN
    is false. *)
Definition outside_doubles (origin extent : float) (i : Z) : bool :=
  ((number_of_Z i <? origin) || (origin + extent <=? number_of_Z i))%float.

(** [excavateModules] on the rectangle [getImageSettings] has built: the
    callbacks of the inner and of the outer [map], the index compared with
    doubles. *)
Definition excavate_cell_doubles (excavation : ExcavationDoubles) (cell : bool)
    (x : Z) : bool :=
  if outside_doubles (ed_x excavation) (ed_w excavation) x then cell else false.

Definition excavate_row_doubles (excavation : ExcavationDoubles)
    (row : list bool) (y : Z) : list bool :=
  if outside_doubles (ed_y excavation) (ed_h excavation) y then row
  else map_i (excavate_cell_doubles excavation) row.

Definition excavateModules_doubles (modules : Modules)
    (excavation : ExcavationDoubles) : Modules :=
  map_i (excavate_row_doubles excavation) modules.

(* ================================================================== *)
(** * StyledModuleRenderer: [generateStyledModules] *)
(* ================================================================== *)

(** The primitives the renderer emits; every one has [fill="currentColor"].
    The [points] of a polygon are kept as coordinate pairs. *)
Inductive SvgElement :=
  | ECircle (key : string) (cx cy r : Q)
  | ERect (key : string) (x y width height : Q) (rx ry : option Q)
  | EPolygon (key : string) (points : list (Q * Q)).

Definition renderDotModule (x y : Z) (style : QRDotStyle) (key : string)
    : SvgElement :=
  let pad : Q := 5 # 100 in
  let qx := inject_Z x in
  let qy := inject_Z y in
  match style with
  | DotCircle => ECircle key (qx + (5 # 10)) (qy + (5 # 10)) (45 # 100)
  | DotRounded =>
      ERect key (qx + pad) (qy + pad) (1 - pad * 2) (1 - pad * 2)
        (Some (3 # 10)) (Some (3 # 10))
  | DotDiamond =>
      EPolygon key
        [ (qx + (5 # 10), qy + (5 # 100)); (qx + (95 # 100), qy + (5 # 10));
          (qx + (5 # 10), qy + (95 # 100)); (qx + (5 # 100), qy + (5 # 10)) ]%Q
  | DotSquare => ERect key qx qy 1 1 None None
  end%Q.

Definition renderCornerModule (x y : Z) (style : QRCornerStyle) (key : string)
    : SvgElement :=
  let qx := inject_Z x in
  let qy := inject_Z y in
  match style with
  | CornerCircle => ECircle key (qx + (5 # 10)) (qy + (5 # 10)) (5 # 10)
  | CornerRounded => ERect key qx qy 1 1 (Some (25 # 100)) (Some (25 # 100))
  | CornerSquare => ERect key qx qy 1 1 None None
  end%Q.

(** Top-left corners of the three finder patterns. *)
Definition finderPositions (size : Z) : list (Z * Z) :=
  [ (0, 0); (size - 7, 0); (0, size - 7) ].

Definition isFinderModule (size : Z) (x y : Z) : bool :=
  existsb (fun fp =>
             (x >=? fst fp) && (x <? fst fp + 7) && (y >=? snd fp) && (y <? snd fp + 7))
          (finderPositions size).

(** [`${x}-${y}`] *)
Definition module_key (x y : Z) : string :=
  string_of_Z x +:+ "-" +:+ string_of_Z y.

(** The callback of the inner [forEach]; the state is the [elements] array. *)
Definition styled_cell (size margin : Z) (dot : QRDotStyle) (corner : QRCornerStyle)
    (y : Z) (elements : list SvgElement) (cell : bool) (x : Z) : list SvgElement :=
  if negb cell then elements
  else
    let cx := x + margin in
    let cy := y + margin in
    let key := module_key x y in
    if isFinderModule size x y
    then elements ++ [renderCornerModule cx cy corner key]
    else elements ++ [renderDotModule cx cy dot key].

Definition generateStyledModules (modules : Modules) (margin : Z)
    (dot : QRDotStyle) (corner : QRCornerStyle) : list SvgElement :=
  let size := Z.of_nat (length modules) in
  forEach (fun elements row y =>
             forEach (styled_cell size margin dot corner y) row elements)
          modules [].

(* ================================================================== *)
(** * GradientComposer: [generateGradientDef] *)
(* ================================================================== *)

Record GradientStop := mkStop { offset : string; stopColor : string }.

Inductive GradientDef :=
  | RadialGradient (id cx cy r : string) (stops : list GradientStop)
  | LinearGradient (id x1 y1 x2 y2 : string) (stops : list GradientStop).

Definition generateGradientDef (id direction startColor endColor : string)
    : GradientDef :=
  if String.eqb direction "radial" then
    RadialGradient id "50%" "50%" "50%"
      [ {| offset := "0%"; stopColor := startColor |};
        {| offset := "100%"; stopColor := endColor |} ]
  else
    let '(x2, y2) :=
      if String.eqb direction "vertical" then ("0%", "100%")
      else if String.eqb direction "diagonal" then ("100%", "100%")
      else ("100%", "0%") in
    LinearGradient id "0%" "0%" x2 y2
      [ {| offset := "0%"; stopColor := startColor |};
        {| offset := "100%"; stopColor := endColor |} ].

(* ================================================================== *)
(** * LayoutCompositor: [QRCodeSVG] *)
(* ================================================================== *)

Inductive Ecc := LOW | MEDIUM | QUARTILE | HIGH.

(** The own properties of [ERROR_LEVEL_MAP]. *)
Definition ERROR_LEVEL_MAP : gmap string Ecc :=
  list_to_map [ ("L", LOW); ("M", MEDIUM); ("Q", QUARTILE); ("H", HIGH) ].

Definition QR_LEVELS : list string := [ "L"; "M"; "Q"; "H" ].

(** The properties [QRCodeSVG] destructures; an omitted one is [None]. *)
Record QRPropsSVG := mkProps {
  p_value : string;
  p_size : option float;
  p_level : option string;
  p_bgColor : option string;
  p_fgColor : option string;
  p_margin : option Z;
  p_isOGContext : option bool;
  p_imageSettings : option ImageSettings;
  p_qrType : option QRCodeType;
  p_qrStyle : option QRStyleSettings
}.

(** The logo element: an absolutely positioned [<img>] in pixels for the
    raster context, an [<image>] in module units otherwise. *)
Inductive ImageEl :=
  | ImgAbsolute (src : string) (left top width height : float)
  | ImgSvg (href : string) (height width x y : float).

Inductive Foreground :=
  | FgStyled (fillColor : string) (styledElements : list SvgElement)
  | FgPath (fill : string) (d : string).

Record SvgDoc := mkDoc {
  svg_height : float;
  svg_width : float;
  svg_viewBox : string;
  svg_defs : option GradientDef;
  svg_bg_fill : string;
  svg_bg_d : string;
  svg_fg : Foreground;
  svg_image : option ImageEl
}.

Definition is_styled_type (t : QRCodeType) : bool :=
  match t with custom | holographic => true | _ => false end.

Definition is_L_or_M (level : string) : bool :=
  String.eqb level "L" || String.eqb level "M".

Definition shouldUseHigherErrorLevel (props : QRPropsSVG) : bool :=
  let level := default DEFAULT_LEVEL (p_level props) in
  let isOGContext := default false (p_isOGContext props) in
  isOGContext
  && match p_imageSettings props with
     | Some img => img_excavate img
     | None => false
     end
  && is_L_or_M level.

Definition effectiveLevel (props : QRPropsSVG) : string :=
  let level := default DEFAULT_LEVEL (p_level props) in
  let qrType := default standard (p_qrType props) in
  if shouldUseHigherErrorLevel props then "Q"
  else if is_styled_type qrType && is_L_or_M level then "Q"
  else level.

Definition effectiveMargin (props : QRPropsSVG) : Z :=
  let margin := default DEFAULT_MARGIN (p_margin props) in
  match default standard (p_qrType props) with
  | micro => Z.min margin 1
  | _ => margin
  end.

(** [`M0,0 h${numCells}v${numCells}H0z`] *)
Definition background_d (numCells : Z) : string :=
  "M0,0 h" +:+ string_of_Z numCells +:+ "v" +:+ string_of_Z numCells +:+ "H0z".

(** [`0 0 ${numCells} ${numCells}`] *)
Definition viewBox_of (numCells : Z) : string :=
  "0 0 " +:+ string_of_Z numCells +:+ " " +:+ string_of_Z numCells.

Definition gradientId : string := "qr-holo-gradient".

Section Renderer.

(** [qrcodegen.QrCode.encodeText(value, ecc).getModules()]: the external
    symbol encoder, handed whatever [ERROR_LEVEL_MAP[effectiveLevel]] is;
    [None] when it throws. *)
Variable encodeText : string -> option (Value Ecc) -> option Modules.

Definition QRCodeSVG (props : QRPropsSVG) : option SvgDoc :=
  let value := p_value props in
  let size := default DEFAULT_SIZE (p_size props) in
  let bgColor := default DEFAULT_BGCOLOR (p_bgColor props) in
  let fgColor := default DEFAULT_FGCOLOR (p_fgColor props) in
  let isOGContext := default false (p_isOGContext props) in
  let imageSettings := p_imageSettings props in
  let qrType := default standard (p_qrType props) in
  let qrStyle := p_qrStyle props in
  cells0 ← encodeText value (get_property ERROR_LEVEL_MAP (effectiveLevel props));
  let numCells := Z.of_nat (length cells0) + effectiveMargin props * 2 in
  let calculatedImageSettings :=
    getImageSettings cells0 size (effectiveMargin props) imageSettings in
  let '(cells, image) :=
    match imageSettings, calculatedImageSettings with
    | Some img, Some c =>
        let cells :=
          match ip_excavation c with
          | Some e => excavateModules_doubles cells0 e
          | None => cells0
          end in
        let image :=
          if isOGContext then
            let px := convertImageSettingsToPixels c size numCells
                        (effectiveMargin props) in
            ImgAbsolute (img_src img) (imgLeft px) (imgTop px)
              (imgWidth px) (imgHeight px)
          else
            ImgSvg (img_src img) (ip_h c) (ip_w c)
              (ip_x c + number_of_Z (effectiveMargin props))%float
              (ip_y c + number_of_Z (effectiveMargin props))%float in
        (cells, Some image)
    | _, _ => (cells0, None)
    end in
  let useStyledRendering := if is_styled_type qrType then qrStyle else None in
  let useGradient :=
    match qrType with holographic => qrStyle | _ => None end in
  match useStyledRendering with
  | Some style =>
      let styledElements :=
        generateStyledModules cells (effectiveMargin props)
          (default (match qrType with holographic => DotRounded | _ => DotSquare end)
                   (dotStyle style))
          (default CornerSquare (cornerStyle style)) in
      let fillColor :=
        match useGradient with
        | Some _ => "url(#" +:+ gradientId +:+ ")"
        | None => fgColor
        end in
      Some {| svg_height := size; svg_width := size;
              svg_viewBox := viewBox_of numCells;
              svg_defs :=
                (fun g => generateGradientDef gradientId
                            (str_or (gradientDirection g) "horizontal")
                            (str_or (gradientStartColor g) "#8A2BE2")
                            (str_or (gradientEndColor g) "#00CED1"))
                <$> useGradient;
              svg_bg_fill := bgColor; svg_bg_d := background_d numCells;
              svg_fg := FgStyled fillColor styledElements;
              svg_image := image |}
  | None =>
      let fgPath := generatePath cells (effectiveMargin props) in
      Some {| svg_height := size; svg_width := size;
              svg_viewBox := viewBox_of numCells;
              svg_defs := None;
              svg_bg_fill := bgColor; svg_bg_d := background_d numCells;
              svg_fg := FgPath fgColor fgPath;
              svg_image := image |}
  end.

End Renderer.

(* ================================================================== *)
(** * StyleAccessPolicy and the image route *)
(* ================================================================== *)

(** The own properties of the two tables. *)
Definition QR_TYPE_PLAN_REQUIREMENTS : gmap string string :=
  list_to_map
    [ ("standard", "free"); ("micro", "free"); ("compact", "pro");
      ("custom", "pro"); ("holographic", "business"); ("cube3d", "business") ].

Definition PLAN_HIERARCHY : gmap string Z :=
  list_to_map [ ("free", 0); ("pro", 1); ("business", 2); ("enterprise", 3) ].

(** [v || d] on what a table of strings gives: [undefined] and the empty
    string are falsy, an inherited member is truthy. *)
Definition value_or (v : option (Value string)) (d : string) : Value string :=
  match v with
  | Some (Own (String c s)) => Own (String c s)
  | Some (Inherited k) => Inherited k
  | _ => Own d
  end.

Record PlanAccess := mkAccess { allowed : bool; requiredPlan : Value string }.

Definition checkQRTypePlanAccess (qrType : string) (workspacePlan : option string)
    : PlanAccess :=
  let requiredPlan :=
    value_or (get_property QR_TYPE_PLAN_REQUIREMENTS qrType) "business" in
  let userLevel :=
    default (Own 0) (get_property PLAN_HIERARCHY (str_or workspacePlan "free")) in
  let requiredLevel :=
    default (Own 0) (get_property PLAN_HIERARCHY (to_string requiredPlan)) in
  {| allowed := ge_values userLevel requiredLevel; requiredPlan := requiredPlan |}.

(** The value of the [qrType] query parameter as the string it is. *)
Definition qrType_name (t : QRCodeType) : string :=
  match t with
  | standard => "standard"
  | micro => "micro"
  | compact => "compact"
  | custom => "custom"
  | holographic => "holographic"
  | cube3d => "cube3d"
  end.

(** The output of [getQRCodeQuerySchema.parse]. *)
Record QRQuery := mkQuery {
  q_logo : option string;
  q_url : string;
  q_size : float;
  q_level : string;
  q_fgColor : string;
  q_bgColor : string;
  q_margin : Z;
  q_hideLogo : bool;
  q_qrType : QRCodeType;
  q_dotStyle : QRDotStyle;
  q_cornerStyle : QRCornerStyle;
  q_gradientDirection : string;
  q_gradientStartColor : string;
  q_gradientEndColor : string
}.

Record ShortLink := mkShortLink { projectId : string; domain : string }.
Record Workspace := mkWorkspace { plan : option string; ws_logo : option string }.
Record Domain := mkDomain { dom_logo : option string }.

Inductive Response :=
  | ErrorJson (status : Z) (code message doc_url : string)
  | ImageResponse (element : SvgDoc) (width height : float)
  | HandledError.

(** [url.split("?")[0]] *)
Fixpoint before_query (url : string) : string :=
  match url with
  | EmptyString => EmptyString
  | String c rest => if Ascii.eqb c "?" then EmptyString else String c (before_query rest)
  end.

Definition truthy (o : option string) : bool :=
  match o with Some (String _ _) => true | _ => false end.

Definition dquote : string := String "034"%char EmptyString.

Definition forbidden_message (qrType requiredPlan : string) : string :=
  "The " +:+ dquote +:+ qrType +:+ dquote +:+ " QR code type requires a "
  +:+ requiredPlan +:+ " plan or above. Upgrade to access this feature.".

Section Route.

Variable encodeText : string -> option (Value Ecc) -> option Modules.
Variable getShortLinkViaEdge : string -> option ShortLink.
Variable getWorkspaceViaEdge : string -> option Workspace.
Variable getDomainViaEdge : string -> option Domain.
Variable isDubDomain : string -> bool.
Variable DUB_QR_LOGO : string.

Definition getQRCodeLogo (url : string) (logo : option string) (hideLogo : bool)
    (workspacePlan : option string) : option string :=
  match getShortLinkViaEdge (before_query url) with
  | None => Some DUB_QR_LOGO
  | Some shortLink =>
      if negb (truthy workspacePlan) || bool_decide (workspacePlan = Some "free")
      then Some DUB_QR_LOGO
      else if hideLogo then None
      else if truthy logo then logo
      else
        let workspace := getWorkspaceViaEdge (projectId shortLink) in
        let workspace_logo := workspace ≫= ws_logo in
        if isDubDomain (domain shortLink) && negb (truthy workspace_logo)
        then Some DUB_QR_LOGO
        else
          let domain_logo := getDomainViaEdge (domain shortLink) ≫= dom_logo in
          if truthy domain_logo then domain_logo
          else if truthy workspace_logo then workspace_logo
          else Some DUB_QR_LOGO
  end.

(** [workspace?.plan || null] for the workspace of the short link, if any. *)
Definition lookupWorkspacePlan (url : string) : option string :=
  match getShortLinkViaEdge (before_query url) with
  | None => None
  | Some shortLink =>
      let p := getWorkspaceViaEdge (projectId shortLink) ≫= plan in
      if truthy p then p else None
  end.

(** The properties the route hands to [QRCodeSVG]. *)
Definition route_props (q : QRQuery) (workspacePlan : option string) : QRPropsSVG :=
  let qrType := q_qrType q in
  let effectiveHideLogo :=
    match qrType with micro | compact => true | _ => q_hideLogo q end in
  let effectiveMargin :=
    match qrType with micro => Z.min (q_margin q) 1 | _ => q_margin q end in
  let qrCodeLogo :=
    getQRCodeLogo (q_url q) (q_logo q) effectiveHideLogo workspacePlan in
  let qrStyle :=
    if is_styled_type qrType then
      Some {| dotStyle := Some (q_dotStyle q);
              cornerStyle := Some (q_cornerStyle q);
              gradientDirection :=
                match qrType with holographic => Some (q_gradientDirection q) | _ => None end;
              gradientStartColor :=
                match qrType with holographic => Some (q_gradientStartColor q) | _ => None end;
              gradientEndColor :=
                match qrType with holographic => Some (q_gradientEndColor q) | _ => None end |}
    else None in
  {| p_value := q_url q;
     p_size := Some (q_size q);
     p_level := Some (q_level q);
     p_fgColor := Some (q_fgColor q);
     p_bgColor := Some (q_bgColor q);
     p_margin := Some effectiveMargin;
     p_qrType := Some qrType;
     p_qrStyle := qrStyle;
     p_imageSettings :=
       match qrCodeLogo with
       | Some (String c s) =>
           Some {| img_src := String c s;
                   img_height := (q_size q / 4)%float;
                   img_width := (q_size q / 4)%float;
                   img_excavate := true;
                   img_x := None; img_y := None |}
       | _ => None
       end;
     p_isOGContext := Some true |}.

(** The handler, from the parsed query on (query validation and rate
    limiting precede it and are not modelled). *)
Definition GET (q : QRQuery) : Response :=
  let workspacePlan := lookupWorkspacePlan (q_url q) in
  let access := checkQRTypePlanAccess (qrType_name (q_qrType q)) workspacePlan in
  if negb (bool_decide (q_qrType q = standard)) && negb (allowed access) then
    ErrorJson 403 "forbidden"
      (forbidden_message (qrType_name (q_qrType q))
         (to_string (requiredPlan access)))
      "https://dub.co/help/article/custom-qr-codes"
  else
    match QRCodeSVG encodeText (route_props q workspacePlan) with
    | Some element => ImageResponse element (q_size q) (q_size q)
    | None => HandledError
    end.

End Route.

(* ================================================================== *)
(** * The stated properties, in their own words *)
(* ================================================================== *)

(** The level a request asks for, after the default. *)
Definition requested_level (props : QRPropsSVG) : string :=
  default DEFAULT_LEVEL (p_level props).

(** "the requested level is L or M and either (a) isOGContext is true and
    imageSettings.excavate is true, or (b) qrType is custom or holographic" *)
Definition escalation_requested (props : QRPropsSVG) : bool :=
  (String.eqb (requested_level props) "L" || String.eqb (requested_level props) "M")
  && ((bool_decide (p_isOGContext props = Some true)
       && bool_decide (img_excavate <$> p_imageSettings props = Some true))
      || bool_decide (p_qrType props = Some custom)
      || bool_decide (p_qrType props = Some holographic)).

Fixpoint index_of (s : string) (l : list string) : option Z :=
  match l with
  | [] => None
  | s' :: l' => if String.eqb s s' then Some 0 else Z.succ <$> index_of s l'
  end.

(** Position of a level in the order L < M < Q < H of [QR_LEVELS]. *)
Definition level_rank (level : string) : option Z := index_of level QR_LEVELS.

(** [a] is not above [b]; a string that is no level is only related to itself. *)
Definition level_le (a b : string) : bool :=
  match level_rank a, level_rank b with
  | Some i, Some j => i <=? j
  | None, None => String.eqb a b
  | _, _ => false
  end.

(** "standard→free, micro→free, compact→pro, custom→pro,
    holographic→business, cube3d→business and any unrecognized t to business" *)
Definition required_plan (t : string) : string :=
  if decide (t = "standard") then "free"
  else if decide (t = "micro") then "free"
  else if decide (t = "compact") then "pro"
  else if decide (t = "custom") then "pro"
  else if decide (t = "holographic") then "business"
  else if decide (t = "cube3d") then "business"
  else "business".

(** "free→0, pro→1, business→2, enterprise→3 with an unrecognized or
    missing plan treated as free" *)
Definition plan_tier (p : option string) : Z :=
  match p with
  | None => 0
  | Some s =>
      if decide (s = "free") then 0
      else if decide (s = "pro") then 1
      else if decide (s = "business") then 2
      else if decide (s = "enterprise") then 3
      else 0
  end.


(** The shape the styled renderer draws for the module at [(x, y)]. *)
Definition styled_shape (N margin : Z) (dot : QRDotStyle) (corner : QRCornerStyle)
    (x y : Z) : SvgElement :=
  if isFinderModule N x y
  then renderCornerModule (x + margin) (y + margin) corner (module_key x y)
  else renderDotModule (x + margin) (y + margin) dot (module_key x y).

(** The cell [(cx, cy)] lies in the excavation rectangle. *)
Definition in_excavation (e : Excavation) (cx cy : Z) : Prop :=
  ex_x e <= cx < ex_x e + ex_w e /\ ex_y e <= cy < ex_y e + ex_h e.

(** The rectangle contains the footprint [x, x+w] × [y, y+h], given by
    the exact values of its coordinates. *)
Definition covers_footprint (e : Excavation) (x y w h : Q) : Prop :=
  (inject_Z (ex_x e) <= x /\ x + w <= inject_Z (ex_x e + ex_w e)
   /\ inject_Z (ex_y e) <= y /\ y + h <= inject_Z (ex_y e + ex_h e))%Q.

(** By how much the rectangle is longer than the footprint, per axis. *)
Definition overcover_x (e : Excavation) (w : Q) : Q := (inject_Z (ex_w e) - w)%Q.
Definition overcover_y (e : Excavation) (h : Q) : Q := (inject_Z (ex_h e) - h)%Q.

(** A bound on the rounding error of the extent [w + x - floor x], a sum
    and a difference of doubles, each within a 2^53-th of its exact
    result. *)
Definition rounding_slack (x w : Q) : Q :=
  ((3 * Qabs (x + w) + Qabs x + 1) * (1 # 2 ^ 53))%Q.

(** A matrix of at most 2^52 rows and columns: every index is a double. *)
Definition indices_exact (M : Modules) : Prop :=
  Z.of_nat (length M) <= 2 ^ 52
  /\ Forall (fun row : list bool => Z.of_nat (length row) <= 2 ^ 52) M.

(** The matrix [QRCodeSVG] draws: the encoder's, excavated when the logo
    asks for it. *)
Definition rendered_cells (props : QRPropsSVG) (cells0 : Modules) : Modules :=
  match getImageSettings cells0 (default DEFAULT_SIZE (p_size props))
          (effectiveMargin props) (p_imageSettings props) with
  | Some c => match ip_excavation c with
              | Some e => excavateModules_doubles cells0 e
              | None => cells0
              end
  | None => cells0
  end.

Definition with_qrStyle (props : QRPropsSVG) (s : option QRStyleSettings)
    : QRPropsSVG :=
  {| p_value := p_value props; p_size := p_size props; p_level := p_level props;
     p_bgColor := p_bgColor props; p_fgColor := p_fgColor props;
     p_margin := p_margin props; p_isOGContext := p_isOGContext props;
     p_imageSettings := p_imageSettings props; p_qrType := p_qrType props;
     p_qrStyle := s |}.

(** ** Runs of dark cells, for the path encoder *)

(** A horizontal run of [run_len] cells whose first cell is [(run_x, run_y)]. *)
Record run := mkRun { run_x : Z; run_y : Z; run_len : Z }.

Definition covers (r : run) (cx cy : Z) : bool :=
  (cy =? run_y r) && (run_x r <=? cx) && (cx <? run_x r + run_len r).

(** How many of the runs contain the cell. *)
Fixpoint count_covering (rs : list run) (cx cy : Z) : nat :=
  match rs with
  | [] => 0
  | r :: rs' => (if covers r cx cy then 1 else 0) + count_covering rs' cx cy
  end.

(** How many of the operations, each drawn alone, fill the cell. *)
Fixpoint count_filled (operations : list string) (cx cy : Z) : nat :=
  match operations with
  | [] => 0
  | op :: operations' =>
      (if filled op cx cy then 1 else 0) + count_filled operations' cx cy
  end.

(** The rectangle of a run as tokens, commands and segments. *)
Definition run_tokens (r : run) : list token :=
  [ TCmd "M"; TNum (run_x r); TNum (run_y r); TCmd "h"; TNum (run_len r);
    TCmd "v"; TNum 1; TCmd "H"; TNum (run_x r); TCmd "z" ].

Definition run_cmds (r : run) : list cmd :=
  [ MoveTo (run_x r) (run_y r); HLineRel (run_len r); VLineRel 1;
    HLineAbs (run_x r); ClosePath ].

Definition run_edges (r : run) : list edge :=
  let a := run_x r in
  let b := run_y r in
  let n := run_len r in
  [ ((a, b), (a + n, b)); ((a + n, b), (a + n, b + 1));
    ((a + n, b + 1), (a, b + 1)); ((a, b + 1), (a, b)) ].

(** The operation reads as the rectangle of the run, whatever follows it. *)
Definition draws_run (op : string) (r : run) : Prop :=
  forall rest, lex None (op +:+ rest) = run_tokens r ++ lex None rest.

(** [row[i]], [false] when out of range. *)
Definition row_cell (row : list bool) (i : Z) : bool :=
  if i <? 0 then false else default false (row !! Z.to_nat i).

Fixpoint all_digits (s : string) : bool :=
  match s with
  | EmptyString => true
  | String c s' => is_digit c && all_digits s'
  end.

Definition starts_nondigit (s : string) : bool :=
  match s with
  | EmptyString => true
  | String c _ => negb (is_digit c)
  end.

(** The cells of the run in progress, while the row has cells left. *)
Definition pending (st : PathState) (rest : list bool) (x i : Z) : bool :=
  match rest, start st with
  | _ :: _, Some s => (s <=? i) && (i <? x)
  | _, _ => false
  end.

(** ** Counting, for the encoder and the styled renderer *)

(** Dark cells that begin a run, [prev] telling whether the cell before the
    row's first one is dark. *)
Fixpoint run_starts (prev : bool) (row : list bool) : nat :=
  match row with
  | [] => 0
  | c :: row' => (if c && negb prev then 1 else 0) + run_starts c row'
  end.

(** Maximal horizontal runs of dark cells in the matrix. *)
Fixpoint count_runs (M : Modules) : nat :=
  match M with
  | [] => 0
  | row :: M' => run_starts false row + count_runs M'
  end.

Fixpoint count_dark_row (row : list bool) : nat :=
  match row with
  | [] => 0
  | c :: row' => (if c then 1 else 0) + count_dark_row row'
  end.

Fixpoint count_dark (M : Modules) : nat :=
  match M with
  | [] => 0
  | row :: M' => count_dark_row row + count_dark M'
  end.

(** The [key] attribute of a primitive. *)
Definition element_key (e : SvgElement) : string :=
  match e with
  | ECircle key _ _ _ => key
  | ERect key _ _ _ _ _ _ => key
  | EPolygon key _ => key
  end.

(** Coordinates of the dark modules, row by row. *)
Definition dark_coords (M : Modules) : list (Z * Z) :=
  concat (map_from
    (fun row y =>
       concat (map_from (fun (cell : bool) x => if cell then [(x, y)] else []) 0 row))
    0 M).

(** The [id] attribute of a gradient definition. *)
Definition gradient_id (g : GradientDef) : string :=
  match g with
  | RadialGradient id _ _ _ _ => id
  | LinearGradient id _ _ _ _ _ => id
  end.

Definition gradient_stops (g : GradientDef) : list GradientStop :=
  match g with
  | RadialGradient _ _ _ _ stops => stops
  | LinearGradient _ _ _ _ _ stops => stops
  end.

Definition with_isOGContext (props : QRPropsSVG) (b : option bool) : QRPropsSVG :=
  {| p_value := p_value props; p_size := p_size props; p_level := p_level props;
     p_bgColor := p_bgColor props; p_fgColor := p_fgColor props;
     p_margin := p_margin props; p_isOGContext := b;
     p_imageSettings := p_imageSettings props; p_qrType := p_qrType props;
     p_qrStyle := p_qrStyle props |}.

(** The primitive stays inside the unit cell whose corner is [(cx, cy)],
    at least [pad] away from each of its sides. *)
Definition inset_in_cell (pad : Q) (e : SvgElement) (cx cy : Z) : Prop :=
  let x0 := (inject_Z cx + pad)%Q in
  let x1 := (inject_Z cx + 1 - pad)%Q in
  let y0 := (inject_Z cy + pad)%Q in
  let y1 := (inject_Z cy + 1 - pad)%Q in
  match e with
  | ECircle _ x y r =>
      (0 < r /\ x0 <= x - r /\ x + r <= x1 /\ y0 <= y - r /\ y + r <= y1)%Q
  | ERect _ x y w h _ _ =>
      (0 < w /\ 0 < h /\ x0 <= x /\ x + w <= x1 /\ y0 <= y /\ y + h <= y1)%Q
  | EPolygon _ points =>
      Forall (fun p => (x0 <= fst p /\ fst p <= x1 /\ y0 <= snd p /\ snd p <= y1)%Q)
             points
  end.

(* ================================================================== *)
(** * CORS headers ([lib/api/cors.ts]) *)
(* ================================================================== *)

Section Cors.

(** [process.env.NEXTAUTH_URL] and [process.env.NEXT_PUBLIC_APP_URL]. *)
Variable NEXTAUTH_URL : option string.
Variable NEXT_PUBLIC_APP_URL : option string.

(** [[...].filter(Boolean)]: the defined, non-empty entries. *)
Definition allowedOrigins : list string :=
  omap (fun o => match o with
                 | Some (String c s) => Some (String c s)
                 | _ => None
                 end)
       [ NEXTAUTH_URL; Some "https://app.dub.co"; Some "https://dub.co";
         NEXT_PUBLIC_APP_URL ].

Definition restrictedOrigin (requestOrigin : option string) : string :=
  match requestOrigin with
  | Some (String c s) =>
      if bool_decide (String c s ∈ allowedOrigins) then String c s
      else str_or (head allowedOrigins) "https://app.dub.co"
  | _ => str_or (head allowedOrigins) "https://app.dub.co"
  end.

(** The headers, as name/value pairs in the order written. *)
Definition getRestrictedCorsHeaders (requestOrigin : option string)
    : list (string * string) :=
  [ ("Access-Control-Allow-Origin", restrictedOrigin requestOrigin);
    ("Access-Control-Allow-Methods", "GET, POST, PUT, DELETE, OPTIONS");
    ("Access-Control-Allow-Headers", "Content-Type, Authorization, X-Request-Id");
    ("Access-Control-Allow-Credentials", "true");
    ("Access-Control-Max-Age", "86400");
    ("Vary", "Origin") ].

End Cors.

(** [headers.get(name)] on such a list. *)
Fixpoint header_get (name : string) (headers : list (string * string))
    : option string :=
  match headers with
  | [] => None
  | (n, v) :: headers' => if String.eqb n name then Some v else header_get name headers'
  end.

(* ================================================================== *)
(** * Backup server utilities ([server/main.go]) *)
(* ================================================================== *)

Module Server.

(** A Go [string] is its bytes.  [s[:n]] for [0 <= n <= len(s)]. *)
Fixpoint take_bytes (n : nat) (s : string) : string :=
  match n, s with
  | S n', String c s' => String c (take_bytes n' s')
  | _, _ => EmptyString
  end.

(** [s[n:]] for [0 <= n <= len(s)]. *)
Fixpoint drop_bytes (n : nat) (s : string) : string :=
  match n, s with
  | S n', String _ s' => drop_bytes n' s'
  | _, _ => s
  end.

(** [truncate]; [None] is the run-time panic of slicing with a negative bound. *)
Definition truncate (s : string) (maxLen : Z) : option string :=
  if Z.of_nat (String.length s) <=? maxLen then Some s
  else if maxLen <? 0 then None
  else Some (take_bytes (Z.to_nat maxLen) s).

End Server.

(* ================================================================== *)
(** * Effective error-correction level *)
(* ================================================================== *)

Lemma shouldUseHigherErrorLevel_spec props :
  shouldUseHigherErrorLevel props
  = bool_decide (p_isOGContext props = Some true)
    && bool_decide (img_excavate <$> p_imageSettings props = Some true)
    && is_L_or_M (requested_level props).
Proof.
  unfold shouldUseHigherErrorLevel, requested_level.
  destruct (p_isOGContext props) as [[]|], (p_imageSettings props) as [img|];
    simpl; try reflexivity.
  destruct (img_excavate img); reflexivity.
Qed.

Lemma is_styled_type_spec props :
  is_styled_type (default standard (p_qrType props))
  = bool_decide (p_qrType props = Some custom)
    || bool_decide (p_qrType props = Some holographic).
Proof. destruct (p_qrType props) as [[]|]; reflexivity. Qed.

Lemma effectiveLevel_cases props :
  effectiveLevel props
  = if escalation_requested props then "Q" else requested_level props.
Proof.
  unfold effectiveLevel, escalation_requested.
  rewrite shouldUseHigherErrorLevel_spec, is_styled_type_spec.
  fold (requested_level props). unfold is_L_or_M.
  destruct (bool_decide (p_isOGContext props = Some true)),
    (bool_decide (img_excavate <$> p_imageSettings props = Some true)),
    (bool_decide (p_qrType props = Some custom)),
    (bool_decide (p_qrType props = Some holographic)),
    (String.eqb (requested_level props) "L"),
    (String.eqb (requested_level props) "M"); reflexivity.
Qed.

Lemma level_le_refl l : level_le l l = true.
Proof.
  unfold level_le. destruct (level_rank l).
  - apply Z.leb_refl.
  - apply String.eqb_refl.
Qed.

Lemma QRCodeSVG_encodes enc props doc :
  QRCodeSVG enc props = Some doc ->
  exists cells0,
    enc (p_value props) (get_property ERROR_LEVEL_MAP (effectiveLevel props)) = Some cells0.
Proof.
  unfold QRCodeSVG. intros H.
  destruct (enc (p_value props) (get_property ERROR_LEVEL_MAP (effectiveLevel props))) as [c|];
    [eauto | discriminate].
Qed.

(** C2. The level handed to the encoder is Q when the request asks for L
    or M and either renders for the raster context with an excavating logo
    or has type custom or holographic, and is the requested level in every
    other case; it differs from the requested level exactly in the first
    case, and it is never below the requested level in L < M < Q < H. *)
Theorem effectiveLevel_only_escalates (props : QRPropsSVG) :
  effectiveLevel props
    = (if escalation_requested props then "Q" else requested_level props)
  /\ (effectiveLevel props <> requested_level props
      <-> escalation_requested props = true)
  /\ level_le (requested_level props) (effectiveLevel props) = true
  /\ (forall enc doc,
        QRCodeSVG enc props = Some doc ->
        exists cells0,
          enc (p_value props) (get_property ERROR_LEVEL_MAP (effectiveLevel props))
          = Some cells0).
Proof.
  rewrite effectiveLevel_cases.
  split; [reflexivity|]. split; [|split].
  - unfold escalation_requested.
    destruct (String.eqb_spec (requested_level props) "L") as [->|];
      [simpl; destruct (_ || _); split; congruence|].
    destruct (String.eqb_spec (requested_level props) "M") as [->|];
      [simpl; destruct (_ || _); split; congruence|].
    simpl. split; congruence.
  - unfold escalation_requested.
    destruct (String.eqb_spec (requested_level props) "L") as [->|];
      [simpl; destruct (_ || _); reflexivity|].
    destruct (String.eqb_spec (requested_level props) "M") as [->|];
      [simpl; destruct (_ || _); reflexivity|].
    simpl. apply level_le_refl.
  - intros enc doc H. apply QRCodeSVG_encodes in H.
    rewrite effectiveLevel_cases in H. exact H.
Qed.

Lemma effectiveLevel_only_escalates_witness :
  let props :=
    {| p_value := "https://dub.sh/x"; p_size := None; p_level := Some "M";
       p_bgColor := None; p_fgColor := None; p_margin := None;
       p_isOGContext := None; p_imageSettings := None;
       p_qrType := Some custom; p_qrStyle := None |} in
  let enc : string -> option (Value Ecc) -> option Modules :=
    fun _ ecc => match ecc with Some (Own QUARTILE) => Some [[true]] | _ => None end in
  effectiveLevel props = "Q"
  /\ level_le "M" (effectiveLevel props) = true
  /\ exists cells0, enc "https://dub.sh/x" (Some (Own QUARTILE)) = Some cells0.
Proof.
  intros props enc.
  destruct (effectiveLevel_only_escalates props) as (Hq & _ & Hle & Henc).
  split; [exact Hq|]. split; [exact Hle|].
  destruct (QRCodeSVG enc props) as [doc|] eqn:Hdoc; [|discriminate].
  exact (Henc enc doc Hdoc).
Defined.

(* ================================================================== *)
(** * Plan gate *)
(* ================================================================== *)

Lemma not_inherited (k : string) :
  bool_decide (k ∈ Object_prototype) = false -> k ∉ Object_prototype.
Proof. intros H. apply bool_decide_eq_false_1 in H. exact H. Qed.

Lemma get_property_ordinary {A : Type} (o : gmap string A) (k : string) :
  k ∉ Object_prototype -> get_property o k = Own <$> o !! k.
Proof.
  intros Hk. unfold get_property. destruct (o !! k); [reflexivity|].
  rewrite bool_decide_eq_false_2 by exact Hk. reflexivity.
Qed.

Lemma QR_TYPE_PLAN_REQUIREMENTS_lookup (t : string) :
  str_or (QR_TYPE_PLAN_REQUIREMENTS !! t) "business" = required_plan t.
Proof.
  unfold QR_TYPE_PLAN_REQUIREMENTS, required_plan. simpl.
  rewrite !lookup_insert, lookup_empty.
  repeat (destruct (decide (_ = t)) as [<-|?]; [reflexivity|]).
  rewrite !decide_False by congruence. reflexivity.
Qed.

Lemma PLAN_HIERARCHY_lookup (s : string) :
  default 0 (PLAN_HIERARCHY !! s) = plan_tier (Some s).
Proof.
  unfold PLAN_HIERARCHY, plan_tier. simpl.
  rewrite !lookup_insert, lookup_empty.
  repeat (destruct (decide (_ = s)) as [<-|?]; [reflexivity|]).
  rewrite !decide_False by congruence. reflexivity.
Qed.

Lemma plan_tier_str_or (p : option string) :
  plan_tier (Some (str_or p "free")) = plan_tier p.
Proof. destruct p as [[|c s]|]; reflexivity. Qed.

Lemma required_plan_cases (t : string) :
  required_plan t = "free" \/ required_plan t = "pro"
  \/ required_plan t = "business".
Proof. unfold required_plan. repeat case_decide; tauto. Qed.

Lemma required_plan_ordinary (t : string) : required_plan t ∉ Object_prototype.
Proof.
  destruct (required_plan_cases t) as [-> | [-> | ->]];
    apply not_inherited; reflexivity.
Qed.

Lemma required_level_ordinary (t : string) :
  t ∉ Object_prototype ->
  value_or (get_property QR_TYPE_PLAN_REQUIREMENTS t) "business"
  = Own (required_plan t).
Proof.
  intros Ht. rewrite (get_property_ordinary _ _ Ht).
  rewrite <- QR_TYPE_PLAN_REQUIREMENTS_lookup.
  destruct (QR_TYPE_PLAN_REQUIREMENTS !! t) as [[|c s]|]; reflexivity.
Qed.

Lemma plan_level_ordinary (s : string) :
  s ∉ Object_prototype ->
  default (Own 0) (get_property PLAN_HIERARCHY s) = Own (plan_tier (Some s)).
Proof.
  intros Hs. rewrite (get_property_ordinary _ _ Hs), <- PLAN_HIERARCHY_lookup.
  destruct (PLAN_HIERARCHY !! s); reflexivity.
Qed.

Lemma str_or_free_ordinary (p : option string) :
  (forall s, p = Some s -> s ∉ Object_prototype) ->
  str_or p "free" ∉ Object_prototype.
Proof.
  intros Hp. destruct p as [[|c s]|]; simpl;
    [apply not_inherited; reflexivity | apply Hp; reflexivity
     | apply not_inherited; reflexivity].
Qed.

(** The gate on names that are no members of [Object.prototype]. *)
Lemma checkQRTypePlanAccess_unfold t p :
  t ∉ Object_prototype ->
  (forall s, p = Some s -> s ∉ Object_prototype) ->
  checkQRTypePlanAccess t p
  = {| allowed := plan_tier p >=? plan_tier (Some (required_plan t));
       requiredPlan := Own (required_plan t) |}.
Proof.
  intros Ht Hp. unfold checkQRTypePlanAccess.
  rewrite (required_level_ordinary _ Ht). cbn [to_string].
  rewrite (plan_level_ordinary _ (required_plan_ordinary t)).
  rewrite (plan_level_ordinary _ (str_or_free_ordinary _ Hp)), plan_tier_str_or.
  reflexivity.
Qed.

Lemma qrType_name_ordinary (t : QRCodeType) : qrType_name t ∉ Object_prototype.
Proof. destruct t; apply not_inherited; reflexivity. Qed.

(** For the six types the required plan is the table's, whatever the plan. *)
Lemma requiredPlan_of_type (t : QRCodeType) (p : option string) :
  requiredPlan (checkQRTypePlanAccess (qrType_name t) p)
  = Own (required_plan (qrType_name t)).
Proof.
  unfold checkQRTypePlanAccess. cbn [requiredPlan].
  apply required_level_ordinary, qrType_name_ordinary.
Qed.

Lemma plan_tier_nonneg p : 0 <= plan_tier p.
Proof. destruct p as [s|]; simpl; repeat case_decide; lia. Qed.

(** C3, as the code has it.  For a type and a plan that do not name a
    member inherited from [Object.prototype], access is allowed exactly
    when the tier of the workspace plan reaches the tier of the plan the
    type requires, under the stated tables and defaults; holographic on the
    free plan is denied with required plan business and standard on the
    free plan is allowed.  For a type other than standard, for which alone
    the route consults the gate, a denied request is answered 403 whatever
    the encoder would have done; the body carries the code forbidden, a
    documentation link, and a message that names the type and the required
    plan, and nothing else. *)
Theorem checkQRTypePlanAccess_gate :
  (forall (t : string) (p : option string),
     t ∉ Object_prototype ->
     (forall s, p = Some s -> s ∉ Object_prototype) ->
     requiredPlan (checkQRTypePlanAccess t p) = Own (required_plan t)
     /\ (allowed (checkQRTypePlanAccess t p) = true
         <-> plan_tier p >= plan_tier (Some (required_plan t))))
  /\ checkQRTypePlanAccess "holographic" (Some "free")
     = {| allowed := false; requiredPlan := Own "business" |}
  /\ allowed (checkQRTypePlanAccess "standard" (Some "free")) = true
  /\ (forall encodeText getShortLink getWorkspace getDomain isDub logo
        (q : QRQuery),
        let t := qrType_name (q_qrType q) in
        let access :=
          checkQRTypePlanAccess t
            (lookupWorkspacePlan getShortLink getWorkspace (q_url q)) in
        (q_qrType q <> standard ->
         allowed access = false ->
         GET encodeText getShortLink getWorkspace getDomain isDub logo q
         = ErrorJson 403 "forbidden"
             ("The " +:+ dquote +:+ t +:+ dquote +:+ " QR code type requires a "
              +:+ required_plan t
              +:+ " plan or above. Upgrade to access this feature.")
             "https://dub.co/help/article/custom-qr-codes")
        /\ (q_qrType q = standard \/ allowed access = true ->
            forall code msg url,
              GET encodeText getShortLink getWorkspace getDomain isDub logo q
              <> ErrorJson 403 code msg url)).
Proof.
  split; [|split; [|split]].
  - intros t p Ht Hp. rewrite (checkQRTypePlanAccess_unfold _ _ Ht Hp). simpl.
    split; [reflexivity|]. rewrite Z.geb_le. lia.
  - reflexivity.
  - reflexivity.
  - intros enc gsl gws gd isDub logo q t access. subst access t.
    unfold GET. rewrite requiredPlan_of_type. cbn [to_string].
    split.
    + intros Hstd Hden. rewrite Hden.
      rewrite bool_decide_eq_false_2 by exact Hstd. reflexivity.
    + intros [Hstd|Hok] code msg url.
      * rewrite Hstd. simpl. destruct (QRCodeSVG _ _); discriminate.
      * rewrite Hok, andb_false_r. destruct (QRCodeSVG _ _); discriminate.
Qed.

Lemma checkQRTypePlanAccess_gate_witness :
  let q :=
    {| q_logo := None; q_url := "https://dub.sh/x"; q_size := 600;
       q_level := "L"; q_fgColor := "#000000"; q_bgColor := "#FFFFFF";
       q_margin := 2; q_hideLogo := false; q_qrType := holographic;
       q_dotStyle := DotSquare; q_cornerStyle := CornerSquare;
       q_gradientDirection := "radial";
       q_gradientStartColor := "#8A2BE2"; q_gradientEndColor := "#00CED1" |} in
  let getShortLink : string -> option ShortLink :=
    fun _ => Some {| projectId := "ws_1"; domain := "dub.sh" |} in
  let getWorkspace : string -> option Workspace :=
    fun _ => Some {| plan := Some "free"; ws_logo := None |} in
  let encodeText : string -> option (Value Ecc) -> option Modules :=
    fun _ _ => Some [[true]] in
  (allowed (checkQRTypePlanAccess "compact" (Some "pro")) = true
   /\ requiredPlan (checkQRTypePlanAccess "compact" (Some "pro")) = Own "pro")
  /\ GET encodeText getShortLink getWorkspace (fun _ => None) (fun _ => true)
       "https://assets.dub.co/logo.png" q
     = ErrorJson 403 "forbidden"
         ("The " +:+ dquote
          +:+ "holographic" +:+ dquote
          +:+ " QR code type requires a business plan or above. Upgrade to access this feature.")
         "https://dub.co/help/article/custom-qr-codes".
Proof.
  intros q getShortLink getWorkspace encodeText.
  destruct checkQRTypePlanAccess_gate as (Hgate & _ & _ & Hroute).
  split.
  - destruct (Hgate "compact" (Some "pro")) as [Hplan Hallowed].
    + apply not_inherited. reflexivity.
    + intros s [= <-]. apply not_inherited. reflexivity.
    + split; [apply Hallowed; vm_compute; discriminate | exact Hplan].
  - destruct (Hroute encodeText getShortLink getWorkspace (fun _ => None)
                (fun _ => true) "https://assets.dub.co/logo.png" q) as [Hdenied _].
    exact (Hdenied ltac:(discriminate) eq_refl).
Defined.

(** C3, as stated, fails on names that every object literal inherits: the
    type [constructor], which the tables do not list, is allowed on the
    free plan, with the inherited function in the place of the required
    plan, where the claim requires business; and the plan [toString], which
    the hierarchy does not list, is denied even the type micro, which the
    free plan is allowed. *)
Lemma inherited_names_escape_the_gate :
  checkQRTypePlanAccess "constructor" (Some "free")
  = {| allowed := true; requiredPlan := Inherited "constructor" |}
  /\ required_plan "constructor" = "business"
  /\ ~ plan_tier (Some "free") >= plan_tier (Some (required_plan "constructor"))
  /\ checkQRTypePlanAccess "micro" (Some "toString")
     = {| allowed := false; requiredPlan := Own "free" |}
  /\ plan_tier (Some "toString") >= plan_tier (Some (required_plan "micro"))
  /\ ~ (forall (t : string) (p : option string),
          allowed (checkQRTypePlanAccess t p) = true
          <-> plan_tier p >= plan_tier (Some (required_plan t))).
Proof.
  split; [reflexivity|]. split; [reflexivity|].
  split; [vm_compute; intros H; apply H; reflexivity|].
  split; [reflexivity|]. split; [vm_compute; discriminate|].
  intros H. destruct (H "micro" (Some "toString")) as [_ H2].
  specialize (H2 ltac:(vm_compute; discriminate)). discriminate H2.
Qed.

(* ================================================================== *)
(** * Indexed iteration *)
(* ================================================================== *)

Section Iteration.
Context {A B : Type}.

Lemma forEach_from_cons (f : B -> A -> Z -> B) i a l s :
  forEach_from f i (a :: l) s = forEach_from f (i + 1) l (f s a i).
Proof. reflexivity. Qed.

Lemma map_from_cons (f : A -> Z -> B) i a l :
  map_from f i (a :: l) = f a i :: map_from f (i + 1) l.
Proof. reflexivity. Qed.

Lemma map_from_length (f : A -> Z -> B) i l : length (map_from f i l) = length l.
Proof. revert i. induction l as [|a l IH]; intros i; simpl; [|rewrite IH]; reflexivity. Qed.

Lemma map_from_lookup (f : A -> Z -> B) i l (k : nat) :
  map_from f i l !! k = (fun a => f a (i + Z.of_nat k)) <$> l !! k.
Proof.
  revert i k. induction l as [|a l IH]; intros i [|k]; simpl; try reflexivity.
  - rewrite Z.add_0_r. reflexivity.
  - rewrite IH. replace (i + 1 + Z.of_nat k) with (i + Z.of_nat (S k)) by lia.
    reflexivity.
Qed.

End Iteration.

Section Emission.
Context {A B : Type}.

(** A callback that only pushes onto an array: the loop appends, in order,
    what each element contributes. *)
Lemma forEach_from_emit (f : list B -> A -> Z -> list B) (g : A -> Z -> list B) :
  (forall acc a i, f acc a i = acc ++ g a i) ->
  forall l i acc, forEach_from f i l acc = acc ++ concat (map_from g i l).
Proof.
  intros Hf. induction l as [|a l IH]; intros i acc; simpl.
  - rewrite app_nil_r. reflexivity.
  - rewrite IH, Hf, <- app_assoc. reflexivity.
Qed.

Lemma elem_of_concat_map_from (g : A -> Z -> list B) i l (b : B) :
  b ∈ concat (map_from g i l)
  <-> exists (k : nat) a, l !! k = Some a /\ b ∈ g a (i + Z.of_nat k).
Proof.
  rewrite list_elem_of_In, in_concat. split.
  - intros (bs & Hbs & Hb).
    apply list_elem_of_In in Hbs. apply list_elem_of_lookup in Hbs as [k Hk].
    rewrite map_from_lookup in Hk.
    destruct (l !! k) as [a|] eqn:Ha; simplify_eq/=.
    exists k, a. split; [exact Ha|]. apply list_elem_of_In, Hb.
  - intros (k & a & Ha & Hb). exists (g a (i + Z.of_nat k)). split.
    + apply list_elem_of_In, list_elem_of_lookup. exists k.
      rewrite map_from_lookup, Ha. reflexivity.
    + apply list_elem_of_In, Hb.
Qed.

End Emission.

Lemma cell_at_true (M : Modules) (x y : Z) :
  cell_at M x y = true
  <-> exists (i j : nat) row,
        y = Z.of_nat i /\ x = Z.of_nat j /\ M !! i = Some row /\ row !! j = Some true.
Proof.
  unfold cell_at. split.
  - destruct (Z.ltb_spec x 0), (Z.ltb_spec y 0); simpl; try discriminate.
    destruct (M !! Z.to_nat y) as [row|] eqn:Hrow; [|discriminate].
    destruct (row !! Z.to_nat x) as [c|] eqn:Hc; [|discriminate].
    intros ->. exists (Z.to_nat y), (Z.to_nat x), row.
    repeat split; try lia; assumption.
  - intros (i & j & row & -> & -> & Hrow & Hc).
    destruct (Z.ltb_spec (Z.of_nat j) 0), (Z.ltb_spec (Z.of_nat i) 0);
      simpl; try lia.
    rewrite !Nat2Z.id, Hrow, Hc. reflexivity.
Qed.

(* ================================================================== *)
(** * Styled modules and finder classification *)
(* ================================================================== *)


Lemma generateStyledModules_elements (M : Modules) margin dot corner :
  generateStyledModules M margin dot corner
  = concat (map_from
      (fun row y =>
         concat (map_from
           (fun (cell : bool) x =>
              if cell
              then [styled_shape (Z.of_nat (length M)) margin dot corner x y]
              else [])
           0 row))
      0 M).
Proof.
  unfold generateStyledModules, forEach.
  rewrite (forEach_from_emit _
    (fun row y => concat (map_from
       (fun (cell : bool) x =>
          if cell
          then [styled_shape (Z.of_nat (length M)) margin dot corner x y]
          else []) 0 row))).
  - reflexivity.
  - intros acc row y. unfold forEach.
    apply forEach_from_emit. intros acc' cell x.
    unfold styled_cell, styled_shape.
    destruct cell; simpl; [|rewrite app_nil_r; reflexivity].
    destruct (isFinderModule _ x y); reflexivity.
Qed.

Lemma generateStyledModules_elem_of (M : Modules) margin dot corner e :
  e ∈ generateStyledModules M margin dot corner
  <-> exists x y,
        cell_at M x y = true
        /\ e = styled_shape (Z.of_nat (length M)) margin dot corner x y.
Proof.
  rewrite generateStyledModules_elements, elem_of_concat_map_from. split.
  - intros (i & row & Hrow & He).
    apply elem_of_concat_map_from in He as (j & c & Hc & He).
    destruct c; [|inversion He].
    apply list_elem_of_singleton in He.
    exists (Z.of_nat j), (Z.of_nat i). split; [|exact He].
    apply cell_at_true. exists i, j, row. auto.
  - intros (x & y & Hd & ->).
    apply cell_at_true in Hd as (i & j & row & -> & -> & Hrow & Hc).
    exists i, row. split; [exact Hrow|].
    apply elem_of_concat_map_from. exists j, true. split; [exact Hc|].
    simpl. apply list_elem_of_singleton. reflexivity.
Qed.



(* ================================================================== *)
(** * Layout *)
(* ================================================================== *)

(** What [QRCodeSVG] returns once the encoder has produced a matrix. *)
Lemma QRCodeSVG_document enc props cells0 :
  enc (p_value props) (get_property ERROR_LEVEL_MAP (effectiveLevel props)) = Some cells0 ->
  exists doc,
    QRCodeSVG enc props = Some doc
    /\ svg_height doc = default DEFAULT_SIZE (p_size props)
    /\ svg_width doc = default DEFAULT_SIZE (p_size props)
    /\ svg_viewBox doc
       = viewBox_of (Z.of_nat (length cells0) + effectiveMargin props * 2)
    /\ svg_bg_fill doc = default DEFAULT_BGCOLOR (p_bgColor props)
    /\ svg_bg_d doc
       = background_d (Z.of_nat (length cells0) + effectiveMargin props * 2)
    /\ (svg_image doc = None <-> p_imageSettings props = None)
    /\ svg_fg doc
       = match (if is_styled_type (default standard (p_qrType props))
                then p_qrStyle props else None) with
         | Some style =>
             FgStyled
               (match default standard (p_qrType props) with
                | holographic => "url(#qr-holo-gradient)"
                | _ => default DEFAULT_FGCOLOR (p_fgColor props)
                end)
               (generateStyledModules (rendered_cells props cells0)
                  (effectiveMargin props)
                  (default (match default standard (p_qrType props) with
                            | holographic => DotRounded
                            | _ => DotSquare
                            end) (dotStyle style))
                  (default CornerSquare (cornerStyle style)))
         | None =>
             FgPath (default DEFAULT_FGCOLOR (p_fgColor props))
               (generatePath (rendered_cells props cells0) (effectiveMargin props))
         end
    /\ svg_defs doc
       = match default standard (p_qrType props), p_qrStyle props with
         | holographic, Some style =>
             Some (generateGradientDef gradientId
                     (str_or (gradientDirection style) "horizontal")
                     (str_or (gradientStartColor style) "#8A2BE2")
                     (str_or (gradientEndColor style) "#00CED1"))
         | _, _ => None
         end.
Proof.
  intros Henc. unfold QRCodeSVG, rendered_cells. rewrite Henc. simpl.
  destruct (p_imageSettings props) as [img|]; simpl.
  - destruct (img_excavate img); simpl;
      destruct (default standard (p_qrType props)), (p_qrStyle props) as [style|];
      simpl; eexists; (split; [reflexivity|]); simpl;
      repeat split; try reflexivity; discriminate.
  - destruct (default standard (p_qrType props)), (p_qrStyle props) as [style|];
      simpl; eexists; (split; [reflexivity|]); simpl;
      repeat split; reflexivity.
Qed.

Lemma QRCodeSVG_throws enc props :
  enc (p_value props) (get_property ERROR_LEVEL_MAP (effectiveLevel props)) = None ->
  QRCodeSVG enc props = None.
Proof. intros H. unfold QRCodeSVG. rewrite H. reflexivity. Qed.

(** C9. A radial direction gives a radial gradient with exactly the two
    stops 0% and 100% carrying the start and end colours; horizontal,
    vertical and diagonal give a linear gradient from (0%,0%) to (100%,0%),
    (0%,100%) and (100%,100%) with the same two stops.  A holographic
    render whose style asks for radial with two colours carries that radial
    gradient in its definitions. *)
Theorem generateGradientDef_directions (id startColor endColor : string) :
  let stops := [ {| offset := "0%"; stopColor := startColor |};
                 {| offset := "100%"; stopColor := endColor |} ] in
  generateGradientDef id "radial" startColor endColor
    = RadialGradient id "50%" "50%" "50%" stops
  /\ generateGradientDef id "horizontal" startColor endColor
     = LinearGradient id "0%" "0%" "100%" "0%" stops
  /\ generateGradientDef id "vertical" startColor endColor
     = LinearGradient id "0%" "0%" "0%" "100%" stops
  /\ generateGradientDef id "diagonal" startColor endColor
     = LinearGradient id "0%" "0%" "100%" "100%" stops
  /\ (forall enc props style doc,
        p_qrType props = Some holographic ->
        p_qrStyle props = Some style ->
        gradientDirection style = Some "radial" ->
        str_or (gradientStartColor style) "#8A2BE2" = startColor ->
        str_or (gradientEndColor style) "#00CED1" = endColor ->
        QRCodeSVG enc props = Some doc ->
        svg_defs doc
        = Some (RadialGradient "qr-holo-gradient" "50%" "50%" "50%" stops)).
Proof.
  intros stops. do 4 (split; [reflexivity|]).
  intros enc props style doc Ht Hs Hdir Hc1 Hc2 Hdoc.
  destruct (QRCodeSVG_encodes _ _ _ Hdoc) as [cells0 Henc].
  destruct (QRCodeSVG_document _ _ _ Henc)
    as (doc' & Hdoc' & _ & _ & _ & _ & _ & _ & _ & Hdefs).
  rewrite Hdoc in Hdoc'. injection Hdoc' as <-.
  rewrite Hdefs, Ht, Hs. simpl. rewrite Hdir, Hc1, Hc2. reflexivity.
Qed.

Lemma generateGradientDef_directions_witness :
  let style := {| dotStyle := None; cornerStyle := None;
                  gradientDirection := Some "radial";
                  gradientStartColor := Some "#FF69B4";
                  gradientEndColor := Some "#4169E1" |} in
  let props :=
    {| p_value := "https://dub.sh/x"; p_size := None; p_level := None;
       p_bgColor := None; p_fgColor := None; p_margin := None;
       p_isOGContext := None; p_imageSettings := None;
       p_qrType := Some holographic; p_qrStyle := Some style |} in
  let enc : string -> option (Value Ecc) -> option Modules := fun _ _ => Some [[true]] in
  svg_defs <$> QRCodeSVG enc props
  = Some (Some (RadialGradient "qr-holo-gradient" "50%" "50%" "50%"
                  [ {| offset := "0%"; stopColor := "#FF69B4" |};
                    {| offset := "100%"; stopColor := "#4169E1" |} ])).
Proof.
  intros style props enc.
  destruct (generateGradientDef_directions "qr-holo-gradient" "#FF69B4" "#4169E1")
    as (_ & _ & _ & _ & Hdoc).
  destruct (QRCodeSVG enc props) as [doc|] eqn:Hq; [|discriminate].
  simpl. rewrite (Hdoc enc props style doc eq_refl eq_refl eq_refl eq_refl eq_refl Hq).
  reflexivity.
Defined.

Lemma with_qrStyle_same enc props :
  (p_qrType props <> Some custom /\ p_qrType props <> Some holographic)
  \/ p_qrStyle props = None ->
  QRCodeSVG enc props = QRCodeSVG enc (with_qrStyle props None).
Proof.
  intros H. unfold QRCodeSVG. simpl.
  change (effectiveLevel (with_qrStyle props None)) with (effectiveLevel props).
  change (effectiveMargin (with_qrStyle props None)) with (effectiveMargin props).
  destruct (enc _ _) as [cells0|]; [|reflexivity]. simpl.
  destruct H as [[Hc Hh]|H].
  - destruct (p_qrType props) as [[]|]; simpl; try reflexivity; congruence.
  - rewrite H. destruct (is_styled_type _); reflexivity.
Qed.

Lemma not_styled_mode props :
  (p_qrType props <> Some custom /\ p_qrType props <> Some holographic)
  \/ p_qrStyle props = None ->
  (if is_styled_type (default standard (p_qrType props))
   then p_qrStyle props else None) = None
  /\ match default standard (p_qrType props), p_qrStyle props with
     | holographic, Some style =>
         Some (generateGradientDef gradientId
                 (str_or (gradientDirection style) "horizontal")
                 (str_or (gradientStartColor style) "#8A2BE2")
                 (str_or (gradientEndColor style) "#00CED1"))
     | _, _ => None
     end = None.
Proof.
  intros [[Hc Hh]|H].
  - destruct (p_qrType props) as [[]|]; simpl; split; try reflexivity; congruence.
  - rewrite H. destruct (default standard (p_qrType props)); split; reflexivity.
Qed.

(** C8. When the type is neither custom nor holographic, or no style
    record is given, style options change nothing: the outcome is the one
    of the same request without them, the renderer fails only when the
    encoder does, and whenever the encoder yields a matrix the document is
    complete and its foreground is the single path of [generatePath]. *)
Theorem style_options_fall_back_to_path enc (props : QRPropsSVG) :
  (p_qrType props <> Some custom /\ p_qrType props <> Some holographic)
  \/ p_qrStyle props = None ->
  QRCodeSVG enc props = QRCodeSVG enc (with_qrStyle props None)
  /\ (QRCodeSVG enc props = None
      <-> enc (p_value props) (get_property ERROR_LEVEL_MAP (effectiveLevel props)) = None)
  /\ (forall cells0,
        enc (p_value props) (get_property ERROR_LEVEL_MAP (effectiveLevel props)) = Some cells0 ->
        exists doc,
          QRCodeSVG enc props = Some doc
          /\ svg_fg doc
             = FgPath (default DEFAULT_FGCOLOR (p_fgColor props))
                 (generatePath (rendered_cells props cells0) (effectiveMargin props))
          /\ svg_defs doc = None
          /\ svg_viewBox doc
             = viewBox_of (Z.of_nat (length cells0) + effectiveMargin props * 2)
          /\ svg_bg_d doc
             = background_d (Z.of_nat (length cells0) + effectiveMargin props * 2)).
Proof.
  intros H. split; [apply with_qrStyle_same, H|]. split.
  - split.
    + intros Hnone.
      destruct (enc _ _) as [cells0|] eqn:Henc; [|reflexivity].
      destruct (QRCodeSVG_document _ _ _ Henc) as (doc & Hdoc & _). congruence.
    + apply QRCodeSVG_throws.
  - intros cells0 Henc.
    destruct (QRCodeSVG_document _ _ _ Henc)
      as (doc & Hdoc & _ & _ & Hvb & _ & Hbg & _ & Hfg & Hdefs).
    destruct (not_styled_mode _ H) as [Hmode Hgrad].
    rewrite Hmode in Hfg. rewrite Hgrad in Hdefs.
    exists doc. auto.
Qed.

Lemma style_options_fall_back_to_path_witness :
  let enc : string -> option (Value Ecc) -> option Modules :=
    fun _ _ => Some [[true; false]; [true; true]] in
  let props :=
    {| p_value := "https://dub.sh/x"; p_size := None; p_level := None;
       p_bgColor := None; p_fgColor := None; p_margin := None;
       p_isOGContext := None; p_imageSettings := None;
       p_qrType := Some standard;
       p_qrStyle := Some {| dotStyle := Some DotCircle; cornerStyle := Some CornerRounded;
                            gradientDirection := Some "radial";
                            gradientStartColor := None; gradientEndColor := None |} |} in
  QRCodeSVG enc props = QRCodeSVG enc (with_qrStyle props None)
  /\ svg_fg <$> QRCodeSVG enc props = Some (FgPath "#000000" "M2 2h1v1H2zM2,3 h2v1H2z").
Proof.
  intros enc props.
  destruct (style_options_fall_back_to_path enc props) as (Hsame & _ & Hdoc).
  - left. split; discriminate.
  - split; [exact Hsame|].
    destruct (Hdoc [[true; false]; [true; true]] eq_refl) as (doc & Hq & Hfg & _).
    rewrite Hq. simpl. rewrite Hfg. vm_compute. reflexivity.
Defined.

(** C10. With a style record that omits [dotStyle], the dark modules
    outside the finder blocks are drawn with the rounded dot for type
    holographic and with the square dot for type custom. *)
Theorem dotStyle_default_depends_on_type enc (props : QRPropsSVG)
    (style : QRStyleSettings) (cells0 : Modules) :
  p_qrStyle props = Some style ->
  dotStyle style = None ->
  enc (p_value props) (get_property ERROR_LEVEL_MAP (effectiveLevel props)) = Some cells0 ->
  let cells := rendered_cells props cells0 in
  let m := effectiveMargin props in
  let corner := default CornerSquare (cornerStyle style) in
  let N := Z.of_nat (length cells) in
  (p_qrType props = Some holographic ->
   exists doc fill,
     QRCodeSVG enc props = Some doc
     /\ svg_fg doc = FgStyled fill (generateStyledModules cells m DotRounded corner)
     /\ forall x y,
          cell_at cells x y = true -> isFinderModule N x y = false ->
          renderDotModule (x + m) (y + m) DotRounded (module_key x y)
          ∈ generateStyledModules cells m DotRounded corner)
  /\ (p_qrType props = Some custom ->
      exists doc fill,
        QRCodeSVG enc props = Some doc
        /\ svg_fg doc = FgStyled fill (generateStyledModules cells m DotSquare corner)
        /\ forall x y,
             cell_at cells x y = true -> isFinderModule N x y = false ->
             renderDotModule (x + m) (y + m) DotSquare (module_key x y)
             ∈ generateStyledModules cells m DotSquare corner).
Proof.
  intros Hstyle Hdot Henc cells m corner N.
  destruct (QRCodeSVG_document _ _ _ Henc)
    as (doc & Hdoc & _ & _ & _ & _ & _ & _ & Hfg & _).
  split; intros Ht; rewrite Ht, Hstyle in Hfg; simpl in Hfg;
    rewrite Hdot in Hfg; simpl in Hfg;
    exists doc; eexists; (split; [exact Hdoc|]); (split; [exact Hfg|]);
    intros x y Hdark Hfinder;
    apply generateStyledModules_elem_of; exists x, y;
    (split; [exact Hdark|]);
    unfold styled_shape; fold N; rewrite Hfinder; reflexivity.
Qed.

Lemma dotStyle_default_depends_on_type_witness :
  let cells0 : Modules :=
    map (fun y => map (fun x => (x =? 0) && (y =? 0) || (x =? 10) && (y =? 10))
                      (seqZ 0 21))
        (seqZ 0 21) in
  let enc : string -> option (Value Ecc) -> option Modules :=
    fun _ _ => Some cells0 in
  let style := {| dotStyle := None; cornerStyle := None; gradientDirection := None;
                  gradientStartColor := None; gradientEndColor := None |} in
  let props t :=
    {| p_value := "https://dub.sh/x"; p_size := None; p_level := None;
       p_bgColor := None; p_fgColor := None; p_margin := Some 0;
       p_isOGContext := None; p_imageSettings := None;
       p_qrType := Some t; p_qrStyle := Some style |} in
  isFinderModule 21 0 0 = true
  /\ isFinderModule 21 10 10 = false
  /\ (exists doc fill,
        QRCodeSVG enc (props holographic) = Some doc
        /\ svg_fg doc
           = FgStyled fill
               [ renderCornerModule 0 0 CornerSquare "0-0";
                 renderDotModule 10 10 DotRounded "10-10" ]
        /\ renderDotModule 10 10 DotRounded "10-10"
           ∈ generateStyledModules cells0 0 DotRounded CornerSquare
        /\ renderDotModule 10 10 DotRounded "10-10"
           = ERect "10-10" (10 + (5 # 100)) (10 + (5 # 100))
               (1 - (5 # 100) * 2) (1 - (5 # 100) * 2)
               (Some (3 # 10)) (Some (3 # 10)))
  /\ (exists doc fill,
        QRCodeSVG enc (props custom) = Some doc
        /\ svg_fg doc
           = FgStyled fill
               [ renderCornerModule 0 0 CornerSquare "0-0";
                 renderDotModule 10 10 DotSquare "10-10" ]
        /\ renderDotModule 10 10 DotSquare "10-10"
           ∈ generateStyledModules cells0 0 DotSquare CornerSquare
        /\ renderDotModule 10 10 DotSquare "10-10"
           = ERect "10-10" 10 10 1 1 None None).
Proof.
  intros cells0 enc style props.
  split; [reflexivity|]. split; [reflexivity|]. split.
  - destruct (dotStyle_default_depends_on_type enc (props holographic) style
                cells0 eq_refl eq_refl eq_refl)
      as [H _].
    destruct (H eq_refl) as (doc & fill & Hdoc & Hfg & Hdots).
    exists doc, fill. split; [exact Hdoc|].
    split; [rewrite Hfg; reflexivity|].
    split; [exact (Hdots 10 10 eq_refl eq_refl) | reflexivity].
  - destruct (dotStyle_default_depends_on_type enc (props custom) style
                cells0 eq_refl eq_refl eq_refl)
      as [_ H].
    destruct (H eq_refl) as (doc & fill & Hdoc & Hfg & Hdots).
    exists doc, fill. split; [exact Hdoc|].
    split; [rewrite Hfg; reflexivity|].
    split; [exact (Hdots 10 10 eq_refl eq_refl) | reflexivity].
Defined.

(* ================================================================== *)
(** * Type micro: margin and logo *)
(* ================================================================== *)

Lemma getQRCodeLogo_hidden gsl gws gd isDub logo_const url logo wp :
  getQRCodeLogo gsl gws gd isDub logo_const url logo true wp
  = match gsl (before_query url) with
    | None => Some logo_const
    | Some _ =>
        if negb (truthy wp) || bool_decide (wp = Some "free")
        then Some logo_const else None
    end.
Proof.
  unfold getQRCodeLogo. destruct (gsl _); [|reflexivity].
  destruct (_ || _); reflexivity.
Qed.

(** C6, as the code has it. For type micro the margin used is
    min(requested margin, 1), so 1 when 2 is requested. The renderer itself
    composites a logo exactly when image settings are supplied; type micro
    changes nothing there. The image route forces the hide-logo flag for
    micro, which leaves the request without image settings only when the
    URL is a known short link whose workspace plan is set and is not free
    (or the default logo is empty); otherwise the default logo is passed
    on and composited. *)
Theorem micro_margin_clamped_logo_by_settings enc (props : QRPropsSVG) :
  p_qrType props = Some micro ->
  effectiveMargin props = Z.min (default DEFAULT_MARGIN (p_margin props)) 1
  /\ (p_margin props = Some 2 -> effectiveMargin props = 1)
  /\ (forall cells0,
        enc (p_value props) (get_property ERROR_LEVEL_MAP (effectiveLevel props)) = Some cells0 ->
        exists doc,
          QRCodeSVG enc props = Some doc
          /\ svg_viewBox doc
             = viewBox_of (Z.of_nat (length cells0)
                           + Z.min (default DEFAULT_MARGIN (p_margin props)) 1 * 2)
          /\ (svg_image doc = None <-> p_imageSettings props = None))
  /\ (forall gsl gws gd isDub logo_const (q : QRQuery) wp,
        q_qrType q = micro ->
        let rp := route_props gsl gws gd isDub logo_const q wp in
        p_qrType rp = Some micro
        /\ p_margin rp = Some (Z.min (q_margin q) 1)
        /\ effectiveMargin rp = Z.min (q_margin q) 1
        /\ (p_imageSettings rp = None
            <-> logo_const = EmptyString
                \/ (is_Some (gsl (before_query (q_url q)))
                    /\ truthy wp = true /\ wp <> Some "free"))).
Proof.
  intros Hmicro.
  assert (Hm : effectiveMargin props
               = Z.min (default DEFAULT_MARGIN (p_margin props)) 1).
  { unfold effectiveMargin. rewrite Hmicro. reflexivity. }
  split; [exact Hm|]. split; [|split].
  - intros H2. rewrite Hm, H2. reflexivity.
  - intros cells0 Henc.
    destruct (QRCodeSVG_document _ _ _ Henc)
      as (doc & Hdoc & _ & _ & Hvb & _ & _ & Himg & _).
    exists doc. rewrite <- Hm. auto.
  - intros gsl gws gd isDub logo_const q wp Hq rp. subst rp.
    unfold route_props, effectiveMargin. rewrite Hq. simpl.
    split; [reflexivity|]. split; [reflexivity|].
    split; [lia|].
    rewrite getQRCodeLogo_hidden.
    destruct (gsl (before_query (q_url q))) as [sl|].
    + destruct wp as [[|c s]|]; simpl.
      * destruct logo_const; split; try discriminate; try tauto.
        intros [?|(_ & ? & _)]; discriminate.
      * case_bool_decide as Hfree; simpl.
        -- destruct logo_const; split; try discriminate; try tauto.
           intros [?|(_ & _ & ?)]; [discriminate | congruence].
        -- split; [|reflexivity]. intros _. right.
           split; [eexists; reflexivity|]. split; [reflexivity | exact Hfree].
      * destruct logo_const; split; try discriminate; try tauto.
        intros [?|(_ & ? & _)]; discriminate.
    + destruct logo_const; split; try discriminate; try tauto.
      intros [?|([? ?] & _)]; discriminate.
Qed.

Lemma micro_margin_clamped_logo_by_settings_witness :
  let enc : string -> option (Value Ecc) -> option Modules :=
    fun _ _ => Some [[true; false]; [false; true]] in
  let props :=
    {| p_value := "https://dub.sh/x"; p_size := None; p_level := None;
       p_bgColor := None; p_fgColor := None; p_margin := Some 2;
       p_isOGContext := None; p_imageSettings := None;
       p_qrType := Some micro; p_qrStyle := None |} in
  effectiveMargin props = 1
  /\ exists doc, QRCodeSVG enc props = Some doc
                 /\ svg_viewBox doc = "0 0 4 4" /\ svg_image doc = None.
Proof.
  intros enc props.
  destruct (micro_margin_clamped_logo_by_settings enc props eq_refl)
    as (_ & H2 & Hdoc & _).
  split; [exact (H2 eq_refl)|].
  destruct (Hdoc [[true; false]; [false; true]] eq_refl) as (doc & Hq & Hvb & Himg).
  exists doc. split; [exact Hq|]. split; [exact Hvb|].
  apply Himg. reflexivity.
Defined.

(** C6, as stated, fails: a micro request that supplies image settings
    gets the margin 1 and a logo in the document, both from the renderer
    alone and through the image route for a URL that is not a short link. *)
Lemma micro_logo_is_composited :
  let enc : string -> option (Value Ecc) -> option Modules :=
    fun _ _ => Some (repeat (repeat true 21%nat) 21%nat) in
  let props :=
    {| p_value := "https://dub.sh/x"; p_size := Some 210%float; p_level := None;
       p_bgColor := None; p_fgColor := None; p_margin := Some 2;
       p_isOGContext := None;
       p_imageSettings :=
         Some {| img_src := "logo.png"; img_height := 50; img_width := 50;
                 img_excavate := true; img_x := None; img_y := None |};
       p_qrType := Some micro; p_qrStyle := None |} in
  let q :=
    {| q_logo := None; q_url := "https://example.com/page"; q_size := 600;
       q_level := "L"; q_fgColor := "#000000"; q_bgColor := "#FFFFFF";
       q_margin := 2; q_hideLogo := false; q_qrType := micro;
       q_dotStyle := DotSquare; q_cornerStyle := CornerSquare;
       q_gradientDirection := "horizontal";
       q_gradientStartColor := "#8A2BE2"; q_gradientEndColor := "#00CED1" |} in
  effectiveMargin props = 1
  /\ (exists doc h w x y,
        QRCodeSVG enc props = Some doc
        /\ svg_image doc = Some (ImgSvg "logo.png" h w x y))
  /\ (exists doc l t w h,
        GET enc (fun _ => None) (fun _ => None) (fun _ => None) (fun _ => false)
          "https://assets.dub.co/logo.png" q
        = ImageResponse doc 600 600
        /\ svg_image doc = Some (ImgAbsolute "https://assets.dub.co/logo.png" l t w h)).
Proof.
  intros enc props q. split; [reflexivity|]. split.
  - do 5 eexists. split; reflexivity.
  - do 5 eexists. split; reflexivity.
Qed.

(* ================================================================== *)
(** * Excavation *)
(* ================================================================== *)

Lemma excavate_row_length e row y : length (excavate_row e row y) = length row.
Proof.
  unfold excavate_row. destruct (_ || _); [reflexivity|].
  apply map_from_length.
Qed.

Lemma excavateModules_lookup (M : Modules) e (i : nat) :
  excavateModules M e !! i = (fun row => excavate_row e row (Z.of_nat i)) <$> M !! i.
Proof. unfold excavateModules, map_i. rewrite map_from_lookup. reflexivity. Qed.

Lemma excavate_row_lookup e (row : list bool) y (j : nat) :
  excavate_row e row y !! j
  = (fun c => if decide (in_excavation e (Z.of_nat j) y) then false else c) <$> row !! j.
Proof.
  unfold excavate_row, in_excavation.
  destruct (Z.ltb_spec y (ex_y e)); simpl.
  { destruct (row !! j); simpl; [|reflexivity].
    rewrite decide_False by lia. reflexivity. }
  destruct (Z.geb_spec y (ex_y e + ex_h e)); simpl.
  { destruct (row !! j); simpl; [|reflexivity].
    rewrite decide_False by lia. reflexivity. }
  unfold map_i. rewrite map_from_lookup.
  destruct (row !! j); simpl; [|reflexivity]. f_equal.
  unfold excavate_cell.
  destruct (Z.ltb_spec (0 + Z.of_nat j) (ex_x e)); simpl.
  { rewrite decide_False by lia. reflexivity. }
  destruct (Z.geb_spec (0 + Z.of_nat j) (ex_x e + ex_w e)); simpl.
  { rewrite decide_False by lia. reflexivity. }
  rewrite decide_True by lia. reflexivity.
Qed.

Lemma cell_at_excavateModules (M : Modules) e cx cy :
  cell_at (excavateModules M e) cx cy
  = if decide (in_excavation e cx cy) then false else cell_at M cx cy.
Proof.
  unfold cell_at.
  destruct (Z.ltb_spec cx 0); simpl; [destruct (decide _); reflexivity|].
  destruct (Z.ltb_spec cy 0); simpl; [destruct (decide _); reflexivity|].
  rewrite excavateModules_lookup.
  destruct (M !! Z.to_nat cy) as [row|]; simpl; [|destruct (decide _); reflexivity].
  rewrite excavate_row_lookup, !Z2Nat.id by lia.
  destruct (row !! Z.to_nat cx); simpl; destruct (decide _); reflexivity.
Qed.

Lemma excavate_row_ref_step e h out r i row :
  Store.rows h !! r = Some row ->
  Store.excavate_row_ref e (h, out) r i
  = if (i <? ex_y e) || (i >=? ex_y e + ex_h e)
    then (h, out ++ [r])
    else ({| Store.rows := Store.rows h ++ [map_i (excavate_cell e) row];
             Store.mats := Store.mats h |},
          out ++ [length (Store.rows h)]).
Proof.
  intros Hr. unfold Store.excavate_row_ref, Store.alloc_row. rewrite Hr.
  destruct (_ || _); reflexivity.
Qed.

Lemma excavate_rows_by_reference e refs :
  forall i h out rowsM,
    Forall2 (fun r row => Store.rows h !! r = Some row) refs rowsM ->
    exists new out',
      forEach_from (Store.excavate_row_ref e) i refs (h, out)
      = ({| Store.rows := Store.rows h ++ new; Store.mats := Store.mats h |},
         out ++ out')
      /\ Forall2 (fun r row => (Store.rows h ++ new) !! r = Some row)
           out' (map_from (excavate_row e) i rowsM).
Proof.
  induction refs as [|r refs IH]; intros i h out rowsM HM.
  - apply Forall2_nil_inv_l in HM as ->. exists [], []. simpl.
    rewrite !app_nil_r. destruct h. split; [reflexivity | constructor].
  - apply Forall2_cons_inv_l in HM as (row & rowsM' & Hr & HM & ->).
    rewrite forEach_from_cons, map_from_cons, (excavate_row_ref_step _ _ _ _ _ _ Hr).
    change (excavate_row e row i)
      with (if (i <? ex_y e) || (i >=? ex_y e + ex_h e)
            then row else map_i (excavate_cell e) row).
    destruct (_ || _).
    + destruct (IH (i + 1) h (out ++ [r]) rowsM' HM) as (new & out' & -> & Hout).
      exists new, (r :: out'). rewrite <- app_assoc. split; [reflexivity|].
      constructor; [|exact Hout].
      apply lookup_app_l_Some, Hr.
    + set (row' := map_i (excavate_cell e) row).
      set (h' := {| Store.rows := Store.rows h ++ [row']; Store.mats := Store.mats h |}).
      assert (HM' : Forall2 (fun r row => Store.rows h' !! r = Some row) refs rowsM').
      { eapply Forall2_impl; [exact HM|]. intros r0 row0 H0. simpl.
        apply lookup_app_l_Some, H0. }
      destruct (IH (i + 1) h' (out ++ [length (Store.rows h)]) rowsM' HM')
        as (new & out' & -> & Hout).
      exists (row' :: new), (length (Store.rows h) :: out'). simpl.
      rewrite <- !app_assoc. simpl. split; [reflexivity|].
      subst h'. simpl in Hout. rewrite <- app_assoc in Hout. simpl in Hout.
      constructor; [|exact Hout].
      rewrite lookup_app_r by lia. rewrite Nat.sub_diag. reflexivity.
Qed.

Lemma store_excavateModules_spec h m M e :
  Store.read h m = Some M ->
  exists refs new out,
    Store.excavateModules h m e
    = ({| Store.rows := Store.rows h ++ new;
          Store.mats := Store.mats h ++ [refs] ++ [out] |},
       S (length (Store.mats h)))
    /\ Forall2 (fun r row => (Store.rows h ++ new) !! r = Some row)
         out (excavateModules M e).
Proof.
  unfold Store.read. intros Hread.
  destruct (Store.mats h !! m) as [refs|] eqn:Hrefs; [|discriminate].
  simpl in Hread. apply mapM_Some in Hread.
  destruct (excavate_rows_by_reference e refs 0
              {| Store.rows := Store.rows h; Store.mats := Store.mats h ++ [refs] |}
              [] M Hread) as (new & out & Hloop & Hout).
  exists refs, new, out.
  unfold Store.excavateModules, Store.alloc_mat. rewrite Hrefs. simpl.
  rewrite lookup_app_r by lia. rewrite Nat.sub_diag. simpl.
  unfold forEach. rewrite Hloop. simpl.
  rewrite length_app, Nat.add_comm, <- app_assoc. simpl.
  split; [reflexivity | exact Hout].
Qed.

(** C4. Run on a store of arrays, [excavateModules] returns a reference
    to a matrix with the dimensions of the input in which every cell of the
    rectangle is light and every other cell is as in the input; every array
    that existed before the call, the input matrix among them, still holds
    what it held. *)
Theorem excavateModules_clears_rectangle_only
    (h : Store.heap) (m : nat) (M : Modules) (e : Excavation) :
  Store.read h m = Some M ->
  let h' := fst (Store.excavateModules h m e) in
  let m' := snd (Store.excavateModules h m e) in
  exists M',
    Store.read h' m' = Some M'
    /\ M' = excavateModules M e
    /\ length M' = length M
    /\ (forall (i : nat) row row',
          M !! i = Some row -> M' !! i = Some row' -> length row' = length row)
    /\ (forall cx cy, in_excavation e cx cy -> cell_at M' cx cy = false)
    /\ (forall cx cy, ~ in_excavation e cx cy -> cell_at M' cx cy = cell_at M cx cy)
    /\ (forall (r : nat), (r < length (Store.rows h))%nat ->
                          Store.rows h' !! r = Store.rows h !! r)
    /\ (forall (k : nat), (k < length (Store.mats h))%nat ->
                          Store.mats h' !! k = Store.mats h !! k)
    /\ Store.read h' m = Some M.
Proof.
  intros Hread h' m'.
  destruct (store_excavateModules_spec h m M e Hread)
    as (refs & new & out & Hrun & Hout).
  subst h' m'. rewrite Hrun. simpl.
  assert (Hold : forall r : nat, (r < length (Store.rows h))%nat ->
                   (Store.rows h ++ new) !! r = Store.rows h !! r).
  { intros r Hr. apply lookup_app_l, Hr. }
  exists (excavateModules M e).
  split; [|split; [reflexivity|split; [|split; [|split; [|split; [|split; [|split]]]]]]].
  - unfold Store.read. simpl.
    rewrite (lookup_app_r (Store.mats h)) by lia.
    replace (S (length (Store.mats h)) - length (Store.mats h))%nat with 1%nat by lia.
    simpl. apply mapM_Some, Hout.
  - unfold excavateModules, map_i. apply map_from_length.
  - intros i row row' Hrow Hrow'.
    rewrite excavateModules_lookup, Hrow in Hrow'. simpl in Hrow'.
    injection Hrow' as <-. apply excavate_row_length.
  - intros cx cy Hin. rewrite cell_at_excavateModules, decide_True by exact Hin.
    reflexivity.
  - intros cx cy Hout'. rewrite cell_at_excavateModules, decide_False by exact Hout'.
    reflexivity.
  - exact Hold.
  - intros k Hk. apply lookup_app_l, Hk.
  - unfold Store.read in *. simpl.
    destruct (Store.mats h !! m) as [refs'|] eqn:Hrefs; [|discriminate].
    rewrite (lookup_app_l_Some _ _ _ _ Hrefs). simpl in *.
    apply mapM_Some. apply mapM_Some in Hread.
    eapply Forall2_impl; [exact Hread|]. intros r row Hr. simpl in *.
    apply lookup_app_l_Some, Hr.
Qed.

Lemma excavateModules_clears_rectangle_only_witness :
  let h := {| Store.rows := [[true; true; true]; [true; false; true]; [true; true; true]];
              Store.mats := [[0; 1; 2]%nat] |} in
  let e := {| ex_x := 1; ex_y := 1; ex_w := 2; ex_h := 5 |} in
  let h' := fst (Store.excavateModules h 0 e) in
  let m' := snd (Store.excavateModules h 0 e) in
  Store.read h' m' = Some [[true; true; true]; [true; false; false]; [true; false; false]]
  /\ Store.read h' 0%nat
     = Some [[true; true; true]; [true; false; true]; [true; true; true]].
Proof.
  intros h e h' m'.
  destruct (excavateModules_clears_rectangle_only h 0
              [[true; true; true]; [true; false; true]; [true; true; true]] e eq_refl)
    as (M' & Hread & -> & _ & _ & _ & _ & _ & _ & Hin).
  split; [exact Hread | exact Hin].
Defined.

(** ** Doubles: conversions, floors and ceilings *)

Lemma digits2_pos_iter (m : positive) (n : positive) :
  Z.pos (digits2_pos (Pos.iter xO m n)) = Z.pos (digits2_pos m) + Z.pos n.
Proof.
  revert m. induction n using Pos.peano_ind; intros m.
  - simpl. lia.
  - rewrite Pos.iter_succ. simpl. rewrite Pos2Z.inj_succ, IHn. lia.
Qed.

Lemma iter_xO_value (m n : positive) :
  Z.pos (Pos.iter xO m n) = Z.pos m * 2 ^ Z.pos n.
Proof.
  revert m. induction n using Pos.peano_ind; intros m.
  - simpl. lia.
  - rewrite Pos.iter_succ. rewrite Pos2Z.inj_xO, IHn, Pos2Z.inj_succ, Z.pow_succ_r by lia. lia.
Qed.

Ltac binary64 :=
  cbv [prec emax fexp SpecFloat.emin] in *;
  change (3 - 1024 - 53) with (-1074) in *;
  change (1024 - 53) with 971 in *;
  change IntDef.Z.max with Z.max in *.

Lemma binary_round_small (s : bool) (m : positive) :
  Z.pos (digits2_pos m) <= 53 ->
  exists m' e',
    binary_round prec emax s m 0 = S754_finite s m' e'
    /\ valid_binary (S754_finite s m' e') = true
    /\ e' <= 0 /\ Z.pos m' = Z.pos m * 2 ^ (- e').
Proof.
  intros Hd.
  pose proof (Pos2Z.is_pos (digits2_pos m)) as Hpos.
  unfold binary_round, shl_align. binary64.
  rewrite Z.add_0_r, Z.sub_0_r.
  rewrite Z.max_l by lia.
  destruct (Z.pos (digits2_pos m) - 53) as [|p|p] eqn:Hp; try lia.
  - (* exactly 53 digits *)
    exists m, 0.
    unfold binary_round_aux, shr_fexp, Zdigits2, shr_record_of_loc. binary64.
    rewrite Z.add_0_r, Z.sub_0_r, Z.max_l by lia. rewrite Hp.
    simpl shr. cbn [shr_m loc_of_shr_record round_nearest_even].
    rewrite Z.add_0_r, Z.sub_0_r, Z.max_l by lia. rewrite Hp. simpl shr.
    cbn [shr_m]. split; [reflexivity|].
    split.
    + unfold SpecFloat.valid_binary, bounded, canonical_mantissa. binary64.
      rewrite Z.add_0_r, Z.max_l by lia. rewrite Hp. reflexivity.
    + split; [lia|]. simpl. lia.
  - exists (Pos.iter xO m p), (Z.neg p).
    pose proof (digits2_pos_iter m p) as Hdig.
    unfold binary_round_aux, shr_fexp, Zdigits2, shr_record_of_loc. binary64.
    assert (Hsh : Z.max (Z.pos (digits2_pos (Pos.iter xO m p)) + Z.neg p - 53) (-1074) - Z.neg p = 0).
    { rewrite Hdig. lia. }
    rewrite Hsh. simpl shr. cbn [shr_m loc_of_shr_record round_nearest_even].
    rewrite Hsh. simpl shr. cbn [shr_m].
    assert (Hle : (Z.neg p <=? 971) = true) by (apply Z.leb_le; lia).
    rewrite Hle.
    split; [reflexivity|]. split.
    + unfold SpecFloat.valid_binary, bounded, canonical_mantissa. binary64.
      rewrite Hle, Bool.andb_true_r. apply Z.eqb_eq. lia.
    + split; [lia|]. rewrite iter_xO_value. reflexivity.
Qed.

(** The exact value of a finite double. *)

Lemma digits2_pos_log2 (m : positive) :
  Z.pos (digits2_pos m) = Z.log2 (Z.pos m) + 1.
Proof.
  induction m as [m IH|m IH|]; [| |reflexivity];
    cbn [digits2_pos]; rewrite Pos2Z.inj_succ, IH.
  - change (Z.pos m~1) with (2 * Z.pos m + 1).
    rewrite (Z.log2_succ_double (Z.pos m)) by lia. lia.
  - change (Z.pos m~0) with (2 * Z.pos m).
    rewrite (Z.log2_double (Z.pos m)) by lia. lia.
Qed.

Lemma valid_binary_digits (s : bool) (m : positive) (e : Z) :
  valid_binary (S754_finite s m e) = true -> Z.pos m < 2 ^ 53.
Proof.
  unfold SpecFloat.valid_binary, bounded, canonical_mantissa. binary64.
  intros H. apply andb_prop in H as [H _]. apply Z.eqb_eq in H.
  apply Z.log2_lt_pow2; [lia|].
  pose proof (digits2_pos_log2 m). lia.
Qed.

Lemma Prim2SF_number_of_Z (z : Z) :
  Z.abs z < 2 ^ 53 -> z <> 0 ->
  exists m e,
    Prim2SF (number_of_Z z) = S754_finite (z <? 0) m e
    /\ e <= 0 /\ Z.pos m = Z.abs z * 2 ^ (- e).
Proof.
  intros Hz Hnz. unfold number_of_Z.
  assert (Hd : forall p, Z.pos p < 2 ^ 53 -> Z.pos (digits2_pos p) <= 53).
  { intros p Hp. rewrite digits2_pos_log2.
    apply Z.log2_lt_pow2 in Hp; lia. }
  destruct z as [|p|p]; [congruence| |]; cbn [binary_normalize Z.ltb Z.compare].
  - destruct (binary_round_small false p (Hd p Hz)) as (m & e & Hr & Hv & He & Hm).
    rewrite Hr, (Prim2SF_SF2Prim _ Hv). exists m, e. auto.
  - destruct (binary_round_small true p (Hd p Hz)) as (m & e & Hr & Hv & He & Hm).
    rewrite Hr, (Prim2SF_SF2Prim _ Hv). exists m, e. auto.
Qed.

Lemma cond_Zopp_mul (s : bool) (a b : Z) : cond_Zopp s (a * b) = cond_Zopp s a * b.
Proof. destruct s; simpl; lia. Qed.

Lemma pow2_pos (k : Z) : k < 0 -> Z.pos (2 ^ Z.to_pos (- k)) = 2 ^ (- k).
Proof. intros Hk. rewrite Pos2Z.inj_pow, Z2Pos.id by lia. reflexivity. Qed.

Lemma integer_value_number_of_Z (z : Z) :
  Z.abs z < 2 ^ 53 -> integer_value (number_of_Z z) = Some z.
Proof.
  intros Hz. destruct (Z.eq_dec z 0) as [->|Hnz]; [reflexivity|].
  destruct (Prim2SF_number_of_Z z Hz Hnz) as (m & e & Hp & He & Hm).
  unfold integer_value, number_value. rewrite Hp.
  assert (Hsign : cond_Zopp (z <? 0) (Z.abs z) = z).
  { destruct (Z.ltb_spec z 0); simpl; lia. }
  destruct (Z.leb_spec 0 e) as [He0|He0].
  - assert (e = 0) by lia. subst e.
    change (2 ^ 0) with 1. change (2 ^ (- 0)) with 1 in Hm.
    rewrite Z.mul_1_r in *. rewrite Hm, Hsign.
    rewrite Qfloor_Z, Qeq_bool_refl. reflexivity.
  - assert (Hq : Qfloor (cond_Zopp (z <? 0) (Z.pos m) # 2 ^ Z.to_pos (- e)) = z).
    { unfold Qfloor. rewrite pow2_pos, Hm, cond_Zopp_mul, Hsign by lia.
      apply Z.div_mul. lia. }
    rewrite Hq.
    assert (Heq : (cond_Zopp (z <? 0) (Z.pos m) # 2 ^ Z.to_pos (- e) == inject_Z z)%Q).
    { unfold Qeq. cbn [Qnum Qden inject_Z].
      rewrite pow2_pos, Hm, cond_Zopp_mul, Hsign by lia. lia. }
    apply Qeq_bool_iff in Heq. rewrite Heq. reflexivity.
Qed.

Lemma integer_value_whole (f : float) (z : Z) :
  number_value f = Some (inject_Z z) -> integer_value f = Some z.
Proof.
  unfold integer_value. intros ->. rewrite Qfloor_Z, Qeq_bool_refl. reflexivity.
Qed.

(** [Math.floor] of a finite double is the floor of its value. *)
Lemma Math_floor_value (x : float) (X : Q) :
  number_value x = Some X -> integer_value (Math_floor x) = Some (Qfloor X).
Proof.
  unfold Math_floor. intros HX. pose proof (Prim2SF_valid x) as Hv.
  unfold number_value in HX.
  destruct (Prim2SF x) as [s|s| |s m e] eqn:Hp; try discriminate.
  - injection HX as <-. unfold integer_value, number_value. rewrite Hp. reflexivity.
  - injection HX as <-. apply valid_binary_digits in Hv.
    destruct (Z.leb_spec 0 e) as [He|He].
    + rewrite (proj2 (Z.ltb_ge e 0)) by lia. rewrite Qfloor_Z.
      apply integer_value_whole. unfold number_value. rewrite Hp.
      rewrite (proj2 (Z.leb_le 0 e)) by lia. reflexivity.
    + rewrite (proj2 (Z.ltb_lt e 0)) by lia.
      unfold Qfloor. rewrite pow2_pos by lia.
      apply integer_value_number_of_Z.
      assert (H2 : 0 < 2 ^ (- e)) by (apply Z.pow_pos_nonneg; lia).
      destruct s; simpl cond_Zopp.
      * assert (- Z.pos m <= Z.neg m / 2 ^ (- e) <= 0); [|lia].
        split.
        -- apply Z.div_le_lower_bound; [lia|]. nia.
        -- apply Z.div_le_upper_bound; lia.
      * assert (0 <= Z.pos m / 2 ^ (- e) <= Z.pos m); [|lia].
        split; [apply Z.div_pos; lia|].
        apply Z.div_le_upper_bound; [lia|]. nia.
Qed.

Lemma cond_Zopp_negb (s : bool) (a : Z) : cond_Zopp (negb s) a = - cond_Zopp s a.
Proof. destruct s; simpl; lia. Qed.

Lemma number_value_opp (x : float) (X : Q) :
  number_value x = Some X -> number_value (- x) = Some (- X)%Q.
Proof.
  unfold number_value. rewrite opp_spec.
  destruct (Prim2SF x) as [s|s| |s m e]; try discriminate; intros [= <-]; simpl SFopp; cbv iota.
  - reflexivity.
  - rewrite cond_Zopp_negb. destruct (0 <=? e).
    + rewrite Z.mul_opp_l. reflexivity.
    + reflexivity.
Qed.

Lemma integer_value_opp (x : float) (z : Z) :
  integer_value x = Some z -> integer_value (- x) = Some (- z).
Proof.
  unfold integer_value. destruct (number_value x) as [q|] eqn:Hq; [|discriminate].
  rewrite (number_value_opp _ _ Hq).
  destruct (Qeq_bool q (inject_Z (Qfloor q))) eqn:E; [|discriminate].
  intros [= <-]. apply Qeq_bool_iff in E.
  assert (Hf : Qfloor (- q) = - Qfloor q).
  { rewrite E at 1. rewrite <- inject_Z_opp, Qfloor_Z. reflexivity. }
  rewrite Hf.
  assert (E' : (- q == inject_Z (- Qfloor q))%Q) by (rewrite inject_Z_opp, <- E; reflexivity).
  apply Qeq_bool_iff in E'. rewrite E'. reflexivity.
Qed.

(** [Math.ceil] of a finite double is the ceiling of its value. *)
Lemma Math_ceil_value (x : float) (X : Q) :
  number_value x = Some X -> integer_value (Math_ceil x) = Some (Qceiling X).
Proof.
  intros HX. unfold Math_ceil, Qceiling.
  apply integer_value_opp, Math_floor_value, number_value_opp, HX.
Qed.

Lemma floor_bounds (x : Q) : (inject_Z (Qfloor x) <= x < inject_Z (Qfloor x) + 1)%Q.
Proof.
  pose proof (Qfloor_le x) as H1. pose proof (Qlt_floor x) as H2.
  rewrite inject_Z_plus in H2. change (inject_Z 1) with 1%Q in H2. auto.
Qed.

Lemma ceiling_bounds (x : Q) : (x <= inject_Z (Qceiling x) < x + 1)%Q.
Proof.
  pose proof (Qle_ceiling x) as H1. pose proof (Qceiling_lt x) as H2.
  unfold Z.sub in H2. rewrite inject_Z_plus in H2.
  change (inject_Z (Z.opp 1)) with (-1)%Q in H2.
  generalize dependent (inject_Z (Qceiling x)). intros c H1 H2. split; lra.
Qed.

(** ** Rounding of a shifted mantissa *)

Lemma shr_1_inv (mz j : Z) (mrs : shr_record) :
  0 <= j -> shr_inv mz j mrs -> shr_inv mz (j + 1) (shr_1 mrs).
Proof.
  intros Hj (rem & Hm & Hrem & Hpos & Hr & Hs). unfold shr_inv.
  rewrite Z.pow_add_r, Z.pow_1_r by lia.
  assert (HP : 0 < 2 ^ j) by (apply Z.pow_pos_nonneg; lia).
  destruct mrs as [m r s]. cbn [shr_m shr_r shr_s] in *.
  set (P := 2 ^ j) in *. clearbody P.
  assert (Hs' : orb r s = false <-> rem = 0).
  { split.
    - intros H. apply Bool.orb_false_elim in H as [-> Hs0]. apply Hs in Hs0.
      destruct (Z.le_gt_cases P (2 * rem)) as [Hle|Hgt];
        [apply Hr in Hle; discriminate | lia].
    - intros ->.
      assert (r = false) as ->.
      { destruct r; [|reflexivity].
        assert (P <= 2 * 0) by (apply Hr; reflexivity). lia. }
      assert (s = false) as -> by (apply Hs; lia). reflexivity. }
  unfold shr_1. destruct m as [|[p|p|]|p]; try lia; cbn [shr_m shr_r shr_s].
  - exists rem.
    split; [lia|]. split; [lia|]. split; [lia|].
    split; [split; [discriminate | lia]|].
    rewrite Hs'. lia.
  - exists (rem + P). rewrite Pos2Z.inj_xI in Hm.
    split; [lia|]. split; [lia|]. split; [lia|].
    split; [split; [lia | reflexivity]|].
    rewrite Hs'. lia.
  - exists rem. rewrite Pos2Z.inj_xO in Hm.
    split; [lia|]. split; [lia|]. split; [lia|].
    split; [split; [discriminate | lia]|].
    rewrite Hs'. lia.
  - exists (rem + P).
    split; [lia|]. split; [lia|]. split; [lia|].
    split; [split; [lia | reflexivity]|].
    rewrite Hs'. lia.
Qed.

Lemma iter_shr_1_inv (mz : Z) (p : positive) :
  forall j mrs, 0 <= j -> shr_inv mz j mrs ->
                shr_inv mz (j + Z.pos p) (SpecFloat.iter_pos shr_1 p mrs).
Proof.
  induction p as [p IH|p IH|]; intros j mrs Hj H; cbn [iter_pos].
  - replace (j + Z.pos p~1) with (j + 1 + Z.pos p + Z.pos p) by lia.
    apply IH; [lia|]. apply IH; [lia|]. apply shr_1_inv; assumption.
  - replace (j + Z.pos p~0) with (j + Z.pos p + Z.pos p) by lia.
    apply IH; [lia|]. apply IH; assumption.
  - apply shr_1_inv; assumption.
Qed.

(** Rounding to nearest, ties to even, of a mantissa shifted right by
    [n > 0] places is within half a unit of it. *)
Lemma round_shifted (mz : positive) (n : positive) :
  let mrs := SpecFloat.iter_pos shr_1 n {| shr_m := Z.pos mz; shr_r := false; shr_s := false |} in
  let k := round_nearest_even (shr_m mrs) (loc_of_shr_record mrs) in
  0 <= k /\ 2 * Z.abs (k * 2 ^ Z.pos n - Z.pos mz) <= 2 ^ Z.pos n
  /\ k <= Z.pos mz / 2 ^ Z.pos n + 1.
Proof.
  intros mrs k.
  assert (H0 : shr_inv (Z.pos mz) 0
                 {| shr_m := Z.pos mz; shr_r := false; shr_s := false |}).
  { exists 0. cbn [shr_m shr_r shr_s]. simpl (2 ^ 0).
    repeat split; try lia; try discriminate. }
  pose proof (iter_shr_1_inv (Z.pos mz) n 0 _ ltac:(lia) H0) as Hinv.
  rewrite Z.add_0_l in Hinv. fold mrs in Hinv.
  destruct Hinv as (rem & Hm & Hrem & Hpos & Hr & Hs).
  assert (HP : 0 < 2 ^ Z.pos n) by (apply Z.pow_pos_nonneg; lia).
  assert (Hdiv : Z.pos mz / 2 ^ Z.pos n = shr_m mrs).
  { symmetry. apply (Z.div_unique _ _ _ rem); lia. }
  rewrite Hdiv. subst k.
  destruct mrs as [m r s]. cbn [shr_m shr_r shr_s] in *.
  set (P := 2 ^ Z.pos n) in *. clearbody P.
  destruct r, s; cbn [loc_of_shr_record round_nearest_even].
  - (* above the half *)
    assert (P <= 2 * rem) by (apply Hr; reflexivity). lia.
  - (* the half exactly *)
    assert (P <= 2 * rem) by (apply Hr; reflexivity).
    assert (rem = 0 \/ 2 * rem = P) by (apply Hs; reflexivity).
    destruct (Z.even m); lia.
  - (* below the half *)
    assert (~ P <= 2 * rem) by (intros H; apply Hr in H; discriminate). lia.
  - assert (~ P <= 2 * rem) by (intros H; apply Hr in H; discriminate).
    assert (rem = 0 \/ 2 * rem = P) by (apply Hs; reflexivity). lia.
Qed.

Lemma digits2_pos_bounds (m : positive) :
  2 ^ (Z.pos (digits2_pos m) - 1) <= Z.pos m < 2 ^ Z.pos (digits2_pos m).
Proof.
  rewrite digits2_pos_log2.
  replace (Z.log2 (Z.pos m) + 1 - 1) with (Z.log2 (Z.pos m)) by lia.
  pose proof (Z.log2_spec (Z.pos m) ltac:(lia)) as H.
  rewrite <- Z.add_1_r in H. exact H.
Qed.

Lemma digits2_pos_unique (m : positive) (d : Z) :
  2 ^ (d - 1) <= Z.pos m < 2 ^ d -> Z.pos (digits2_pos m) = d.
Proof.
  intros H. rewrite digits2_pos_log2.
  assert (0 < d).
  { destruct H as [_ H]. destruct d as [|d|d]; [simpl in H; lia | lia |].
    rewrite Z.pow_neg_r in H; lia. }
  assert (Z.log2 (Z.pos m) = d - 1); [|lia].
  apply Z.log2_unique; [lia|]. replace (Z.succ (d - 1)) with d by lia. exact H.
Qed.

(** What rounding the exact mantissa [mz] at exponent [ez] gives. *)
Lemma binary_round_aux_error (s : bool) (mz : positive) (ez : Z) :
  -1074 <= ez ->
  match binary_round_aux prec emax s (Z.pos mz) ez loc_Exact with
  | S754_finite s' m' e' =>
      s' = s /\ ez <= e'
      /\ 2 ^ 53 * Z.abs (Z.pos m' * 2 ^ (e' - ez) - Z.pos mz) <= Z.pos mz
  | S754_infinity s' => s' = s
  | _ => False
  end.
Proof.
  intros Hez.
  pose proof (digits2_pos_bounds mz) as Hd.
  unfold binary_round_aux, shr_fexp, Zdigits2, shr_record_of_loc. binary64.
  set (d := Z.pos (digits2_pos mz)) in *.
  assert (Hdpos : 0 < d) by (subst d; lia).
  destruct (Z.max (d + ez - 53) (-1074) - ez) as [|p|p] eqn:Hn.
  - (* no shift: the mantissa fits *)
    cbn [shr shr_m loc_of_shr_record round_nearest_even]. fold d. rewrite Hn.
    cbn [shr shr_m].
    destruct (ez <=? 971); [|reflexivity].
    split; [reflexivity|]. split; [lia|].
    rewrite Z.sub_diag, Z.mul_1_r, Z.sub_diag. simpl Z.abs. lia.
  - (* a shift by p = d - 53 places *)
    assert (Hp : Z.pos p = d - 53) by lia.
    cbn [shr].
    pose proof (round_shifted mz p) as Hround. cbv zeta in Hround.
    set (mrs := SpecFloat.iter_pos shr_1 p {| shr_m := Z.pos mz; shr_r := false; shr_s := false |}) in *.
    set (k := round_nearest_even (shr_m mrs) (loc_of_shr_record mrs)) in *.
    destruct Hround as (Hk0 & Herr & Hkle).
    assert (HP : 0 < 2 ^ Z.pos p) by (apply Z.pow_pos_nonneg; lia).
    assert (Hmz : 2 ^ (Z.pos p + 52) <= Z.pos mz < 2 ^ (Z.pos p + 53)).
    { replace (Z.pos p + 52) with (d - 1) by lia.
      replace (Z.pos p + 53) with d by lia. exact Hd. }
    rewrite !Z.pow_add_r in Hmz by lia.
    assert (Hk : 2 ^ 52 <= k <= 2 ^ 53).
    { split.
      - assert (2 ^ 52 * 2 ^ Z.pos p < (k + 1) * 2 ^ Z.pos p); [|nia].
        assert (2 ^ Z.pos p <= 2 ^ Z.pos p * 2 ^ 52) by nia. lia.
      - assert (Z.pos mz / 2 ^ Z.pos p < 2 ^ 53); [|lia].
        apply Z.div_lt_upper_bound; lia. }
    destruct k as [|kp|kp] eqn:Hkp; try (simpl in Hk; lia).
    cbn [shr_m].
    destruct (Z.eq_dec (Z.pos kp) (2 ^ 53)) as [Hmax|Hlt].
    + (* the mantissa rounded up to 2^53: one more shift *)
      assert (kp = 9007199254740992%positive) as -> by (simpl in Hmax; lia).
      change (Z.pos (digits2_pos 9007199254740992)) with 54.
      assert (Hn2 : Z.max (54 + (ez + Z.pos p) - 53) (-1074) - (ez + Z.pos p) = 1) by lia.
      rewrite Hn2. cbn [shr iter_pos shr_1 shr_m].
      destruct (ez + Z.pos p + 1 <=? 971); [|reflexivity].
      split; [reflexivity|]. split; [lia|].
      replace (ez + Z.pos p + 1 - ez) with (Z.pos p + 1) by lia.
      rewrite Z.pow_add_r, Z.pow_1_r by lia.
      change (Z.pos 4503599627370496) with (2 ^ 52).
      change (Z.pos 9007199254740992) with (2 ^ 53) in Herr.
      replace (2 ^ 52 * (2 ^ Z.pos p * 2)) with (2 ^ 53 * 2 ^ Z.pos p)
        by (change (2 ^ 53) with (2 ^ 52 * 2); ring).
      lia.
    + assert (Hdk : Z.pos (digits2_pos kp) = 53).
      { apply digits2_pos_unique. change (2 ^ (53 - 1)) with (2 ^ 52). lia. }
      rewrite Hdk.
      assert (Hn2 : Z.max (53 + (ez + Z.pos p) - 53) (-1074) - (ez + Z.pos p) = 0) by lia.
      rewrite Hn2. cbn [shr shr_m].
      destruct (ez + Z.pos p <=? 971); [|reflexivity].
      split; [reflexivity|]. split; [lia|].
      replace (ez + Z.pos p - ez) with (Z.pos p) by lia. lia.
  - (* no shift either: fewer than 53 digits above the least exponent *)
    cbn [shr shr_m loc_of_shr_record round_nearest_even]. fold d. rewrite Hn.
    cbn [shr shr_m].
    destruct (ez <=? 971); [|reflexivity].
    split; [reflexivity|]. split; [lia|].
    rewrite Z.sub_diag, Z.mul_1_r, Z.sub_diag. simpl Z.abs. lia.
Qed.

Lemma two_power_pos (e : Z) : (0 < 2 ^ e)%Q.
Proof. apply Qpower_0_lt. reflexivity. Qed.

Lemma two_power_add (a b : Z) : (2 ^ (a + b) == 2 ^ a * 2 ^ b)%Q.
Proof. apply Qpower_plus. discriminate. Qed.

Lemma two_power_Z (n : Z) : 0 <= n -> (inject_Z (2 ^ n) == 2 ^ n)%Q.
Proof. intros H. rewrite Zpower_Qpower by exact H. reflexivity. Qed.

(** [number_value] is the value of the specification float. *)
Lemma number_value_SF (f : float) :
  match number_value f, SF_value (Prim2SF f) with
  | Some q, Some q' => (q == q')%Q
  | None, None => True
  | _, _ => False
  end.
Proof.
  unfold number_value, SF_value.
  destruct (Prim2SF f) as [s|s| |s m e]; try exact I; [reflexivity|].
  unfold exact_value. destruct (Z.leb_spec 0 e) as [He|He].
  - rewrite inject_Z_mult, two_power_Z by exact He. reflexivity.
  - rewrite Qmake_Qdiv.
    replace e with (- - e)%Z at 2 by lia.
    rewrite Qpower_opp, <- two_power_Z, pow2_pos by lia. reflexivity.
Qed.

Lemma scaled_value (s : bool) (m : Z) (e d : Z) :
  0 <= d ->
  (inject_Z (cond_Zopp s (m * 2 ^ d)) * 2 ^ e
   == inject_Z (cond_Zopp s m) * 2 ^ (e + d))%Q.
Proof.
  intros Hd. rewrite cond_Zopp_mul, inject_Z_mult, two_power_Z by exact Hd.
  rewrite two_power_add. ring.
Qed.

(** Rounding a mantissa at an exponent no less than the least one is off
    by at most a 2^53-th of the value. *)
Lemma binary_round_aux_value (s : bool) (mz : positive) (ez : Z)
    (s' : bool) (m' : positive) (e' : Z) :
  -1074 <= ez ->
  binary_round_aux prec emax s (Z.pos mz) ez loc_Exact = S754_finite s' m' e' ->
  (Qabs (exact_value s' m' e' - exact_value s mz ez)
   <= Qabs (exact_value s mz ez) * (1 # 2 ^ 53))%Q.
Proof.
  intros Hez Hr. pose proof (binary_round_aux_error s mz ez Hez) as H.
  rewrite Hr in H. destruct H as (-> & Hle & Hb).
  unfold exact_value.
  replace e' with (ez + (e' - ez)) at 1 by lia.
  rewrite <- scaled_value by lia.
  set (D := Z.pos m' * 2 ^ (e' - ez)) in *.
  assert (Hdiff : (inject_Z (cond_Zopp s D) * 2 ^ ez
                   - inject_Z (cond_Zopp s (Z.pos mz)) * 2 ^ ez
                   == inject_Z (cond_Zopp s (D - Z.pos mz)) * 2 ^ ez)%Q).
  { destruct s; cbn [cond_Zopp]; rewrite ?inject_Z_opp, ?Z.opp_sub_distr;
      unfold Z.sub; rewrite ?inject_Z_plus, ?inject_Z_opp; ring. }
  rewrite Hdiff, !Qabs_Qmult.
  pose proof (two_power_pos ez) as Hpos.
  rewrite (Qabs_pos (2 ^ ez)) by (apply Qlt_le_weak; exact Hpos).
  assert (Habs : forall z, (Qabs (inject_Z (cond_Zopp s z)) == inject_Z (Z.abs z))%Q).
  { intros z. destruct s; cbn [cond_Zopp]; unfold Qabs, inject_Z; cbn [Qnum Qden];
      rewrite ?Z.abs_opp; reflexivity. }
  rewrite !Habs.
  assert (Hq : (inject_Z (Z.abs (D - Z.pos mz)) <= inject_Z (Z.abs (Z.pos mz)) * (1 # 2 ^ 53))%Q).
  { unfold Qle. cbn [Qnum Qden inject_Z Qmult]. simpl Z.abs at 2.
    rewrite Z.mul_1_r.
    change (Z.pos (1 * 2 ^ 53)) with (2 ^ 53). lia. }
  setoid_replace (inject_Z (Z.abs (Z.pos mz)) * 2 ^ ez * (1 # 2 ^ 53))%Q
    with (inject_Z (Z.abs (Z.pos mz)) * (1 # 2 ^ 53) * 2 ^ ez)%Q
    using relation Qeq by ring.
  apply Qmult_le_compat_r; [exact Hq | apply Qlt_le_weak; exact Hpos].
Qed.

Lemma valid_binary_exponent (s : bool) (m : positive) (e : Z) :
  valid_binary (S754_finite s m e) = true -> -1074 <= e.
Proof.
  unfold SpecFloat.valid_binary, bounded, canonical_mantissa. binary64.
  intros H. apply andb_prop in H as [H _]. apply Z.eqb_eq in H. lia.
Qed.

Lemma shl_align_value (m : positive) (e e' : Z) :
  let '(m', e'') := shl_align m e e' in
  e'' = Z.min e e' /\ Z.pos m' = Z.pos m * 2 ^ (e - e'').
Proof.
  unfold shl_align. destruct (e' - e) as [|p|p] eqn:H.
  - split; [lia|]. rewrite Z.sub_diag. simpl. lia.
  - split; [lia|]. rewrite Z.sub_diag. simpl. lia.
  - split; [lia|]. rewrite iter_xO_value. f_equal. f_equal. lia.
Qed.

Lemma exact_within (R V : Q) :
  (R == V)%Q -> (Qabs (R - V) <= Qabs V * (1 # 2 ^ 53))%Q.
Proof.
  intros H. assert (H0 : (R - V == 0)%Q) by (rewrite H; ring).
  rewrite H0. apply Qmult_le_0_compat; [apply Qabs_nonneg | discriminate].
Qed.

Lemma rounds_to_ext (V V' : Q) (r : spec_float) :
  (V == V')%Q -> rounds_to V r -> rounds_to V' r.
Proof.
  intros H. destruct r as [s|s| |s m e]; cbn [rounds_to]; try tauto.
  - rewrite H. tauto.
  - destruct s; rewrite H; tauto.
  - rewrite H. tauto.
Qed.

Lemma exact_value_sign (s : bool) (m : positive) (e : Z) :
  if s then (exact_value s m e < 0)%Q else (0 < exact_value s m e)%Q.
Proof.
  unfold exact_value. pose proof (two_power_pos e) as Hp.
  destruct s; cbn [cond_Zopp].
  - setoid_replace 0%Q with (0 * 2 ^ e)%Q using relation Qeq by ring.
    apply Qmult_lt_compat_r; [exact Hp | reflexivity].
  - setoid_replace 0%Q with (0 * 2 ^ e)%Q using relation Qeq at 1 by ring.
    apply Qmult_lt_compat_r; [exact Hp | reflexivity].
Qed.

(** [binary_round] rounds the value of its mantissa and exponent. *)
Lemma binary_round_value (s : bool) (m : positive) (e : Z) :
  -1074 <= e -> rounds_to (exact_value s m e) (binary_round prec emax s m e).
Proof.
  intros He. unfold binary_round.
  pose proof (shl_align_value m e (fexp prec emax (Z.pos (digits2_pos m) + e))) as Hal.
  destruct (shl_align m e _) as [mz ez]. destruct Hal as [Hez Hmz].
  assert (Hez' : -1074 <= ez).
  { rewrite Hez. unfold fexp. binary64. lia. }
  assert (Hval : (exact_value s mz ez == exact_value s m e)%Q).
  { unfold exact_value. rewrite Hmz, scaled_value by lia.
    replace (ez + (e - ez)) with e by lia. reflexivity. }
  pose proof (binary_round_aux_error s mz ez Hez') as Hcase.
  destruct (binary_round_aux prec emax s (Z.pos mz) ez loc_Exact)
    as [s'|s'| |s' m' e'] eqn:Hr; try contradiction; cbn [rounds_to].
  - subst s'. apply exact_value_sign.
  - rewrite <- Hval. apply (binary_round_aux_value s mz ez); assumption.
Qed.

Lemma binary_normalize_value (M e : Z) (V : Q) :
  -1074 <= e -> (V == inject_Z M * 2 ^ e)%Q ->
  rounds_to V (binary_normalize prec emax M e false).
Proof.
  intros He HV. apply (rounds_to_ext (inject_Z M * 2 ^ e)); [symmetry; exact HV|].
  destruct M as [|m|m]; cbn [binary_normalize].
  - cbn [rounds_to]. ring.
  - exact (binary_round_value false m e He).
  - exact (binary_round_value true m e He).
Qed.

Lemma aligned_value (s : bool) (m : positive) (e ez : Z) :
  ez <= e ->
  (exact_value s m e
   == inject_Z (cond_Zopp s (Z.pos (fst (shl_align m e ez)))) * 2 ^ ez)%Q.
Proof.
  intros H. pose proof (shl_align_value m e ez) as Hal.
  destruct (shl_align m e ez) as [m' e'']. destruct Hal as [He Hm]. cbn [fst].
  assert (He' : e'' = ez) by lia. rewrite He' in Hm. clear He He' e''.
  unfold exact_value. rewrite Hm, scaled_value by lia.
  replace (ez + (e - ez)) with e by lia. reflexivity.
Qed.

(** The sum and the difference of two finite doubles are the roundings
    of the exact sum and difference. *)
Lemma SFadd_value (x y : spec_float) (X Y : Q) :
  valid_binary x = true -> valid_binary y = true ->
  SF_value x = Some X -> SF_value y = Some Y ->
  rounds_to (X + Y) (SF64add x y).
Proof.
  intros Hvx Hvy HX HY.
  destruct x as [sx|sx| |sx mx ex], y as [sy|sy| |sy my ey]; try discriminate;
    cbn [SF_value] in HX, HY; injection HX as <-; injection HY as <-;
    unfold SF64add; cbn [SFadd].
  - destruct sx, sy; cbn [rounds_to]; reflexivity.
  - cbn [rounds_to]. apply exact_within. ring.
  - cbn [rounds_to]. apply exact_within. ring.
  - pose proof (valid_binary_exponent _ _ _ Hvx) as Hex.
    pose proof (valid_binary_exponent _ _ _ Hvy) as Hey.
    set (ez := Z.min ex ey).
    apply binary_normalize_value; [subst ez; lia|].
    rewrite inject_Z_plus, Qmult_plus_distr_l.
    rewrite <- (aligned_value sx mx ex ez), <- (aligned_value sy my ey ez)
      by (subst ez; lia).
    reflexivity.
Qed.

Lemma SFsub_value (x y : spec_float) (X Y : Q) :
  valid_binary x = true -> valid_binary y = true ->
  SF_value x = Some X -> SF_value y = Some Y ->
  rounds_to (X - Y) (SF64sub x y).
Proof.
  intros Hvx Hvy HX HY.
  destruct x as [sx|sx| |sx mx ex], y as [sy|sy| |sy my ey]; try discriminate;
    cbn [SF_value] in HX, HY; injection HX as <-; injection HY as <-;
    unfold SF64sub; cbn [SFsub].
  - destruct sx, sy; cbn [rounds_to]; reflexivity.
  - cbn [rounds_to]. apply exact_within. unfold exact_value.
    rewrite cond_Zopp_negb, inject_Z_opp. ring.
  - cbn [rounds_to]. apply exact_within. ring.
  - pose proof (valid_binary_exponent _ _ _ Hvx) as Hex.
    pose proof (valid_binary_exponent _ _ _ Hvy) as Hey.
    set (ez := Z.min ex ey).
    apply binary_normalize_value; [subst ez; lia|].
    rewrite (aligned_value sx mx ex ez), (aligned_value sy my ey ez)
      by (subst ez; lia).
    unfold Z.sub. rewrite inject_Z_plus, inject_Z_opp. ring.
Qed.

(** ** Roundings that lose nothing *)

Lemma shifted_exactly (mz : positive) (p : positive) (k : Z) :
  Z.pos mz = k * 2 ^ Z.pos p ->
  SpecFloat.iter_pos shr_1 p {| shr_m := Z.pos mz; shr_r := false; shr_s := false |}
  = {| shr_m := k; shr_r := false; shr_s := false |}.
Proof.
  intros Hk.
  assert (H0 : shr_inv (Z.pos mz) 0
                 {| shr_m := Z.pos mz; shr_r := false; shr_s := false |}).
  { exists 0. cbn [shr_m shr_r shr_s]. simpl (2 ^ 0).
    repeat split; try lia; try discriminate. }
  pose proof (iter_shr_1_inv (Z.pos mz) p 0 _ ltac:(lia) H0) as Hinv.
  rewrite Z.add_0_l in Hinv.
  destruct Hinv as (rem & Hm & Hrem & Hpos & Hr & Hs).
  assert (HP : 0 < 2 ^ Z.pos p) by (apply Z.pow_pos_nonneg; lia).
  destruct (SpecFloat.iter_pos shr_1 p _) as [m r s]. cbn [shr_m shr_r shr_s] in *.
  set (P := 2 ^ Z.pos p) in *. clearbody P.
  assert (Hrem0 : rem = 0 /\ m = k).
  { assert (Hq : rem = (k - m) * P) by lia.
    assert (Hz : k - m = 0) by nia. split; [rewrite Hq, Hz; reflexivity | lia]. }
  destruct Hrem0 as [-> ->].
  assert (r = false) as ->.
  { destruct r; [|reflexivity].
    assert (P <= 2 * 0) by (apply Hr; reflexivity). lia. }
  assert (s = false) as -> by (apply Hs; lia).
  reflexivity.
Qed.

(** A mantissa whose digits beyond the 53rd are zero is rounded to
    itself. *)
Lemma binary_round_aux_exact (s : bool) (mz : positive) (ez : Z) :
  -1074 <= ez ->
  (forall p, Z.pos p = Z.pos (digits2_pos mz) - 53 ->
             exists k, Z.pos mz = k * 2 ^ Z.pos p) ->
  match binary_round_aux prec emax s (Z.pos mz) ez loc_Exact with
  | S754_finite s' m' e' =>
      s' = s /\ e' = Z.max ez (ez + Z.pos (digits2_pos mz) - 53)
      /\ Z.pos m' * 2 ^ (e' - ez) = Z.pos mz
  | S754_infinity s' => 971 < Z.max ez (ez + Z.pos (digits2_pos mz) - 53)
  | _ => False
  end.
Proof.
  intros Hez Hdiv.
  pose proof (digits2_pos_bounds mz) as Hd.
  unfold binary_round_aux, shr_fexp, Zdigits2, shr_record_of_loc. binary64.
  set (d := Z.pos (digits2_pos mz)) in *.
  assert (Hdpos : 0 < d) by (subst d; lia).
  destruct (Z.max (d + ez - 53) (-1074) - ez) as [|p|p] eqn:Hn.
  - cbn [shr shr_m loc_of_shr_record round_nearest_even]. fold d. rewrite Hn.
    cbn [shr shr_m].
    destruct (Z.leb_spec ez 971); [|lia].
    split; [reflexivity|]. split; [lia|].
    replace (ez - ez) with 0 by lia. simpl (2 ^ 0). lia.
  - assert (Hp : Z.pos p = d - 53) by lia.
    destruct (Hdiv p Hp) as (k & Hk).
    cbn [shr]. rewrite (shifted_exactly mz p k Hk).
    cbn [shr_m shr_r shr_s loc_of_shr_record round_nearest_even].
    assert (HP : 0 < 2 ^ Z.pos p) by (apply Z.pow_pos_nonneg; lia).
    assert (Hmz : 2 ^ (Z.pos p + 52) <= Z.pos mz < 2 ^ (Z.pos p + 53)).
    { replace (Z.pos p + 52) with (d - 1) by lia.
      replace (Z.pos p + 53) with d by lia. exact Hd. }
    rewrite !Z.pow_add_r in Hmz by lia.
    assert (Hkb : 2 ^ 52 <= k < 2 ^ 53) by nia.
    destruct k as [|kp|kp]; try (simpl in Hkb; lia).
    assert (Hdk : Z.pos (digits2_pos kp) = 53).
    { apply digits2_pos_unique. change (2 ^ (53 - 1)) with (2 ^ 52). lia. }
    rewrite Hdk.
    assert (Hn2 : Z.max (53 + (ez + Z.pos p) - 53) (-1074) - (ez + Z.pos p) = 0) by lia.
    rewrite Hn2. cbn [shr shr_m].
    destruct (Z.leb_spec (ez + Z.pos p) 971); [|lia].
    split; [reflexivity|]. split; [lia|].
    replace (ez + Z.pos p - ez) with (Z.pos p) by lia. lia.
  - cbn [shr shr_m loc_of_shr_record round_nearest_even]. fold d. rewrite Hn.
    cbn [shr shr_m].
    destruct (Z.leb_spec ez 971); [|lia].
    split; [reflexivity|]. split; [lia|].
    replace (ez - ez) with 0 by lia. simpl (2 ^ 0). lia.
Qed.

Lemma two_power_opp (e : Z) : (2 ^ e * 2 ^ (- e) == 1)%Q.
Proof.
  rewrite <- two_power_add, Z.add_opp_diag_r. reflexivity.
Qed.

(** A whole number written with a mantissa and an exponent. *)
Lemma whole_scaled (M e S : Z) :
  (inject_Z M * 2 ^ e == inject_Z S)%Q ->
  (0 <= e -> M * 2 ^ e = S) /\ (e < 0 -> M = S * 2 ^ (- e)).
Proof.
  intros H. split; intros He.
  - apply inject_Z_injective. rewrite inject_Z_mult, two_power_Z by exact He.
    exact H.
  - apply inject_Z_injective. rewrite inject_Z_mult, two_power_Z by lia.
    rewrite <- H, <- Qmult_assoc, two_power_opp. ring.
Qed.

Lemma digits2_pos_shift (m mz : positive) (j : Z) :
  0 <= j -> Z.pos mz = Z.pos m * 2 ^ j ->
  Z.pos (digits2_pos mz) = Z.pos (digits2_pos m) + j.
Proof.
  intros Hj Hmz. apply digits2_pos_unique.
  pose proof (digits2_pos_bounds m) as [Hlo Hhi].
  assert (HP : 0 < 2 ^ j) by (apply Z.pow_pos_nonneg; lia).
  replace (Z.pos (digits2_pos m) + j - 1) with (Z.pos (digits2_pos m) - 1 + j) by lia.
  rewrite !Z.pow_add_r by lia. rewrite Hmz. nia.
Qed.

(** Rounding a whole number below 2^53 gives that number. *)
Lemma binary_round_whole (s : bool) (m : positive) (e S : Z) :
  -1074 <= e -> 0 < S < 2 ^ 53 ->
  (inject_Z (Z.pos m) * 2 ^ e == inject_Z S)%Q ->
  exists m' e',
    binary_round prec emax s m e = S754_finite s m' e'
    /\ (exact_value s m' e' == inject_Z (cond_Zopp s S))%Q.
Proof.
  intros He HS Hval.
  destruct (whole_scaled _ _ _ Hval) as [Hge Hlt].
  pose proof (digits2_pos_bounds m) as [Hlo Hhi].
  set (dm := Z.pos (digits2_pos m)) in *.
  assert (HD : dm + e <= 53).
  { destruct (Z.le_gt_cases 0 e) as [He0|He0].
    - specialize (Hge He0).
      assert (H : 2 ^ (dm - 1 + e) < 2 ^ 53).
      { rewrite Z.pow_add_r by lia.
        assert (0 < 2 ^ e) by (apply Z.pow_pos_nonneg; lia). nia. }
      apply Z.pow_lt_mono_r_iff in H; lia.
    - specialize (Hlt He0).
      assert (H : 2 ^ (dm - 1) < 2 ^ (53 + - e)).
      { rewrite Z.pow_add_r by lia.
        assert (0 < 2 ^ (- e)) by (apply Z.pow_pos_nonneg; lia). nia. }
      apply Z.pow_lt_mono_r_iff in H; lia. }
  unfold binary_round.
  pose proof (shl_align_value m e (fexp prec emax (Z.pos (digits2_pos m) + e))) as Hal.
  fold dm in Hal |- *.
  destruct (shl_align m e _) as [mz ez]. destruct Hal as [Hez Hmz].
  unfold fexp in Hez. binary64.
  assert (Hez' : -1074 <= ez) by lia.
  assert (Hdz : Z.pos (digits2_pos mz) = dm + (e - ez)).
  { apply digits2_pos_shift; [lia | exact Hmz]. }
  assert (Hsame : (exact_value s mz ez == inject_Z (cond_Zopp s S))%Q).
  { unfold exact_value. rewrite Hmz, scaled_value by lia.
    replace (ez + (e - ez)) with e by lia.
    destruct s; cbn [cond_Zopp]; rewrite ?inject_Z_opp; rewrite <- Hval; ring. }
  assert (Hdiv : forall p, Z.pos p = Z.pos (digits2_pos mz) - 53 ->
                            exists k, Z.pos mz = k * 2 ^ Z.pos p).
  { intros p Hp. assert (Heq : ez = e) by lia.
    rewrite Hmz, Heq, Z.sub_diag, Z.mul_1_r, Hlt by lia.
    exists (S * 2 ^ (- e - Z.pos p)).
    rewrite <- Z.mul_assoc, <- Z.pow_add_r by lia. f_equal. f_equal. lia. }
  pose proof (binary_round_aux_exact s mz ez Hez' Hdiv) as Hex.
  rewrite Hdz in Hex. binary64.
  destruct (binary_round_aux 53 1024 s (Z.pos mz) ez loc_Exact)
    as [s'|s'| |s' m' e']; try contradiction; [lia|].
  destruct Hex as (-> & He' & Hm').
  exists m', e'. split; [reflexivity|].
  rewrite <- Hsame. unfold exact_value. rewrite <- Hm', scaled_value by lia.
  replace (ez + (e' - ez)) with e' by lia. reflexivity.
Qed.

(** The sum of two whole doubles is exact when it is below 2^53. *)
Lemma SFadd_whole (x y : spec_float) (X Y : Q) (A B : Z) :
  valid_binary x = true -> valid_binary y = true ->
  SF_value x = Some X -> SF_value y = Some Y ->
  (X == inject_Z A)%Q -> (Y == inject_Z B)%Q ->
  Z.abs (A + B) < 2 ^ 53 ->
  exists R, SF_value (SF64add x y) = Some R /\ (R == inject_Z (A + B))%Q.
Proof.
  intros Hvx Hvy HX HY HA HB Hsmall.
  assert (Hsum : (X + Y == inject_Z (A + B))%Q)
    by (rewrite inject_Z_plus, HA, HB; reflexivity).
  destruct x as [sx|sx| |sx mx ex], y as [sy|sy| |sy my ey]; try discriminate;
    cbn [SF_value] in HX, HY; injection HX as HX; injection HY as HY;
    unfold SF64add; cbn [SFadd].
  - exists 0%Q. split; [destruct sx, sy; reflexivity|].
    rewrite <- Hsum, <- HX, <- HY. reflexivity.
  - eexists. split; [reflexivity|]. rewrite <- Hsum, <- HX, <- HY, HY. ring.
  - eexists. split; [reflexivity|]. rewrite <- Hsum, <- HX, <- HY, HX. ring.
  - pose proof (valid_binary_exponent _ _ _ Hvx) as Hex.
    pose proof (valid_binary_exponent _ _ _ Hvy) as Hey.
    set (ez := Z.min ex ey).
    set (M := cond_Zopp sx (Z.pos (fst (shl_align mx ex ez)))
              + cond_Zopp sy (Z.pos (fst (shl_align my ey ez)))).
    assert (HM : (inject_Z M * 2 ^ ez == inject_Z (A + B))%Q).
    { rewrite <- Hsum, <- HX, <- HY. subst M.
      rewrite inject_Z_plus, Qmult_plus_distr_l.
      rewrite <- (aligned_value sx mx ex ez), <- (aligned_value sy my ey ez)
        by (subst ez; lia).
      reflexivity. }
    assert (Hez : -1074 <= ez) by (subst ez; lia).
    clearbody M ez.
    destruct M as [|m|m]; cbn [binary_normalize].
    + exists 0%Q. split; [reflexivity|]. rewrite <- HM. ring.
    + assert (Hpos : 0 < A + B).
      { rewrite Zlt_Qlt, <- HM. exact (exact_value_sign false m ez). }
      destruct (binary_round_whole false m ez (A + B) Hez ltac:(lia) HM)
        as (m' & e' & -> & Hv).
      eexists. split; [reflexivity|]. exact Hv.
    + assert (Hneg : A + B < 0).
      { rewrite Zlt_Qlt, <- HM. exact (exact_value_sign true m ez). }
      destruct (binary_round_whole true m ez (- (A + B)) Hez ltac:(lia))
        as (m' & e' & -> & Hv).
      { change (Z.neg m) with (- Z.pos m) in HM.
        rewrite inject_Z_opp in HM |- *. rewrite <- HM. ring. }
      eexists. split; [reflexivity|]. rewrite Hv. cbn [cond_Zopp].
      rewrite Z.opp_involutive. reflexivity.
Qed.

(** ** Comparisons *)

Lemma canonical_bounds (s : bool) (m : positive) (e : Z) :
  valid_binary (S754_finite s m e) = true ->
  -1074 <= e /\ Z.pos m < 2 ^ 53 /\ (-1074 < e -> 2 ^ 52 <= Z.pos m).
Proof.
  intros Hv. split; [exact (valid_binary_exponent _ _ _ Hv)|].
  split; [exact (valid_binary_digits _ _ _ Hv)|].
  intros He. revert Hv.
  unfold SpecFloat.valid_binary, bounded, canonical_mantissa. binary64.
  intros H. apply andb_prop in H as [H _]. apply Z.eqb_eq in H.
  pose proof (digits2_pos_bounds m) as [Hlo _].
  assert (Hd : Z.pos (digits2_pos m) = 53) by lia.
  rewrite Hd in Hlo. exact Hlo.
Qed.

(** Between canonical doubles the greater exponent has the greater
    magnitude. *)
Lemma magnitude_lt (m1 m2 : positive) (e1 e2 : Z) :
  valid_binary (S754_finite false m1 e1) = true ->
  valid_binary (S754_finite false m2 e2) = true ->
  e1 < e2 -> (exact_value false m1 e1 < exact_value false m2 e2)%Q.
Proof.
  intros H1 H2 He.
  destruct (canonical_bounds _ _ _ H1) as (He1 & Hm1 & _).
  destruct (canonical_bounds _ _ _ H2) as (_ & _ & Hm2).
  specialize (Hm2 ltac:(lia)).
  unfold exact_value. replace e2 with (e1 + (e2 - e1)) by lia.
  rewrite <- (scaled_value false) by lia. cbn [cond_Zopp].
  apply Qmult_lt_compat_r; [apply two_power_pos|].
  rewrite <- Zlt_Qlt.
  assert (2 ^ 1 <= 2 ^ (e2 - e1)) by (apply Z.pow_le_mono_r; lia).
  change (2 ^ 53) with (2 ^ 52 * 2 ^ 1) in Hm1. nia.
Qed.

Lemma mantissa_lt (s : bool) (m1 m2 : positive) (e : Z) :
  (m1 < m2)%positive -> (exact_value false m1 e < exact_value false m2 e)%Q.
Proof.
  intros H. unfold exact_value. cbn [cond_Zopp].
  apply Qmult_lt_compat_r; [apply two_power_pos|].
  rewrite <- Zlt_Qlt. lia.
Qed.

Lemma exact_value_neg (m : positive) (e : Z) :
  (exact_value true m e == - exact_value false m e)%Q.
Proof.
  unfold exact_value. cbn [cond_Zopp]. rewrite inject_Z_opp. ring.
Qed.

Lemma magnitude_compare (m1 m2 : positive) (e1 e2 : Z) :
  valid_binary (S754_finite false m1 e1) = true ->
  valid_binary (S754_finite false m2 e2) = true ->
  ordered (Some match e1 ?= e2 with
                | Lt => Lt
                | Gt => Gt
                | Eq => Pos.compare_cont Eq m1 m2
                end)
          (exact_value false m1 e1) (exact_value false m2 e2).
Proof.
  intros H1 H2. destruct (Z.compare_spec e1 e2) as [->|He|He]; cbn [ordered].
  - change (Pos.compare_cont Eq m1 m2) with (m1 ?= m2)%positive.
    destruct (Pos.compare_spec m1 m2) as [->|Hm|Hm].
    + reflexivity.
    + apply (mantissa_lt false); exact Hm.
    + apply (mantissa_lt false); exact Hm.
  - apply magnitude_lt; assumption.
  - apply magnitude_lt; assumption.
Qed.

Lemma SFcompare_value (x y : spec_float) (X Y : Q) :
  valid_binary x = true -> valid_binary y = true ->
  SF_value x = Some X -> SF_value y = Some Y ->
  ordered (SFcompare x y) X Y.
Proof.
  intros Hvx Hvy HX HY.
  destruct x as [sx|sx| |sx mx ex], y as [sy|sy| |sy my ey]; try discriminate;
    cbn [SF_value] in HX, HY; injection HX as <-; injection HY as <-;
    cbn [SFcompare].
  - reflexivity.
  - pose proof (exact_value_sign sy my ey) as H. destruct sy; exact H.
  - pose proof (exact_value_sign sx mx ex) as H. destruct sx; exact H.
  - pose proof (exact_value_sign sx mx ex) as Hsx.
    pose proof (exact_value_sign sy my ey) as Hsy.
    destruct sx, sy.
    + pose proof (magnitude_compare mx my ex ey Hvx Hvy) as H.
      pose proof (exact_value_neg mx ex) as Nx.
      pose proof (exact_value_neg my ey) as Ny.
      destruct (ex ?= ey); [destruct (Pos.compare_cont Eq mx my)| |];
        cbn [CompOpp ordered] in H |- *; lra.
    + cbn [ordered]. lra.
    + cbn [ordered]. lra.
    + exact (magnitude_compare mx my ex ey Hvx Hvy).
Qed.

(** ** Doubles *)

Lemma number_value_inv (f : float) (q : Q) :
  number_value f = Some q ->
  exists q', SF_value (Prim2SF f) = Some q' /\ (q == q')%Q.
Proof.
  intros H. pose proof (number_value_SF f) as HS. rewrite H in HS.
  destruct (SF_value (Prim2SF f)) as [q'|]; [|contradiction].
  exists q'. split; [reflexivity | exact HS].
Qed.

Lemma integer_value_inv (f : float) (z : Z) :
  integer_value f = Some z ->
  exists q, number_value f = Some q /\ (q == inject_Z z)%Q.
Proof.
  unfold integer_value. destruct (number_value f) as [q|]; [|discriminate].
  destruct (Qeq_bool q (inject_Z (Qfloor q))) eqn:E; [|discriminate].
  intros [= <-]. exists q. split; [reflexivity|]. apply Qeq_bool_iff, E.
Qed.

Lemma integer_value_of (f : float) (q : Q) (z : Z) :
  number_value f = Some q -> (q == inject_Z z)%Q -> integer_value f = Some z.
Proof.
  intros Hq Hz. unfold integer_value. rewrite Hq.
  assert (Hf : Qfloor q = z) by (rewrite Hz; apply Qfloor_Z).
  rewrite Hf. apply Qeq_bool_iff in Hz. rewrite Hz. reflexivity.
Qed.

(** The sum of two finite doubles is the rounding of their exact sum. *)
Lemma add_rounds (a b : float) (A B : Q) :
  number_value a = Some A -> number_value b = Some B ->
  rounds_to (A + B) (Prim2SF (a + b)).
Proof.
  intros HA HB.
  destruct (number_value_inv _ _ HA) as (A' & HA' & EA).
  destruct (number_value_inv _ _ HB) as (B' & HB' & EB).
  rewrite add_spec. apply (rounds_to_ext (A' + B')); [rewrite EA, EB; reflexivity|].
  apply SFadd_value; auto using Prim2SF_valid.
Qed.

Lemma sub_rounds (a b : float) (A B : Q) :
  number_value a = Some A -> number_value b = Some B ->
  rounds_to (A - B) (Prim2SF (a - b)).
Proof.
  intros HA HB.
  destruct (number_value_inv _ _ HA) as (A' & HA' & EA).
  destruct (number_value_inv _ _ HB) as (B' & HB' & EB).
  rewrite sub_spec. apply (rounds_to_ext (A' - B')); [rewrite EA, EB; reflexivity|].
  apply SFsub_value; auto using Prim2SF_valid.
Qed.

Lemma rounds_to_finite (V R : Q) (f : float) :
  rounds_to V (Prim2SF f) -> number_value f = Some R ->
  (Qabs (R - V) <= Qabs V * (1 # 2 ^ 53))%Q.
Proof.
  intros Hr HR. destruct (number_value_inv _ _ HR) as (R' & HR' & ER).
  rewrite ER. destruct (Prim2SF f) as [s|s| |s m e]; try discriminate;
    cbn [SF_value rounds_to] in *; injection HR' as <-.
  - apply exact_within. symmetry. exact Hr.
  - exact Hr.
Qed.

(** The rounding error of a sum and of a difference of doubles. *)
Lemma add_error (a b : float) (A B R : Q) :
  number_value a = Some A -> number_value b = Some B ->
  number_value (a + b) = Some R ->
  (Qabs (R - (A + B)) <= Qabs (A + B) * (1 # 2 ^ 53))%Q.
Proof.
  intros HA HB HR. exact (rounds_to_finite _ _ _ (add_rounds _ _ _ _ HA HB) HR).
Qed.

Lemma sub_error (a b : float) (A B R : Q) :
  number_value a = Some A -> number_value b = Some B ->
  number_value (a - b) = Some R ->
  (Qabs (R - (A - B)) <= Qabs (A - B) * (1 # 2 ^ 53))%Q.
Proof.
  intros HA HB HR. exact (rounds_to_finite _ _ _ (sub_rounds _ _ _ _ HA HB) HR).
Qed.

(** The sum of two whole doubles is their sum when that is below 2^53. *)
Lemma add_whole (a b : float) (A B : Z) :
  integer_value a = Some A -> integer_value b = Some B ->
  Z.abs (A + B) < 2 ^ 53 ->
  integer_value (a + b) = Some (A + B).
Proof.
  intros HA HB Hs.
  destruct (integer_value_inv _ _ HA) as (qa & Hqa & Ea).
  destruct (integer_value_inv _ _ HB) as (qb & Hqb & Eb).
  destruct (number_value_inv _ _ Hqa) as (A' & HA' & EA).
  destruct (number_value_inv _ _ Hqb) as (B' & HB' & EB).
  destruct (SFadd_whole _ _ A' B' A B (Prim2SF_valid a) (Prim2SF_valid b) HA' HB')
    as (R & HR & ER); [rewrite <- EA; exact Ea | rewrite <- EB; exact Eb | exact Hs |].
  rewrite <- add_spec in HR.
  pose proof (number_value_SF (a + b)) as HS. rewrite HR in HS.
  destruct (number_value (a + b)) as [q|] eqn:Hq; [|contradiction].
  apply (integer_value_of _ q); [exact Hq|]. rewrite HS. exact ER.
Qed.

(** Comparisons of finite doubles are those of their values. *)
Lemma compare_value (a b : float) (A B : Q) :
  number_value a = Some A -> number_value b = Some B ->
  ordered (SFcompare (Prim2SF a) (Prim2SF b)) A B.
Proof.
  intros HA HB.
  destruct (number_value_inv _ _ HA) as (A' & HA' & EA).
  destruct (number_value_inv _ _ HB) as (B' & HB' & EB).
  pose proof (SFcompare_value _ _ A' B' (Prim2SF_valid a) (Prim2SF_valid b) HA' HB') as H.
  destruct (SFcompare (Prim2SF a) (Prim2SF b)) as [[| |]|]; cbn [ordered] in *;
    rewrite ?EA, ?EB; exact H.
Qed.

Lemma ltb_value (a b : float) (A B : Q) :
  number_value a = Some A -> number_value b = Some B ->
  (a <? b)%float = true <-> (A < B)%Q.
Proof.
  intros HA HB. pose proof (compare_value a b A B HA HB) as H.
  rewrite ltb_spec. unfold SFltb.
  destruct (SFcompare (Prim2SF a) (Prim2SF b)) as [[| |]|]; cbn [ordered] in H;
    split; intros H'; try discriminate; try reflexivity; try contradiction; lra.
Qed.

Lemma leb_value (a b : float) (A B : Q) :
  number_value a = Some A -> number_value b = Some B ->
  (a <=? b)%float = true <-> (A <= B)%Q.
Proof.
  intros HA HB. pose proof (compare_value a b A B HA HB) as H.
  rewrite leb_spec. unfold SFleb.
  destruct (SFcompare (Prim2SF a) (Prim2SF b)) as [[| |]|]; cbn [ordered] in H;
    split; intros H'; try discriminate; try reflexivity; try contradiction; lra.
Qed.

Lemma number_value_number_of_Z (i : Z) :
  Z.abs i < 2 ^ 53 ->
  exists q, number_value (number_of_Z i) = Some q /\ (q == inject_Z i)%Q.
Proof.
  intros Hi. apply integer_value_inv, integer_value_number_of_Z, Hi.
Qed.

(** On a whole origin and extent the comparisons of doubles that
    [excavateModules] makes with an index are those of integers. *)
Lemma outside_doubles_whole (origin extent : float) (O W i : Z) :
  integer_value origin = Some O -> integer_value extent = Some W ->
  0 <= i < 2 ^ 52 ->
  outside_doubles origin extent i = (i <? O) || (i >=? O + W).
Proof.
  intros HO HW Hi. unfold outside_doubles.
  destruct (integer_value_inv _ _ HO) as (qo & Hqo & Eo).
  destruct (integer_value_inv _ _ HW) as (qw & Hqw & Ew).
  destruct (number_value_number_of_Z i) as (qi & Hqi & Ei);
    [change (2 ^ 53) with (2 * 2 ^ 52); lia|].
  f_equal.
  - apply eq_true_iff_eq. rewrite (ltb_value _ _ _ _ Hqi Hqo), Ei, Eo.
    rewrite <- Zlt_Qlt. symmetry. apply Z.ltb_lt.
  - apply eq_true_iff_eq. rewrite Z.geb_le.
    destruct (Z_lt_le_dec (Z.abs (O + W)) (2 ^ 53)) as [Hsmall|Hbig].
    + destruct (integer_value_inv _ _ (add_whole _ _ _ _ HO HW Hsmall))
        as (qs & Hqs & Es).
      rewrite (leb_value _ _ _ _ Hqs Hqi), Es, Ei, <- Zle_Qle. reflexivity.
    + pose proof (add_rounds _ _ _ _ Hqo Hqw) as Hr.
      apply (rounds_to_ext _ (inject_Z (O + W))) in Hr;
        [|rewrite inject_Z_plus, Eo, Ew; reflexivity].
      rewrite leb_spec. unfold SFleb.
      destruct (number_value_inv _ _ Hqi) as (qi' & Hqi' & Ei').
      pose proof (Prim2SF_valid (number_of_Z i)) as Hvi.
      pose proof (Prim2SF_valid (origin + extent)) as Hvs.
      assert (Hi53 : (inject_Z i < inject_Z (2 ^ 53) - 1)%Q).
      { rewrite <- (inject_Z_plus (2 ^ 53) (-1)) || idtac.
        change (inject_Z (2 ^ 53) - 1)%Q with (inject_Z (2 ^ 53) + inject_Z (-1))%Q.
        rewrite <- inject_Z_plus, <- Zlt_Qlt.
        change (2 ^ 53) with (2 * 2 ^ 52). lia. }
      assert (Hi0 : (0 <= inject_Z i)%Q)
        by (change 0%Q with (inject_Z 0); rewrite <- Zle_Qle; lia).
      assert (Hbig' : (inject_Z (O + W) <= - inject_Z (2 ^ 53)
                       \/ inject_Z (2 ^ 53) <= inject_Z (O + W))%Q).
      { destruct (Z_lt_le_dec (O + W) 0).
        - left. rewrite <- inject_Z_opp, <- Zle_Qle. lia.
        - right. rewrite <- Zle_Qle. lia. }
      assert (HSi : (inject_Z (O + W) <= inject_Z i)%Q <-> O + W <= i)
        by (rewrite <- Zle_Qle; reflexivity).
      rewrite <- HSi. clear HSi.
      set (S := inject_Z (O + W)) in *. set (T := inject_Z (2 ^ 53)) in *.
      assert (HT : (T == 9007199254740992)%Q) by reflexivity.
      destruct (Prim2SF (origin + extent)) as [s|s| |s m e] eqn:Hp;
        cbn [rounds_to] in Hr; try contradiction.
      * (* a zero *) lra.
      * (* an infinity *)
        destruct (Prim2SF (number_of_Z i)) as [si|si| |si mi ei];
          try discriminate; cbn [SFcompare]; destruct s;
          split; intros H'; try discriminate; try reflexivity; lra.
      * (* a finite sum *)
        pose proof (SFcompare_value _ _ (exact_value s m e) qi' Hvs Hvi
                      eq_refl Hqi') as Hc.
        set (R := exact_value s m e) in *.
        assert (HR : (S <= - T /\ R <= S * (1 - (1 # 2 ^ 53))
                      \/ T <= S /\ S * (1 - (1 # 2 ^ 53)) <= R)%Q).
        { destruct Hbig' as [Hneg|Hpos]; [left | right]; (split; [assumption|]).
          - rewrite (Qabs_neg S) in Hr by lra.
            apply Qabs_Qle_condition in Hr. lra.
          - rewrite (Qabs_pos S) in Hr by lra.
            apply Qabs_Qle_condition in Hr. lra. }
        assert (HRi : (S <= - T /\ R < 0 \/ T <= S /\ inject_Z i < R)%Q).
        { destruct HR as [[H1 H2]|[H1 H2]]; [left | right]; (split; [exact H1|]).
          - assert (S * (1 - (1 # 2 ^ 53)) < 0)%Q; [|lra].
            setoid_replace (S * (1 - (1 # 2 ^ 53)))%Q
              with (- ((- S) * (1 - (1 # 2 ^ 53))))%Q using relation Qeq by ring.
            assert (0 < (- S) * (1 - (1 # 2 ^ 53)))%Q; [|lra].
            apply Qmult_lt_0_compat; [lra | reflexivity].
          - assert (T * (1 - (1 # 2 ^ 53)) <= S * (1 - (1 # 2 ^ 53)))%Q.
            { apply Qmult_le_compat_r; [exact H1 | discriminate]. }
            assert (T * (1 - (1 # 2 ^ 53)) == T - 1)%Q by (rewrite HT; reflexivity).
            lra. }
        destruct (SFcompare (S754_finite s m e) (Prim2SF (number_of_Z i)))
          as [[| |]|]; cbn [ordered] in Hc;
          split; intros H'; try discriminate; try reflexivity; try contradiction;
          lra.
Qed.

(** ** The rectangle of doubles *)

Lemma map_from_ext {A B : Type} (f g : A -> Z -> B) (l : list A) :
  forall i,
    (forall a k, a ∈ l -> i <= k < i + Z.of_nat (length l) -> f a k = g a k) ->
    map_from f i l = map_from g i l.
Proof.
  induction l as [|a l IH]; intros i H; [reflexivity|].
  cbn [map_from]. f_equal.
  - apply H; [left | cbn [length]; lia].
  - apply IH. intros b k Hb Hk. apply H; [right; exact Hb | cbn [length]; lia].
Qed.

Lemma whole_rectangle_inv (e : ExcavationDoubles) (r : Excavation) :
  whole_rectangle e = Some r ->
  integer_value (ed_x e) = Some (ex_x r) /\ integer_value (ed_y e) = Some (ex_y r)
  /\ integer_value (ed_w e) = Some (ex_w r) /\ integer_value (ed_h e) = Some (ex_h r).
Proof.
  unfold whole_rectangle.
  destruct (integer_value (ed_x e)), (integer_value (ed_y e)),
    (integer_value (ed_w e)), (integer_value (ed_h e)); try discriminate.
  intros [= <-]. auto.
Qed.

(** On a rectangle of whole numbers [excavateModules] clears the cells
    that the comparisons of integers select. *)
Lemma excavateModules_doubles_whole (M : Modules) (e : ExcavationDoubles)
    (r : Excavation) :
  whole_rectangle e = Some r -> indices_exact M ->
  excavateModules_doubles M e = excavateModules M r.
Proof.
  intros Hr [Hrows Hcols].
  destruct (whole_rectangle_inv _ _ Hr) as (Hx & Hy & Hw & Hh).
  unfold excavateModules_doubles, excavateModules, map_i.
  apply map_from_ext. intros row y Hrow Hy'.
  unfold excavate_row_doubles, excavate_row.
  rewrite (outside_doubles_whole _ _ _ _ y Hy Hh) by lia.
  destruct ((y <? ex_y r) || (y >=? ex_y r + ex_h r)); [reflexivity|].
  unfold map_i. apply map_from_ext. intros cell x _ Hx'.
  unfold excavate_cell_doubles, excavate_cell.
  rewrite Forall_forall in Hcols. specialize (Hcols row Hrow).
  rewrite (outside_doubles_whole _ _ _ _ x Hx Hw) by lia.
  reflexivity.
Qed.

(** A sum, a difference, a floor or a ceiling that is finite has finite
    operands. *)
Lemma add_finite (a b : float) (R : Q) :
  number_value (a + b) = Some R ->
  exists A B, number_value a = Some A /\ number_value b = Some B.
Proof.
  unfold number_value. rewrite add_spec. unfold SF64add.
  destruct (Prim2SF a) as [sa|sa| |sa ma ea], (Prim2SF b) as [sb|sb| |sb mb eb];
    cbn [SFadd]; try discriminate; try (destruct sa, sb; discriminate);
    intros _; eauto.
Qed.

Lemma sub_finite (a b : float) (R : Q) :
  number_value (a - b) = Some R ->
  exists A B, number_value a = Some A /\ number_value b = Some B.
Proof.
  unfold number_value. rewrite sub_spec. unfold SF64sub.
  destruct (Prim2SF a) as [sa|sa| |sa ma ea], (Prim2SF b) as [sb|sb| |sb mb eb];
    cbn [SFsub]; try discriminate; try (destruct sa, sb; discriminate);
    intros _; eauto.
Qed.

Lemma opp_finite (x : float) (q : Q) :
  number_value (- x) = Some q -> number_value x = Some (- q)%Q.
Proof.
  intros H. destruct (number_value x) as [X|] eqn:HX.
  - rewrite (number_value_opp _ _ HX) in H. injection H as <-.
    f_equal. unfold Qopp. destruct X as [n d]. cbn [Qnum Qden].
    rewrite Z.opp_involutive. reflexivity.
  - exfalso. revert H HX. unfold number_value. rewrite opp_spec.
    destruct (Prim2SF x); cbn [SFopp]; discriminate.
Qed.

Lemma Math_floor_finite (x : float) (z : Z) :
  integer_value (Math_floor x) = Some z ->
  exists X, number_value x = Some X /\ z = Qfloor X.
Proof.
  intros H. destruct (number_value x) as [X|] eqn:HX.
  - rewrite (Math_floor_value _ _ HX) in H. injection H as <-. eauto.
  - exfalso. revert H HX. unfold integer_value, Math_floor, number_value.
    destruct (Prim2SF x) eqn:Hp; try discriminate; rewrite Hp; discriminate.
Qed.

Lemma Math_ceil_finite (x : float) (z : Z) :
  integer_value (Math_ceil x) = Some z ->
  exists X, number_value x = Some X /\ z = Qceiling X.
Proof.
  unfold Math_ceil. intros H.
  destruct (integer_value_inv _ _ H) as (q & Hq & Eq).
  apply opp_finite in Hq.
  assert (Hi : integer_value (Math_floor (- x)) = Some (- z)).
  { apply (integer_value_of _ _ _ Hq). rewrite Eq, inject_Z_opp. reflexivity. }
  destruct (Math_floor_finite _ _ Hi) as (X' & HX' & Ez).
  apply opp_finite in HX'. exists (- X')%Q. split; [exact HX'|].
  unfold Qceiling. rewrite (Qfloor_comp (- - X') X') by ring. lia.
Qed.

(** A floor or a ceiling that is finite is a whole number. *)
Lemma Math_floor_whole (x : float) (q : Q) :
  number_value (Math_floor x) = Some q ->
  exists z, integer_value (Math_floor x) = Some z.
Proof.
  intros H. destruct (number_value x) as [X|] eqn:HX.
  - exists (Qfloor X). exact (Math_floor_value _ _ HX).
  - exfalso. revert H HX. unfold Math_floor, number_value.
    destruct (Prim2SF x) eqn:Hp; try discriminate; rewrite Hp; discriminate.
Qed.

Lemma Math_ceil_whole (x : float) (q : Q) :
  number_value (Math_ceil x) = Some q ->
  exists z, integer_value (Math_ceil x) = Some z.
Proof.
  unfold Math_ceil. intros H. apply opp_finite in H.
  destruct (Math_floor_whole _ _ H) as (z & Hz).
  exists (- z). exact (integer_value_opp _ _ Hz).
Qed.

Lemma whole_rectangle_finite (fx fy fw fh : float) :
  let e := {| ed_x := Math_floor fx; ed_y := Math_floor fy;
              ed_w := Math_ceil fw; ed_h := Math_ceil fh |} in
  is_Some (whole_rectangle e)
  <-> is_Some (number_value (ed_x e)) /\ is_Some (number_value (ed_y e))
      /\ is_Some (number_value (ed_w e)) /\ is_Some (number_value (ed_h e)).
Proof.
  intros e. split.
  - intros [r Hr]. destruct (whole_rectangle_inv _ _ Hr) as (Hx & Hy & Hw & Hh).
    destruct (integer_value_inv _ _ Hx) as (qx & -> & _).
    destruct (integer_value_inv _ _ Hy) as (qy & -> & _).
    destruct (integer_value_inv _ _ Hw) as (qw & -> & _).
    destruct (integer_value_inv _ _ Hh) as (qh & -> & _).
    repeat split; eexists; reflexivity.
  - intros ([qx Hx] & [qy Hy] & [qw Hw] & [qh Hh]).
    subst e. cbn [ed_x ed_y ed_w ed_h] in *.
    destruct (Math_floor_whole _ _ Hx) as (zx & Hzx).
    destruct (Math_floor_whole _ _ Hy) as (zy & Hzy).
    destruct (Math_ceil_whole _ _ Hw) as (zw & Hzw).
    destruct (Math_ceil_whole _ _ Hh) as (zh & Hzh).
    unfold whole_rectangle. cbn [ed_x ed_y ed_w ed_h].
    rewrite Hzx, Hzy, Hzw, Hzh. eexists. reflexivity.
Qed.

(** One axis of the rectangle: the origin [floor x] and the extent
    [ceil (w + x - floor x)], every operation on doubles. *)
Lemma rectangle_axis (fx fw : float) (rx rw : Z) :
  integer_value (Math_floor fx) = Some rx ->
  integer_value (Math_ceil (fw + fx - Math_floor fx)) = Some rw ->
  exists x w,
    number_value fx = Some x /\ number_value fw = Some w
    /\ (inject_Z rx <= x < inject_Z rx + 1)%Q
    /\ (x + w - rounding_slack x w <= inject_Z (rx + rw)
        < x + w + 1 + rounding_slack x w)%Q
    /\ (inject_Z rw - w < 2 + rounding_slack x w)%Q
    /\ (forall tw,
          number_value (fw + fx - Math_floor fx) = Some tw ->
          (tw == w + x - inject_Z rx)%Q ->
          (x + w <= inject_Z (rx + rw))%Q /\ (0 <= inject_Z rw - w < 2)%Q).
Proof.
  intros Hrx Hrw.
  destruct (Math_floor_finite _ _ Hrx) as (x & Hx & ->).
  destruct (Math_ceil_finite _ _ Hrw) as (tw & Htw & ->).
  destruct (sub_finite _ _ _ Htw) as (sx & fv & Hsx & Hfv).
  destruct (add_finite _ _ _ Hsx) as (w & x' & Hw & Hx').
  rewrite Hx in Hx'. injection Hx' as <-.
  destruct (integer_value_inv _ _ Hrx) as (fv' & Hfv' & Efv).
  rewrite Hfv in Hfv'. injection Hfv' as <-.
  pose proof (add_error _ _ _ _ _ Hw Hx Hsx) as E1.
  pose proof (sub_error _ _ _ _ _ Hsx Hfv Htw) as E2.
  pose proof (floor_bounds x) as Hfx. pose proof (ceiling_bounds tw) as Hcw.
  exists x, w. split; [exact Hx|]. split; [exact Hw|]. split; [exact Hfx|].
  rewrite inject_Z_plus. unfold rounding_slack.
  rewrite Efv in E2.
  assert (Ea : (Qabs (w + x) == Qabs (x + w))%Q) by (apply Qabs_wd; ring).
  rewrite Ea in E1.
  apply Qabs_Qle_condition in E1. apply Qabs_Qle_condition in E2.
  pose proof (Qabs_nonneg (x + w)) as Ha0.
  pose proof (Qle_Qabs (x + w)) as Ha1.
  pose proof (Qle_Qabs (- (x + w))) as Ha2. rewrite Qabs_opp in Ha2.
  pose proof (Qle_Qabs x) as Hx1.
  pose proof (Qle_Qabs (- x)) as Hx2. rewrite Qabs_opp in Hx2.
  assert (Hb : (Qabs (sx - inject_Z (Qfloor x))
                <= Qabs (x + w) * (1 + (1 # 2 ^ 53)) + Qabs x + 1)%Q).
  { apply Qabs_case; intros _;
      change (2 ^ 53)%positive with 9007199254740992%positive in *; lra. }
  set (b := Qabs (sx - inject_Z (Qfloor x))) in *. clearbody b.
  set (a := Qabs (x + w)) in *. clearbody a.
  set (ax := Qabs x) in *. clearbody ax.
  set (F := inject_Z (Qfloor x)) in *. clearbody F.
  set (C := inject_Z (Qceiling tw)) in *. clearbody C.
  change (2 ^ 53)%positive with 9007199254740992%positive in *.
  split; [split; lra|]. split; [lra|].
  intros tw' Htw' Etw. rewrite Htw in Htw'. injection Htw' as <-.
  split; lra.
Qed.

(** C5, as the code has it.  With [excavate] set, the rectangle is
    {floor x, floor y, ceil(w + x − floor x), ceil(h + y − floor y)}, every
    operation on doubles.  Its four fields are whole numbers exactly when
    they are finite.  [excavateModules] then clears exactly that integer
    rectangle, on a matrix of at most 2^52 rows and columns; the
    footprint's coordinates and sizes are finite too; the rectangle's
    origin is at or before the footprint's origin, by less than one module
    on each axis; its far edge is at x + w or beyond, up to the rounding of
    the sum and the difference that compute the extent (at most
    [rounding_slack]), and less than one module plus that rounding beyond
    it: the rectangle is longer than the footprint by less than two
    modules, plus that rounding, per axis.  When the two extents are
    computed without rounding error, the rectangle contains the whole
    footprint and is longer than it by less than two modules per axis. *)
Theorem excavation_covers_footprint (cells : Modules) (size : float) (margin : Z)
    (img : ImageSettings) :
  img_excavate img = true ->
  exists p e,
    getImageSettings cells size margin (Some img) = Some p
    /\ ip_excavation p = Some e
    /\ e = {| ed_x := Math_floor (ip_x p);
              ed_y := Math_floor (ip_y p);
              ed_w := Math_ceil (ip_w p + ip_x p - Math_floor (ip_x p));
              ed_h := Math_ceil (ip_h p + ip_y p - Math_floor (ip_y p)) |}
    /\ (is_Some (whole_rectangle e)
        <-> is_Some (number_value (ed_x e)) /\ is_Some (number_value (ed_y e))
            /\ is_Some (number_value (ed_w e)) /\ is_Some (number_value (ed_h e)))
    /\ forall r,
         whole_rectangle e = Some r ->
         (forall M, indices_exact M ->
                    excavateModules_doubles M e = excavateModules M r)
         /\ exists x y w h : Q,
              number_value (ip_x p) = Some x /\ number_value (ip_y p) = Some y
              /\ number_value (ip_w p) = Some w /\ number_value (ip_h p) = Some h
              /\ (inject_Z (ex_x r) <= x < inject_Z (ex_x r) + 1)%Q
              /\ (inject_Z (ex_y r) <= y < inject_Z (ex_y r) + 1)%Q
              /\ (x + w - rounding_slack x w <= inject_Z (ex_x r + ex_w r)
                  < x + w + 1 + rounding_slack x w)%Q
              /\ (y + h - rounding_slack y h <= inject_Z (ex_y r + ex_h r)
                  < y + h + 1 + rounding_slack y h)%Q
              /\ (overcover_x r w < 2 + rounding_slack x w)%Q
              /\ (overcover_y r h < 2 + rounding_slack y h)%Q
              /\ (forall tw th : Q,
                    number_value (ip_w p + ip_x p - ed_x e) = Some tw ->
                    number_value (ip_h p + ip_y p - ed_y e) = Some th ->
                    (tw == w + x - inject_Z (ex_x r))%Q ->
                    (th == h + y - inject_Z (ex_y r))%Q ->
                    covers_footprint r x y w h
                    /\ (0 <= overcover_x r w < 2)%Q
                    /\ (0 <= overcover_y r h < 2)%Q).
Proof.
  intros Hex. unfold getImageSettings. rewrite Hex.
  eexists. eexists. split; [reflexivity|]. split; [reflexivity|].
  cbn [ip_x ip_y ip_w ip_h ed_x ed_y].
  split; [reflexivity|].
  split; [apply whole_rectangle_finite|].
  intros r Hr.
  split; [intros M HM; apply excavateModules_doubles_whole; assumption|].
  destruct (whole_rectangle_inv _ _ Hr) as (Hrx & Hry & Hrw & Hrh).
  cbn [ed_x ed_y ed_w ed_h] in Hrx, Hry, Hrw, Hrh.
  destruct (rectangle_axis _ _ _ _ Hrx Hrw)
    as (x & w & Hx & Hw & Hnx & Hfx & Hox & Hexact_x).
  destruct (rectangle_axis _ _ _ _ Hry Hrh)
    as (y & h & Hy & Hh & Hny & Hfy & Hoy & Hexact_y).
  exists x, y, w, h.
  do 8 (split; [assumption|]).
  unfold overcover_x, overcover_y, covers_footprint.
  split; [exact Hox|]. split; [exact Hoy|].
  intros tw th Htw Hth Etw Eth.
  destruct (Hexact_x tw Htw Etw) as [Hcx Hbx].
  destruct (Hexact_y th Hth Eth) as [Hcy Hby].
  destruct Hnx as [Hnx _]. destruct Hny as [Hny _].
  repeat split; tauto.
Qed.

Lemma excavation_covers_footprint_witness :
  let cells : Modules := repeat (repeat true 21%nat) 21%nat in
  let img := {| img_src := "logo.png"; img_height := 64; img_width := 64;
                img_excavate := true; img_x := None; img_y := None |} in
  exists p e r x y w h,
    getImageSettings cells 256 2 (Some img) = Some p
    /\ ip_excavation p = Some e
    /\ whole_rectangle e = Some r
    /\ r = {| ex_x := 7; ex_y := 7; ex_w := 7; ex_h := 7 |}
    /\ excavateModules_doubles cells e = excavateModules cells r
    /\ number_value (ip_x p) = Some x /\ (x == 63 # 8)%Q
    /\ number_value (ip_y p) = Some y /\ (y == 63 # 8)%Q
    /\ number_value (ip_w p) = Some w /\ (w == 21 # 4)%Q
    /\ number_value (ip_h p) = Some h /\ (h == 21 # 4)%Q
    /\ (inject_Z (ex_x r) <= x < inject_Z (ex_x r) + 1)%Q
    /\ (x + w - rounding_slack x w <= inject_Z (ex_x r + ex_w r)
        < x + w + 1 + rounding_slack x w)%Q
    /\ covers_footprint r x y w h
    /\ (0 <= overcover_x r w < 2)%Q.
Proof.
  intros cells img.
  destruct (excavation_covers_footprint cells 256 2 img eq_refl)
    as (p & e & Hp & He & Heq & _ & Hall).
  vm_compute in Hp. injection Hp as <-.
  vm_compute in He. injection He as <-.
  destruct (Hall {| ex_x := 7; ex_y := 7; ex_w := 7; ex_h := 7 |} eq_refl)
    as (Hclear & x & y & w & h & Hx & Hy & Hw & Hh & Hnx & _ & Hfx & _ & _ & _
        & Hexact).
  eexists. eexists. eexists. exists x, y, w, h.
  split; [reflexivity|]. split; [reflexivity|]. split; [reflexivity|].
  split; [reflexivity|].
  split.
  { apply Hclear. split; [vm_compute; discriminate|].
    repeat (constructor; [vm_compute; discriminate|]). constructor. }
  assert (Hx' := Hx). assert (Hy' := Hy). assert (Hw' := Hw). assert (Hh' := Hh).
  vm_compute in Hx', Hy', Hw', Hh'.
  injection Hx' as <-. injection Hy' as <-. injection Hw' as <-. injection Hh' as <-.
  split; [exact Hx|]. split; [vm_compute; reflexivity|].
  split; [exact Hy|]. split; [vm_compute; reflexivity|].
  split; [exact Hw|]. split; [vm_compute; reflexivity|].
  split; [exact Hh|]. split; [vm_compute; reflexivity|].
  split; [exact Hnx|]. split; [exact Hfx|].
  edestruct Hexact as (Hc & Hox & _); [vm_compute; reflexivity ..|].
  split; [exact Hc | exact Hox].
Defined.

(** C5, as stated, fails on both counts.  For a logo of 100 on a symbol of
    side 21 rendered at size 300 the width is the double next above 7, the
    origin is 7 and their sum rounds to 14: the rectangle is [7, 14] and
    the footprint ends 2^-50 of a module beyond it.  For a logo of 64 at
    size 256, a quarter of the size as the image route asks, the footprint
    is 5.25 modules long from 7.875 and the rectangle is 7 modules long
    from 7, so 1.75 modules longer per axis. *)
Lemma excavation_undercovers_and_overcovers :
  let cells : Modules := repeat (repeat true 21%nat) 21%nat in
  let img s := {| img_src := "logo.png"; img_height := s; img_width := s;
                  img_excavate := true; img_x := None; img_y := None |} in
  let r := {| ex_x := 7; ex_y := 7; ex_w := 7; ex_h := 7 |} in
  (exists p e x y w h,
     getImageSettings cells 300 2 (Some (img 100%float)) = Some p
     /\ ip_excavation p = Some e
     /\ whole_rectangle e = Some r
     /\ number_value (ip_x p) = Some x /\ number_value (ip_y p) = Some y
     /\ number_value (ip_w p) = Some w /\ number_value (ip_h p) = Some h
     /\ (x == 7)%Q /\ (w == 7 + (1 # 2 ^ 50))%Q
     /\ (inject_Z (ex_x r + ex_w r) < x + w)%Q
     /\ ~ covers_footprint r x y w h)
  /\ (exists p e x y w h,
        getImageSettings cells 256 2 (Some (img 64%float)) = Some p
        /\ ip_excavation p = Some e
        /\ whole_rectangle e = Some r
        /\ number_value (ip_x p) = Some x /\ number_value (ip_y p) = Some y
        /\ number_value (ip_w p) = Some w /\ number_value (ip_h p) = Some h
        /\ (x == 63 # 8)%Q /\ (w == 21 # 4)%Q
        /\ (overcover_x r w == 7 # 4)%Q /\ (overcover_y r h == 7 # 4)%Q
        /\ (1 < overcover_x r w)%Q /\ (1 < overcover_y r h)%Q).
Proof.
  intros cells img r. split.
  - do 6 eexists. do 7 (split; [vm_compute; reflexivity|]).
    split; [vm_compute; reflexivity|]. split; [vm_compute; reflexivity|].
    split; [vm_compute; reflexivity|].
    intros (_ & H & _). vm_compute in H. apply H. reflexivity.
  - do 6 eexists. do 7 (split; [vm_compute; reflexivity|]).
    repeat split; vm_compute; reflexivity.
Qed.

(** [Math.floor] and [Math.ceil] on halves, signed zeros, NaN and the
    infinities. *)
Example Math_floor_ceil_examples :
  (Math_floor 7.5 = 7 /\ Math_floor (-7.5) = -8
   /\ Math_floor 0.5 = 0 /\ Math_floor (-0.5) = -1
   /\ Math_floor (-0) = (-0) /\ Math_floor nan = nan
   /\ Math_floor neg_infinity = neg_infinity
   /\ Math_ceil 7.5 = 8 /\ Math_ceil (-7.5) = -7
   /\ Math_ceil 0.5 = 1 /\ Math_ceil (-0.5) = (-0)
   /\ Math_ceil infinity = infinity)%float.
Proof. repeat split; reflexivity. Qed.

(** At size 0 the scale is infinite: the rectangle is
    {-Infinity, -Infinity, NaN, NaN}, every comparison of
    [excavateModules] with it is false, and every module is cleared. *)
Example getImageSettings_zero_size :
  let img := {| img_src := "logo.png"; img_height := 32; img_width := 32;
                img_excavate := true; img_x := None; img_y := None |} in
  let cells : Modules := [[true; false]; [true; true]] in
  (ip_excavation <$> getImageSettings cells 0 2 (Some img))
  = Some (Some {| ed_x := neg_infinity; ed_y := neg_infinity;
                  ed_w := nan; ed_h := nan |})
  /\ whole_rectangle {| ed_x := neg_infinity; ed_y := neg_infinity;
                        ed_w := nan; ed_h := nan |} = None
  /\ excavateModules_doubles cells
       {| ed_x := neg_infinity; ed_y := neg_infinity; ed_w := nan; ed_h := nan |}
     = [[false; false]; [false; false]].
Proof. repeat split; reflexivity. Qed.

(* ================================================================== *)
(** * Path encoder: reading back what [generatePath] writes *)
(* ================================================================== *)

Lemma append_nil_l (s : string) : EmptyString +:+ s = s.
Proof. reflexivity. Qed.

Lemma append_cons (c : ascii) (s t : string) : String c s +:+ t = String c (s +:+ t).
Proof. reflexivity. Qed.

Lemma append_nil_r (s : string) : s +:+ EmptyString = s.
Proof. induction s as [|c s IH]; [reflexivity|]. rewrite append_cons, IH. reflexivity. Qed.

Lemma append_assoc (s t u : string) : (s +:+ t) +:+ u = s +:+ (t +:+ u).
Proof.
  induction s as [|c s IH]; [reflexivity|].
  rewrite !append_cons, IH. reflexivity.
Qed.

Lemma concat_cons (op : string) (l : list string) :
  String.concat EmptyString (op :: l) = op +:+ String.concat EmptyString l.
Proof.
  destruct l as [|op' l]; simpl; [rewrite append_nil_r|]; reflexivity.
Qed.

(** ** Numbers *)

Lemma all_digits_uint (d : Decimal.uint) :
  all_digits (NilEmpty.string_of_uint d) = true.
Proof. induction d; simpl; auto. Qed.

Lemma string_of_uint_nonnil (d : Decimal.uint) :
  d <> Decimal.Nil -> NilZero.string_of_uint d = NilEmpty.string_of_uint d.
Proof. destruct d; [congruence | reflexivity..]. Qed.

Lemma string_of_uint_cons (d : Decimal.uint) :
  d <> Decimal.Nil ->
  exists c s, NilEmpty.string_of_uint d = String c s
              /\ is_digit c = true /\ all_digits s = true.
Proof.
  intros Hd. pose proof (all_digits_uint d) as Hall.
  destruct d; [congruence|..]; simpl in *; eauto.
Qed.

Lemma lex_digits (ds : string) :
  all_digits ds = true ->
  forall b s, lex (Some b) (ds +:+ s) = lex (Some (b +:+ ds)) s.
Proof.
  induction ds as [|c ds IH]; intros Hall b s.
  - rewrite append_nil_l, append_nil_r. reflexivity.
  - simpl in Hall. apply andb_true_iff in Hall as [Hc Hds].
    rewrite append_cons. simpl lex. rewrite Hc. simpl snoc_digit.
    rewrite (IH Hds), append_assoc. reflexivity.
Qed.

Lemma lex_lexeme (d : Decimal.uint) (s : string) :
  d <> Decimal.Nil ->
  lex None (NilEmpty.string_of_uint d +:+ s)
  = lex (Some (NilEmpty.string_of_uint d)) s
  /\ lex (Some "-"%string) (NilEmpty.string_of_uint d +:+ s)
     = lex (Some (String "-" (NilEmpty.string_of_uint d))) s.
Proof.
  intros Hd. split.
  - destruct (string_of_uint_cons d Hd) as (c & ds & -> & Hc & Hds).
    rewrite append_cons. simpl lex. rewrite Hc. simpl snoc_digit.
    rewrite (lex_digits ds Hds). reflexivity.
  - rewrite (lex_digits _ (all_digits_uint d)). reflexivity.
Qed.

Lemma to_int_proper (z : Z) :
  Z.to_int z <> Decimal.Pos Decimal.Nil /\ Z.to_int z <> Decimal.Neg Decimal.Nil.
Proof.
  destruct z as [|p|p]; simpl; split; try discriminate;
    intros [= H]; exact (DecimalPos.Unsigned.to_uint_nonnil p H).
Qed.

Lemma flush_number (z : Z) : flush (Some (string_of_Z z)) = [TNum z].
Proof.
  unfold flush, string_of_Z.
  destruct (to_int_proper z) as [H1 H2].
  rewrite NilZero.isi by assumption.
  rewrite DecimalZ.of_to. reflexivity.
Qed.

Lemma lex_after_number (b : string) (s : string) :
  starts_nondigit s = true ->
  lex (Some b) s = flush (Some b) ++ lex None s.
Proof.
  destruct s as [|c s]; intros Hs.
  - simpl. rewrite app_nil_r. reflexivity.
  - simpl in Hs. apply negb_true_iff in Hs. simpl lex. rewrite Hs.
    destruct (Ascii.eqb c "-"); [reflexivity|].
    destruct (is_sep c); reflexivity.
Qed.

(** A printed integer followed by anything but a digit reads back as
    that integer. *)
Lemma lex_number (z : Z) (s : string) :
  starts_nondigit s = true ->
  lex None (string_of_Z z +:+ s) = TNum z :: lex None s.
Proof.
  intros Hs.
  assert (H : lex None (string_of_Z z +:+ s) = lex (Some (string_of_Z z)) s).
  { unfold string_of_Z. destruct z as [|p|p]; simpl Z.to_int.
    - reflexivity.
    - pose proof (DecimalPos.Unsigned.to_uint_nonnil p) as Hd.
      simpl NilZero.string_of_int. rewrite string_of_uint_nonnil by exact Hd.
      apply lex_lexeme, Hd.
    - pose proof (DecimalPos.Unsigned.to_uint_nonnil p) as Hd.
      simpl NilZero.string_of_int. rewrite string_of_uint_nonnil by exact Hd.
      rewrite append_cons. simpl lex.
      apply lex_lexeme, Hd. }
  rewrite H, (lex_after_number _ _ Hs), flush_number. reflexivity.
Qed.

(** ** Operations *)

Ltac flatten_append :=
  repeat (rewrite append_assoc || rewrite append_cons || rewrite append_nil_l).

Lemma lex_one_H (s : string) :
  lex None (String "1" (String "H" s)) = TNum 1 :: TCmd "H" :: lex None s.
Proof. reflexivity. Qed.

Lemma lex_sep (c : ascii) (s : string) :
  is_sep c = true -> is_digit c = false -> Ascii.eqb c "-" = false ->
  lex None (String c s) = lex None s.
Proof. intros H1 H2 H3. simpl. rewrite H1, H2, H3. reflexivity. Qed.

Lemma op_close_run_draws m y s x :
  draws_run (op_close_run m y s x) {| run_x := s + m; run_y := y + m; run_len := x - s |}.
Proof.
  intros rest. unfold op_close_run, run_tokens. simpl. flatten_append.
  change (lex None (String "M" ?t)) with (TCmd "M" :: lex None t).
  rewrite lex_number by reflexivity.
  rewrite (lex_sep " ") by reflexivity.
  rewrite lex_number by reflexivity.
  change (lex None (String "h" ?t)) with (TCmd "h" :: lex None t).
  rewrite lex_number by reflexivity.
  change (lex None (String "v" ?t)) with (TCmd "v" :: lex None t).
  rewrite lex_one_H.
  rewrite lex_number by reflexivity.
  reflexivity.
Qed.

Lemma op_single_draws m y x :
  draws_run (op_single m y x) {| run_x := x + m; run_y := y + m; run_len := 1 |}.
Proof.
  intros rest. unfold op_single, run_tokens. simpl. flatten_append.
  change (lex None (String "M" ?t)) with (TCmd "M" :: lex None t).
  rewrite lex_number by reflexivity.
  rewrite (lex_sep ",") by reflexivity.
  rewrite lex_number by reflexivity.
  rewrite (lex_sep " ") by reflexivity.
  change (lex None (String "h" ?t)) with (TCmd "h" :: lex None t).
  change (lex None (String "1" (String "v" ?t))) with (TNum 1 :: TCmd "v" :: lex None t).
  rewrite lex_one_H.
  rewrite lex_number by reflexivity.
  reflexivity.
Qed.

Lemma op_finish_run_draws m y s x :
  draws_run (op_finish_run m y s x)
    {| run_x := s + m; run_y := y + m; run_len := x + 1 - s |}.
Proof.
  intros rest. unfold op_finish_run, run_tokens. simpl. flatten_append.
  change (lex None (String "M" ?t)) with (TCmd "M" :: lex None t).
  rewrite lex_number by reflexivity.
  rewrite (lex_sep ",") by reflexivity.
  rewrite lex_number by reflexivity.
  rewrite (lex_sep " ") by reflexivity.
  change (lex None (String "h" ?t)) with (TCmd "h" :: lex None t).
  rewrite lex_number by reflexivity.
  change (lex None (String "v" ?t)) with (TCmd "v" :: lex None t).
  rewrite lex_one_H.
  rewrite lex_number by reflexivity.
  reflexivity.
Qed.

(** ** From operations to the winding number *)

Lemma lex_operations (operations : list string) (rs : list run) :
  Forall2 draws_run operations rs ->
  lex None (String.concat EmptyString operations) = rs ≫= run_tokens.
Proof.
  induction 1 as [|op r operations rs Hop _ IH]; [reflexivity|].
  rewrite concat_cons, Hop, IH. reflexivity.
Qed.

Lemma parse_runs (rs : list run) : parse (rs ≫= run_tokens) = Some (rs ≫= run_cmds).
Proof.
  induction rs as [|r rs IH]; [reflexivity|].
  change (parse ((r :: rs) ≫= run_tokens))
    with (cons (MoveTo (run_x r) (run_y r))
            <$> (cons (HLineRel (run_len r))
                   <$> (cons (VLineRel 1)
                          <$> (cons (HLineAbs (run_x r))
                                 <$> (cons ClosePath <$> parse (rs ≫= run_tokens)))))).
  rewrite IH. reflexivity.
Qed.

Lemma trace_runs (rs : list run) :
  forall cur sub, trace cur sub (rs ≫= run_cmds) = rs ≫= run_edges.
Proof.
  induction rs as [|r rs IH]; intros cur sub; [reflexivity|].
  change (trace cur sub ((r :: rs) ≫= run_cmds))
    with (run_edges r ++ trace (run_x r, run_y r) (run_x r, run_y r) (rs ≫= run_cmds)).
  rewrite IH. reflexivity.
Qed.

Lemma winding_app (es1 es2 : list edge) cx cy :
  winding (es1 ++ es2) cx cy = winding es1 cx cy + winding es2 cx cy.
Proof.
  unfold winding. induction es1 as [|e es1 IH]; simpl; [reflexivity|].
  rewrite IH. lia.
Qed.

Ltac split_comparisons :=
  repeat match goal with
         | |- context [ ?a <? ?b ] => destruct (Z.ltb_spec a b)
         | |- context [ ?a <=? ?b ] => destruct (Z.leb_spec a b)
         | |- context [ ?a =? ?b ] => destruct (Z.eqb_spec a b)
         end.

Lemma crossing_horizontal cx cy x1 x2 y : crossing cx cy ((x1, y), (x2, y)) = 0.
Proof. unfold crossing. split_comparisons; simpl; try reflexivity; lia. Qed.

Lemma crossing_down cx cy x y :
  crossing cx cy ((x, y), (x, y + 1)) = if (cy =? y) && (cx <? x) then 1 else 0.
Proof.
  unfold crossing.
  replace (y + 1 - y) with 1 by lia. replace (x - x) with 0 by lia.
  rewrite Z.mul_0_l, Z.add_0_r, !Z.mul_1_r.
  split_comparisons; simpl; try reflexivity; lia.
Qed.

Lemma crossing_up cx cy x y :
  crossing cx cy ((x, y + 1), (x, y)) = if (cy =? y) && (cx <? x) then -1 else 0.
Proof.
  unfold crossing.
  replace (y + 1 - y) with 1 by lia. replace (x - x) with 0 by lia.
  rewrite Z.mul_0_l, Z.add_0_r, !Z.mul_1_r.
  split_comparisons; simpl; try reflexivity; lia.
Qed.

Lemma winding_run (r : run) cx cy :
  0 <= run_len r ->
  winding (run_edges r) cx cy = if covers r cx cy then 1 else 0.
Proof.
  destruct r as [a b n]. intros Hn. simpl in Hn.
  unfold covers, run_edges, winding. cbn [foldr run_x run_y run_len].
  rewrite !crossing_horizontal, crossing_down, crossing_up.
  split_comparisons; simpl; try reflexivity; lia.
Qed.

Lemma winding_runs (rs : list run) cx cy :
  Forall (fun r => 0 <= run_len r) rs ->
  winding (rs ≫= run_edges) cx cy = Z.of_nat (count_covering rs cx cy).
Proof.
  induction 1 as [|r rs Hr _ IH]; [reflexivity|].
  change ((r :: rs) ≫= run_edges) with (run_edges r ++ (rs ≫= run_edges)).
  rewrite winding_app, IH, (winding_run r cx cy Hr). simpl count_covering.
  destruct (covers r cx cy); lia.
Qed.

Lemma winding_number_operations (operations : list string) (rs : list run) cx cy :
  Forall2 draws_run operations rs ->
  Forall (fun r => 0 <= run_len r) rs ->
  winding_number (String.concat EmptyString operations) cx cy
  = Some (Z.of_nat (count_covering rs cx cy)).
Proof.
  intros Hops Hlen. unfold winding_number, path_edges.
  rewrite (lex_operations _ _ Hops), parse_runs. simpl.
  rewrite trace_runs, (winding_runs _ _ _ Hlen). reflexivity.
Qed.

Lemma filled_operation (op : string) (r : run) cx cy :
  draws_run op r -> 0 <= run_len r ->
  filled op cx cy = covers r cx cy.
Proof.
  intros Hop Hlen. unfold filled.
  replace op with (String.concat EmptyString [op]) by reflexivity.
  rewrite (winding_number_operations [op] [r]) by (repeat constructor; assumption).
  simpl. destruct (covers r cx cy); reflexivity.
Qed.

Lemma count_filled_operations (operations : list string) (rs : list run) cx cy :
  Forall2 draws_run operations rs ->
  Forall (fun r => 0 <= run_len r) rs ->
  count_filled operations cx cy = count_covering rs cx cy.
Proof.
  induction 1 as [|op r operations rs Hop _ IH]; intros Hlen; [reflexivity|].
  apply Forall_cons in Hlen as [Hr Hlen]. simpl.
  rewrite (filled_operation op r cx cy Hop Hr), (IH Hlen). reflexivity.
Qed.

(** ** The row loop *)

Lemma row_cell_nil i : row_cell [] i = false.
Proof. unfold row_cell. destruct (i <? 0); reflexivity. Qed.

Lemma row_cell_neg row i : i < 0 -> row_cell row i = false.
Proof. intros H. unfold row_cell. destruct (Z.ltb_spec i 0); [reflexivity | lia]. Qed.

Lemma row_cell_cons c row i :
  row_cell (c :: row) i
  = if i <? 0 then false else if i =? 0 then c else row_cell row (i - 1).
Proof.
  unfold row_cell.
  destruct (Z.ltb_spec i 0); [reflexivity|].
  destruct (Z.eqb_spec i 0) as [->|]; [reflexivity|].
  destruct (Z.ltb_spec (i - 1) 0); [lia|].
  replace (Z.to_nat i) with (S (Z.to_nat (i - 1))) by lia. reflexivity.
Qed.

Lemma pending_no_start st rest x i : start st = None -> pending st rest x i = false.
Proof. intros H. unfold pending. rewrite H. destruct rest; reflexivity. Qed.

(** Running the callback over the cells [rest] that remain from column
    [x] on pushes operations that draw runs; together these cover, once
    each, the cells of the run in progress and the dark cells of [rest]. *)
Lemma path_cells_cover m y len :
  forall rest x st,
    x + Z.of_nat (length rest) = len ->
    match start st with Some s => s < x | None => True end ->
    exists new rs,
      ops (forEach_from (path_cell m y len) x rest st) = ops st ++ new
      /\ Forall2 draws_run new rs
      /\ Forall (fun r => 0 <= run_len r) rs
      /\ forall cx cy,
           count_covering rs cx cy
           = if (cy =? y + m)
                && (pending st rest x (cx - m) || row_cell rest (cx - m - x))
             then 1%nat else 0%nat.
Proof.
  induction rest as [|cell rest IH]; intros x st Hlen Hst.
  - exists [], []. simpl. rewrite app_nil_r.
    split; [reflexivity|]. split; [constructor|]. split; [constructor|].
    intros cx cy. rewrite row_cell_nil, andb_false_r. reflexivity.
  - rewrite forEach_from_cons. simpl length in Hlen.
    destruct st as [o [s|]]; destruct cell; simpl in Hst.
    + (* dark cell, run in progress *)
      unfold path_cell at 2. simpl.
      destruct (Z.eqb_spec x (len - 1)) as [Hlast|Hmore].
      * destruct rest; [|simpl in Hlen; lia]. simpl.
        exists [op_finish_run m y s x],
               [{| run_x := s + m; run_y := y + m; run_len := x + 1 - s |}].
        split; [reflexivity|].
        split; [repeat constructor; apply op_finish_run_draws|].
        split; [repeat constructor; simpl; lia|].
        intros cx cy. simpl count_covering. unfold covers, pending. simpl.
        rewrite row_cell_cons, row_cell_nil.
        split_comparisons; simpl; try reflexivity; lia.
      * destruct (IH (x + 1) {| ops := o; start := Some s |})
          as (new & rs & Hops & Hdraw & Hpos & Hcov);
          [lia | simpl; lia |].
        exists new, rs. split; [exact Hops|]. split; [exact Hdraw|].
        split; [exact Hpos|].
        intros cx cy. rewrite Hcov. unfold pending. simpl.
        destruct rest as [|c' rest']; [simpl in Hlen; lia|].
        rewrite (row_cell_cons true).
        replace (cx - m - (x + 1)) with (cx - m - x - 1) by lia.
        destruct (Z.ltb_spec (cx - m - x - 1) 0) as [Hneg|Hnn];
          [rewrite (row_cell_neg _ _ Hneg)|];
          destruct (row_cell (c' :: rest') (cx - m - x - 1));
          split_comparisons; simpl; try reflexivity; lia.
    + (* light cell, run in progress: close it *)
      unfold path_cell at 2. simpl.
      destruct (IH (x + 1) {| ops := o ++ [op_close_run m y s x]; start := None |})
        as (new & rs & Hops & Hdraw & Hpos & Hcov); [lia | exact I |].
      exists (op_close_run m y s x :: new),
             ({| run_x := s + m; run_y := y + m; run_len := x - s |} :: rs).
      split; [rewrite Hops; simpl; rewrite <- app_assoc; reflexivity|].
      split; [constructor; [apply op_close_run_draws | exact Hdraw]|].
      split; [constructor; [simpl; lia | exact Hpos]|].
      intros cx cy. simpl count_covering. rewrite Hcov.
      rewrite pending_no_start by reflexivity.
      unfold covers, pending. simpl.
      rewrite (row_cell_cons false).
      replace (cx - m - (x + 1)) with (cx - m - x - 1) by lia.
      destruct (Z.ltb_spec (cx - m - x - 1) 0) as [Hneg|Hnn];
        [rewrite (row_cell_neg _ _ Hneg)|];
        destruct (row_cell rest (cx - m - x - 1));
        split_comparisons; simpl; try reflexivity; lia.
    + (* dark cell, no run in progress *)
      unfold path_cell at 2. simpl.
      destruct (Z.eqb_spec x (len - 1)) as [Hlast|Hmore].
      * destruct rest; [|simpl in Hlen; lia]. simpl.
        exists [op_single m y x],
               [{| run_x := x + m; run_y := y + m; run_len := 1 |}].
        split; [reflexivity|].
        split; [repeat constructor; apply op_single_draws|].
        split; [repeat constructor; simpl; lia|].
        intros cx cy. simpl count_covering. unfold covers, pending. simpl.
        rewrite row_cell_cons, row_cell_nil.
        split_comparisons; simpl; try reflexivity; lia.
      * destruct (IH (x + 1) {| ops := o; start := Some x |})
          as (new & rs & Hops & Hdraw & Hpos & Hcov);
          [lia | simpl; lia |].
        exists new, rs. split; [exact Hops|]. split; [exact Hdraw|].
        split; [exact Hpos|].
        intros cx cy. rewrite Hcov. unfold pending. simpl.
        destruct rest as [|c' rest']; [simpl in Hlen; lia|].
        rewrite (row_cell_cons true).
        replace (cx - m - (x + 1)) with (cx - m - x - 1) by lia.
        destruct (Z.ltb_spec (cx - m - x - 1) 0) as [Hneg|Hnn];
          [rewrite (row_cell_neg _ _ Hneg)|];
          destruct (row_cell (c' :: rest') (cx - m - x - 1));
          split_comparisons; simpl; try reflexivity; lia.
    + (* light cell, no run in progress *)
      assert (Hstep : path_cell m y len {| ops := o; start := None |} false x
                      = {| ops := o; start := None |}).
      { unfold path_cell. simpl. destruct (x =? len - 1); reflexivity. }
      rewrite Hstep.
      destruct (IH (x + 1) {| ops := o; start := None |})
        as (new & rs & Hops & Hdraw & Hpos & Hcov); [lia | exact I |].
      exists new, rs. split; [exact Hops|]. split; [exact Hdraw|].
      split; [exact Hpos|].
      intros cx cy. rewrite Hcov.
      rewrite !pending_no_start by reflexivity.
      rewrite (row_cell_cons false).
      replace (cx - m - (x + 1)) with (cx - m - x - 1) by lia.
      destruct (Z.ltb_spec (cx - m - x - 1) 0) as [Hneg|Hnn];
        [rewrite (row_cell_neg _ _ Hneg)|];
        destruct (row_cell rest (cx - m - x - 1));
        split_comparisons; simpl; try reflexivity; lia.
Qed.

(** ** The matrix loop *)

Lemma count_covering_app rs1 rs2 cx cy :
  count_covering (rs1 ++ rs2) cx cy
  = (count_covering rs1 cx cy + count_covering rs2 cx cy)%nat.
Proof. induction rs1 as [|r rs1 IH]; simpl; [reflexivity|]. rewrite IH. lia. Qed.

Lemma cell_at_row_cell (M : Modules) x y :
  cell_at M x y
  = if y <? 0 then false
    else match M !! Z.to_nat y with
         | Some row => row_cell row x
         | None => false
         end.
Proof.
  unfold cell_at, row_cell.
  destruct (Z.ltb_spec x 0), (Z.ltb_spec y 0); simpl; try reflexivity.
  destruct (M !! Z.to_nat y); reflexivity.
Qed.

Lemma cell_at_cons row (M : Modules) x y :
  cell_at (row :: M) x y
  = if y <? 0 then false else if y =? 0 then row_cell row x else cell_at M x (y - 1).
Proof.
  rewrite !cell_at_row_cell.
  destruct (Z.ltb_spec y 0); [reflexivity|].
  destruct (Z.eqb_spec y 0) as [->|]; [reflexivity|].
  destruct (Z.ltb_spec (y - 1) 0); [lia|].
  replace (Z.to_nat y) with (S (Z.to_nat (y - 1))) by lia. reflexivity.
Qed.

Lemma cell_at_neg (M : Modules) x y : y < 0 -> cell_at M x y = false.
Proof.
  intros H. rewrite cell_at_row_cell.
  destruct (Z.ltb_spec y 0); [reflexivity | lia].
Qed.

Lemma path_row_cover m acc row y :
  exists new rs,
    path_row m acc row y = acc ++ new
    /\ Forall2 draws_run new rs
    /\ Forall (fun r => 0 <= run_len r) rs
    /\ forall cx cy,
         count_covering rs cx cy
         = if (cy =? y + m) && row_cell row (cx - m) then 1%nat else 0%nat.
Proof.
  unfold path_row, forEach.
  destruct (path_cells_cover m y (Z.of_nat (length row)) row 0
              {| ops := acc; start := None |})
    as (new & rs & Hops & Hdraw & Hpos & Hcov); [lia | exact I |].
  exists new, rs. split; [exact Hops|]. split; [exact Hdraw|]. split; [exact Hpos|].
  intros cx cy. rewrite Hcov, pending_no_start by reflexivity.
  rewrite Z.sub_0_r. reflexivity.
Qed.

Lemma path_rows_cover m :
  forall (rows : Modules) y acc,
    exists new rs,
      forEach_from (path_row m) y rows acc = acc ++ new
      /\ Forall2 draws_run new rs
      /\ Forall (fun r => 0 <= run_len r) rs
      /\ forall cx cy,
           count_covering rs cx cy
           = if cell_at rows (cx - m) (cy - m - y) then 1%nat else 0%nat.
Proof.
  induction rows as [|row rows IH]; intros y acc.
  - exists [], []. simpl. rewrite app_nil_r.
    split; [reflexivity|]. split; [constructor|]. split; [constructor|].
    intros cx cy. rewrite cell_at_row_cell.
    destruct (_ <? 0); reflexivity.
  - rewrite forEach_from_cons.
    destruct (path_row_cover m acc row y)
      as (new1 & rs1 & Hops1 & Hdraw1 & Hpos1 & Hcov1).
    destruct (IH (y + 1) (path_row m acc row y))
      as (new2 & rs2 & Hops2 & Hdraw2 & Hpos2 & Hcov2).
    exists (new1 ++ new2), (rs1 ++ rs2).
    split; [rewrite Hops2, Hops1, app_assoc; reflexivity|].
    split; [apply Forall2_app; assumption|].
    split; [apply Forall_app; split; assumption|].
    intros cx cy. rewrite count_covering_app, Hcov1, Hcov2, cell_at_cons.
    replace (cy - m - (y + 1)) with (cy - m - y - 1) by lia.
    destruct (Z.ltb_spec (cy - m - y - 1) 0) as [Hneg|Hnn];
      [rewrite (cell_at_neg _ _ _ Hneg)|];
      destruct (cell_at rows (cx - m) (cy - m - y - 1)), (row_cell row (cx - m));
      split_comparisons; simpl; try reflexivity; lia.
Qed.

Lemma generatePath_ops_cover (M : Modules) m :
  exists rs,
    Forall2 draws_run (generatePath_ops M m) rs
    /\ Forall (fun r => 0 <= run_len r) rs
    /\ forall cx cy,
         count_covering rs cx cy
         = if cell_at M (cx - m) (cy - m) then 1%nat else 0%nat.
Proof.
  unfold generatePath_ops, forEach.
  destruct (path_rows_cover m M 0 []) as (new & rs & -> & Hdraw & Hpos & Hcov).
  exists rs. split; [exact Hdraw|]. split; [exact Hpos|].
  intros cx cy. rewrite Hcov, Z.sub_0_r. reflexivity.
Qed.

(** C1. The path string of [generatePath] is well formed and its winding
    number is 1 on the cells [(x + m, y + m)] with [M[y][x]] dark and 0 on
    every other cell; so the filled cells are exactly the dark cells
    shifted by the margin, and every dark cell is filled by exactly one of
    the operations pushed.  (It holds for every integer margin and for rows
    of any lengths.) *)
Theorem generatePath_fills_exactly_dark_cells (M : Modules) (m : Z) :
  (forall cx cy,
     winding_number (generatePath M m) cx cy
     = Some (if cell_at M (cx - m) (cy - m) then 1 else 0))
  /\ (forall cx cy,
        filled (generatePath M m) cx cy = true
        <-> exists x y, cell_at M x y = true /\ cx = x + m /\ cy = y + m)
  /\ (forall x y,
        cell_at M x y = true ->
        count_filled (generatePath_ops M m) (x + m) (y + m) = 1%nat)
  /\ (forall cx cy,
        cell_at M (cx - m) (cy - m) = false ->
        count_filled (generatePath_ops M m) cx cy = 0%nat).
Proof.
  destruct (generatePath_ops_cover M m) as (rs & Hdraw & Hpos & Hcov).
  assert (Hw : forall cx cy,
             winding_number (generatePath M m) cx cy
             = Some (if cell_at M (cx - m) (cy - m) then 1 else 0)).
  { intros cx cy. unfold generatePath.
    rewrite (winding_number_operations _ rs cx cy Hdraw Hpos), Hcov.
    destruct (cell_at M (cx - m) (cy - m)); reflexivity. }
  split; [exact Hw|]. split; [|split].
  - intros cx cy. unfold filled. rewrite Hw. split.
    + destruct (cell_at M (cx - m) (cy - m)) eqn:Hd; [|discriminate].
      intros _. exists (cx - m), (cy - m). split; [exact Hd | lia].
    + intros (x & y & Hd & -> & ->).
      replace (x + m - m) with x by lia. replace (y + m - m) with y by lia.
      rewrite Hd. reflexivity.
  - intros x y Hd.
    rewrite (count_filled_operations _ rs _ _ Hdraw Hpos), Hcov.
    replace (x + m - m) with x by lia. replace (y + m - m) with y by lia.
    rewrite Hd. reflexivity.
  - intros cx cy Hd.
    rewrite (count_filled_operations _ rs _ _ Hdraw Hpos), Hcov, Hd. reflexivity.
Qed.

Lemma generatePath_fills_exactly_dark_cells_witness :
  let M : Modules := [[true; true; false; true]; [false; false; true; true]] in
  filled (generatePath M 2) 5 2 = true
  /\ count_filled (generatePath_ops M 2) 5 2 = 1%nat
  /\ count_filled (generatePath_ops M 2) 4 2 = 0%nat.
Proof.
  intros M.
  destruct (generatePath_fills_exactly_dark_cells M 2) as (_ & Hfill & Hone & Hnone).
  split; [|split].
  - apply Hfill. exists 3, 0. split; [reflexivity | split; reflexivity].
  - exact (Hone 3 0 eq_refl).
  - exact (Hnone 4 2 eq_refl).
Defined.

(** The three shapes of operation named by the edge cases. *)
Example generatePath_single_dark_module :
  generatePath [[false; false; true]] 0 = "M2,0 h1v1H2z".
Proof. reflexivity. Qed.

Example generatePath_run_reaches_last_column :
  generatePath [[false; true; true; true]] 0 = "M1,0 h3v1H1z".
Proof. reflexivity. Qed.

Example generatePath_isolated_cell_at_row_end :
  generatePath [[true; true; false; true]] 2 = "M2 2h2v1H2zM5,2 h1v1H5z".
Proof. reflexivity. Qed.

Example generatePath_demo :
  generatePath
    [[true; true; false; true]; [false; true; true; false]; [false; false; false; true]] 2
  = "M2 2h2v1H2zM5,2 h1v1H5zM3 3h2v1H3zM5,4 h1v1H5z".
Proof. reflexivity. Qed.

Example filled_demo :
  let d := generatePath [[true; true; false; true]; [false; true; true; false]] 1 in
  map (fun cy => map (fun cx => filled d cx cy) [0; 1; 2; 3; 4; 5]) [0; 1; 2; 3]
  = [[false; false; false; false; false; false];
     [false; true; true; false; true; false];
     [false; false; true; true; false; false];
     [false; false; false; false; false; false]].
Proof. vm_compute. reflexivity. Qed.

(* ================================================================== *)
(** * Further properties of the excavation *)
(* ================================================================== *)

Lemma excavate_row_twice e1 e2 (row : list bool) y :
  excavate_row e2 (excavate_row e1 row y) y
  = excavate_row e1 (excavate_row e2 row y) y.
Proof.
  apply list_eq. intros j. rewrite !excavate_row_lookup.
  destruct (row !! j) as [c|]; simpl; [|reflexivity].
  destruct (decide (in_excavation e1 _ y)), (decide (in_excavation e2 _ y));
    reflexivity.
Qed.

Lemma excavate_row_again e (row : list bool) y :
  excavate_row e (excavate_row e row y) y = excavate_row e row y.
Proof.
  apply list_eq. intros j. rewrite !excavate_row_lookup.
  destruct (row !! j) as [c|]; simpl; [|reflexivity].
  destruct (decide (in_excavation e _ y)); reflexivity.
Qed.

(** X1. Excavations compose: two of them clear the same cells in either
    order, and repeating one changes nothing more. *)
Theorem excavateModules_commute_idempotent (M : Modules) (e1 e2 : Excavation) :
  excavateModules (excavateModules M e1) e2
  = excavateModules (excavateModules M e2) e1
  /\ excavateModules (excavateModules M e1) e1 = excavateModules M e1.
Proof.
  split; apply list_eq; intros i; rewrite !excavateModules_lookup;
    destruct (M !! i) as [row|]; simpl; try reflexivity; f_equal.
  - apply excavate_row_twice.
  - apply excavate_row_again.
Qed.

Lemma excavate_row_unchanged e (row : list bool) y :
  (forall (j : nat), in_excavation e (Z.of_nat j) y -> row !! j <> Some true) ->
  excavate_row e row y = row.
Proof.
  intros H. apply list_eq. intros j. rewrite excavate_row_lookup.
  destruct (row !! j) as [c|] eqn:Hc; simpl; [|reflexivity].
  destruct (decide (in_excavation e (Z.of_nat j) y)) as [Hin|]; [|reflexivity].
  destruct c; [|reflexivity]. exfalso. exact (H j Hin Hc).
Qed.

(** X2. A rectangle that holds no dark cell of the matrix, because it is
    empty (no width or no height), lies outside the matrix, or covers only
    light cells, leaves the matrix as it is; nothing is clamped and nothing
    fails. *)
Theorem excavateModules_no_dark_cell_unchanged (M : Modules) (e : Excavation) :
  (forall cx cy, in_excavation e cx cy -> cell_at M cx cy = false) ->
  excavateModules M e = M.
Proof.
  intros H. apply list_eq. intros i. rewrite excavateModules_lookup.
  destruct (M !! i) as [row|] eqn:Hrow; simpl; [|reflexivity]. f_equal.
  apply excavate_row_unchanged. intros j Hin Hc.
  specialize (H _ _ Hin).
  assert (Hd : cell_at M (Z.of_nat j) (Z.of_nat i) = true).
  { apply cell_at_true. exists i, j, row. auto. }
  congruence.
Qed.

Lemma excavateModules_no_dark_cell_unchanged_witness :
  let M : Modules := [[true; false]; [false; true]] in
  excavateModules M {| ex_x := 0; ex_y := 0; ex_w := 0; ex_h := 5 |} = M
  /\ excavateModules M {| ex_x := 2; ex_y := -3; ex_w := 4; ex_h := 10 |} = M.
Proof.
  intros M. split; apply excavateModules_no_dark_cell_unchanged.
  - intros cx cy [Hx _]. simpl in Hx. lia.
  - intros cx cy [Hx _]. simpl in Hx. unfold cell_at.
    destruct (Z.ltb_spec cy 0); [rewrite orb_true_r; reflexivity|].
    destruct (Z.ltb_spec cx 0); [lia|]. simpl.
    destruct (M !! Z.to_nat cy) as [row|] eqn:Hrow; [|reflexivity].
    destruct (row !! Z.to_nat cx) as [c|] eqn:Hc; [|reflexivity].
    exfalso. apply lookup_lt_Some in Hc.
    assert (length row = 2%nat).
    { destruct (Z.to_nat cy) as [|[|k]]; simpl in Hrow; simplify_eq; reflexivity. }
    lia.
Defined.

(** X7. A logo placed without explicit coordinates need not be excavated
    inside the matrix, even when it is no larger than the rendered size.
    For a symbol of side 21 rendered at size 300 with a logo of 300 by 300
    the scaled side is 21 + 2^-48 modules, the origin is −2^-49 and the
    rectangle is {−1, −1, 22, 22}: one module beyond the matrix on every
    side.  [excavateModules] then clears the whole matrix. *)
Theorem centred_logo_excavation_leaves_matrix :
  let cells : Modules := repeat (repeat true 21%nat) 21%nat in
  let img := {| img_src := "logo.png"; img_height := 300; img_width := 300;
                img_excavate := true; img_x := None; img_y := None |} in
  exists p e x w,
    getImageSettings cells 300 2 (Some img) = Some p
    /\ ip_excavation p = Some e
    /\ number_value (ip_x p) = Some x /\ (x == - (1 # 2 ^ 49))%Q
    /\ number_value (ip_w p) = Some w /\ (w == 21 + (1 # 2 ^ 48))%Q
    /\ e = {| ed_x := -1; ed_y := -1; ed_w := 22; ed_h := 22 |}
    /\ whole_rectangle e = Some {| ex_x := -1; ex_y := -1; ex_w := 22; ex_h := 22 |}
    /\ excavateModules_doubles cells e = repeat (repeat false 21%nat) 21%nat.
Proof.
  intros cells img. do 4 eexists.
  split; [vm_compute; reflexivity|]. split; [vm_compute; reflexivity|].
  do 4 (split; [vm_compute; reflexivity|]).
  repeat split; vm_compute; reflexivity.
Qed.


(* ================================================================== *)
(** * Further properties of the path encoder *)
(* ================================================================== *)

Lemma path_cells_count m y len :
  forall (rest : list bool) x (st : PathState),
    x + Z.of_nat (length rest) = len ->
    length (ops (forEach_from (path_cell m y len) x rest st))
    = (length (ops st)
       + (match start st, rest with Some _, _ :: _ => 1 | _, _ => 0 end
          + run_starts (match start st with Some _ => true | None => false end) rest))%nat.
Proof.
  induction rest as [|cell rest IH]; intros x st Hlen.
  - simpl. destruct (start st); lia.
  - rewrite forEach_from_cons. simpl length in Hlen.
    destruct st as [o [s|]]; destruct cell.
    + unfold path_cell at 2. simpl.
      destruct (Z.eqb_spec x (len - 1)) as [Hlast|Hmore].
      * destruct rest; [|simpl in Hlen; lia]. simpl.
        rewrite length_app. simpl. lia.
      * rewrite IH by lia. simpl.
        destruct rest; [simpl in Hlen; lia|]. lia.
    + unfold path_cell at 2. simpl.
      rewrite IH by lia. simpl. rewrite length_app. simpl. lia.
    + unfold path_cell at 2. simpl.
      destruct (Z.eqb_spec x (len - 1)) as [Hlast|Hmore].
      * destruct rest; [|simpl in Hlen; lia]. simpl.
        rewrite length_app. simpl. lia.
      * rewrite IH by lia. simpl.
        destruct rest; [simpl in Hlen; lia|]. lia.
    + assert (Hstep : path_cell m y len {| ops := o; start := None |} false x
                      = {| ops := o; start := None |}).
      { unfold path_cell. simpl. destruct (x =? len - 1); reflexivity. }
      rewrite Hstep, IH by lia. simpl. lia.
Qed.

Lemma path_rows_count m :
  forall (rows : Modules) y acc,
    length (forEach_from (path_row m) y rows acc)
    = (length acc + count_runs rows)%nat.
Proof.
  induction rows as [|row rows IH]; intros y acc; simpl; [lia|].
  rewrite IH. unfold path_row, forEach.
  rewrite (path_cells_count m y (Z.of_nat (length row)) row 0) by lia.
  simpl. lia.
Qed.

(** X3. The encoder pushes exactly one operation per maximal horizontal
    run of dark cells: runs are never split, and never merged across rows
    or across a light cell.  The margin plays no part in the count. *)
Theorem generatePath_one_operation_per_run (M : Modules) (m : Z) :
  length (generatePath_ops M m) = count_runs M.
Proof.
  unfold generatePath_ops, forEach. rewrite path_rows_count. reflexivity.
Qed.

Lemma run_starts_positive (row : list bool) :
  forall (prev : bool) (j : nat),
    row !! j = Some true ->
    (0 < (if prev then 1 else 0) + run_starts prev row)%nat.
Proof.
  induction row as [|c row IH]; intros prev j Hj; [discriminate|].
  destruct j as [|j]; simpl in Hj.
  - injection Hj as ->. simpl. destruct prev; simpl; lia.
  - specialize (IH c j Hj). simpl. destruct c, prev; simpl in *; lia.
Qed.

Lemma run_starts_all_light (row : list bool) prev :
  (forall (j : nat), row !! j <> Some true) -> run_starts prev row = 0%nat.
Proof.
  revert prev. induction row as [|c row IH]; intros prev H; [reflexivity|].
  simpl. destruct c; [exfalso; exact (H 0%nat eq_refl)|].
  simpl. apply IH. intros j. exact (H (S j)).
Qed.

Lemma count_runs_zero (M : Modules) :
  count_runs M = 0%nat <-> forall x y, cell_at M x y = false.
Proof.
  split.
  - intros H x y. apply not_true_is_false. intros Hd.
    apply cell_at_true in Hd as (i & j & row & -> & -> & Hrow & Hc).
    revert i Hrow H. induction M as [|r M IH]; intros i Hrow H;
      [discriminate|].
    simpl in H. destruct i as [|i]; simpl in Hrow.
    + injection Hrow as ->.
      pose proof (run_starts_positive row false j Hc). simpl in *. lia.
    + apply (IH i Hrow). lia.
  - intros H. induction M as [|r M IH]; [reflexivity|]. simpl.
    rewrite (run_starts_all_light r false).
    + apply IH. intros x y. specialize (H x (y + 1)).
      rewrite cell_at_cons in H.
      destruct (Z.ltb_spec y 0) as [Hneg|Hnn]; [apply cell_at_neg, Hneg|].
      destruct (Z.ltb_spec (y + 1) 0); [lia|].
      destruct (Z.eqb_spec (y + 1) 0); [lia|].
      replace (y + 1 - 1) with y in H by lia. exact H.
    + intros j Hj.
      assert (Hd : cell_at (r :: M) (Z.of_nat j) 0 = true).
      { apply cell_at_true. exists 0%nat, j, r. auto. }
      rewrite H in Hd. discriminate.
Qed.

(** X4. The path is the empty string exactly when the matrix has no
    dark cell; this covers the empty matrix, empty rows and all-light
    matrices, for which nothing is drawn and nothing fails. *)
Theorem generatePath_empty_iff_no_dark_cell (M : Modules) (m : Z) :
  generatePath M m = EmptyString <-> forall x y, cell_at M x y = false.
Proof.
  rewrite <- count_runs_zero.
  pose proof (path_rows_count m M 0 []) as Hlen. simpl in Hlen.
  unfold generatePath, generatePath_ops, forEach. split.
  - intros Hempty.
    destruct (path_rows_cover m M 0 []) as (new & rs & Hops & Hdraw & _).
    rewrite Hops in Hempty, Hlen. simpl in Hempty, Hlen.
    destruct Hdraw as [|op r new' rs' Hop _]; [simpl in Hlen; lia|].
    exfalso. rewrite concat_cons in Hempty.
    specialize (Hop (String.concat EmptyString new')).
    rewrite Hempty in Hop. discriminate Hop.
  - intros Hzero. rewrite Hzero in Hlen.
    destruct (forEach_from (path_row m) 0 M []); [reflexivity | discriminate].
Qed.

Lemma filled_generatePath (M : Modules) (m cx cy : Z) :
  filled (generatePath M m) cx cy = cell_at M (cx - m) (cy - m).
Proof.
  destruct (generatePath_ops_cover M m) as (rs & Hdraw & Hpos & Hcov).
  unfold filled, generatePath.
  rewrite (winding_number_operations _ rs cx cy Hdraw Hpos), Hcov.
  destruct (cell_at M (cx - m) (cy - m)); reflexivity.
Qed.

Lemma excavateModules_length (M : Modules) e : length (excavateModules M e) = length M.
Proof. unfold excavateModules, map_i. apply map_from_length. Qed.

(** X5. Excavation composes with both renderers: in path mode a cell
    is filled, and in styled mode a module gets its shape, exactly when it
    is dark in the encoder's matrix and lies outside the excavated
    rectangle; nothing is ever drawn on an excavated cell. *)
Theorem nothing_drawn_on_excavated_cells (M : Modules) (e : Excavation) (m : Z)
    (dot : QRDotStyle) (corner : QRCornerStyle) :
  (forall cx cy,
     filled (generatePath (excavateModules M e) m) cx cy = true
     <-> cell_at M (cx - m) (cy - m) = true /\ ~ in_excavation e (cx - m) (cy - m))
  /\ (forall el,
        el ∈ generateStyledModules (excavateModules M e) m dot corner
        <-> exists x y,
              cell_at M x y = true /\ ~ in_excavation e x y
              /\ el = styled_shape (Z.of_nat (length M)) m dot corner x y).
Proof.
  split.
  - intros cx cy. rewrite filled_generatePath, cell_at_excavateModules.
    destruct (decide (in_excavation e (cx - m) (cy - m))) as [Hin|Hout].
    + split; [discriminate | tauto].
    + tauto.
  - intros el. rewrite generateStyledModules_elem_of, excavateModules_length.
    split.
    + intros (x & y & Hd & ->). exists x, y.
      rewrite cell_at_excavateModules in Hd.
      destruct (decide (in_excavation e x y)); [discriminate|]. auto.
    + intros (x & y & Hd & Hout & ->). exists x, y.
      rewrite cell_at_excavateModules, decide_False by exact Hout. auto.
Qed.

(* ================================================================== *)
(** * Further properties of the styled renderer *)
(* ================================================================== *)

Section Tagged.
Context {A B : Type}.

Lemma fmap_concat_map_from {C : Type} (f : B -> C) (g : A -> Z -> list B) l :
  forall i, f <$> concat (map_from g i l)
            = concat (map_from (fun a k => f <$> g a k) i l).
Proof.
  induction l as [|a l IH]; intros i; simpl; [reflexivity|].
  rewrite fmap_app, IH. reflexivity.
Qed.

(** Pieces that carry their own index never collide. *)
Lemma NoDup_concat_map_from (g : A -> Z -> list B) (tag : B -> Z) :
  (forall a k b, b ∈ g a k -> tag b = k) ->
  (forall a k, NoDup (g a k)) ->
  forall l i, NoDup (concat (map_from g i l)).
Proof.
  intros Htag Hnd. induction l as [|a l IH]; intros i; simpl; [constructor|].
  apply NoDup_app. split; [apply Hnd|]. split; [|apply IH].
  intros b Hb Hb'. apply elem_of_concat_map_from in Hb' as (k & a' & _ & Hb').
  apply Htag in Hb, Hb'. lia.
Qed.

Lemma concat_map_from_ge (g : A -> Z -> list B) (tag : B -> Z) :
  (forall a k b, b ∈ g a k -> tag b = k) ->
  forall l i b, b ∈ concat (map_from g i l) -> i <= tag b.
Proof.
  intros Htag l i b Hb.
  apply elem_of_concat_map_from in Hb as (k & a & _ & Hb).
  apply Htag in Hb. lia.
Qed.

End Tagged.

Lemma dark_row_tag (row : list bool) (y : Z) i (p : Z * Z) :
  p ∈ concat (map_from (fun (cell : bool) x => if cell then [(x, y)] else []) i row) ->
  snd p = y /\ i <= fst p.
Proof.
  intros Hp. apply elem_of_concat_map_from in Hp as (k & c & _ & Hp).
  destruct c; [|inversion Hp].
  apply list_elem_of_singleton in Hp as ->. simpl. lia.
Qed.

Lemma dark_coords_NoDup (M : Modules) : NoDup (dark_coords M).
Proof.
  unfold dark_coords.
  apply (NoDup_concat_map_from _ snd).
  - intros row y p Hp. apply (dark_row_tag row y 0 p Hp).
  - intros row y. apply (NoDup_concat_map_from _ fst).
    + intros c x p Hp. destruct c; [|inversion Hp].
      apply list_elem_of_singleton in Hp as ->. reflexivity.
    + intros c x. destruct c; [apply NoDup_singleton | constructor].
Qed.

Lemma dark_coords_nonneg (M : Modules) (p : Z * Z) :
  p ∈ dark_coords M -> 0 <= fst p /\ 0 <= snd p.
Proof.
  unfold dark_coords. intros Hp.
  apply elem_of_concat_map_from in Hp as (i & row & _ & Hp).
  apply dark_row_tag in Hp as [Hy Hx]. lia.
Qed.

Lemma dark_row_length (row : list bool) (y : Z) :
  forall i,
    length (concat (map_from (fun (cell : bool) x => if cell then [(x, y)] else []) i row))
    = count_dark_row row.
Proof.
  induction row as [|c row IH]; intros i; simpl; [reflexivity|].
  rewrite length_app, IH. destruct c; reflexivity.
Qed.

Lemma dark_rows_length (M : Modules) :
  forall i,
    length (concat (map_from
      (fun row y =>
         concat (map_from (fun (cell : bool) x => if cell then [(x, y)] else []) 0 row))
      i M))
    = count_dark M.
Proof.
  induction M as [|row M IH]; intros i; simpl; [reflexivity|].
  rewrite length_app, IH, dark_row_length. reflexivity.
Qed.

Lemma dark_coords_length (M : Modules) : length (dark_coords M) = count_dark M.
Proof. apply dark_rows_length. Qed.

Lemma generateStyledModules_coords (M : Modules) margin dot corner :
  generateStyledModules M margin dot corner
  = (fun p => styled_shape (Z.of_nat (length M)) margin dot corner (fst p) (snd p))
    <$> dark_coords M.
Proof.
  rewrite generateStyledModules_elements. unfold dark_coords.
  rewrite fmap_concat_map_from.
  generalize (Z.of_nat (length M)). intros N.
  assert (Hrow : forall (row : list bool) y j,
            concat (map_from
              (fun (cell : bool) x =>
                 if cell then [styled_shape N margin dot corner x y] else []) j row)
            = (fun p => styled_shape N margin dot corner (fst p) (snd p))
              <$> concat (map_from
                    (fun (cell : bool) x => if cell then [(x, y)] else []) j row)).
  { intros row y. induction row as [|c row IHrow]; intros j; simpl; [reflexivity|].
    rewrite fmap_app, <- IHrow. destruct c; reflexivity. }
  assert (Hrows : forall i,
            concat (map_from
              (fun row y =>
                 concat (map_from
                   (fun (cell : bool) x =>
                      if cell then [styled_shape N margin dot corner x y] else [])
                   0 row)) i M)
            = concat (map_from
                (fun row y =>
                   (fun p => styled_shape N margin dot corner (fst p) (snd p))
                   <$> concat (map_from
                         (fun (cell : bool) x => if cell then [(x, y)] else []) 0 row))
                i M)).
  { induction M as [|row M IH]; intros i; simpl; [reflexivity|].
    rewrite IH, Hrow. reflexivity. }
  apply Hrows.
Qed.

Lemma element_key_styled_shape N margin dot corner x y :
  element_key (styled_shape N margin dot corner x y) = module_key x y.
Proof.
  unfold styled_shape. destruct (isFinderModule N x y).
  - destruct corner; reflexivity.
  - destruct dot; reflexivity.
Qed.

Lemma string_of_Z_inj (a b : Z) : string_of_Z a = string_of_Z b -> a = b.
Proof.
  intros H. pose proof (flush_number a) as Ha. rewrite H, flush_number in Ha.
  congruence.
Qed.

Lemma string_of_Z_digits (z : Z) : 0 <= z -> all_digits (string_of_Z z) = true.
Proof.
  intros Hz. unfold string_of_Z. destruct z as [|p|p]; [reflexivity| |lia].
  simpl. rewrite string_of_uint_nonnil by apply DecimalPos.Unsigned.to_uint_nonnil.
  apply all_digits_uint.
Qed.

Lemma digits_dash_inj (a : string) :
  forall a' r r',
    all_digits a = true -> all_digits a' = true ->
    a +:+ String "-" r = a' +:+ String "-" r' -> a = a' /\ r = r'.
Proof.
  induction a as [|c a IH]; intros [|c' a'] r r' Ha Ha' H.
  - rewrite !append_nil_l in H. injection H as ->. auto.
  - rewrite append_nil_l, append_cons in H. injection H as <- _.
    simpl in Ha'. discriminate.
  - rewrite append_nil_l, append_cons in H. injection H as -> _.
    simpl in Ha. discriminate.
  - rewrite !append_cons in H. injection H as -> H.
    simpl in Ha, Ha'.
    apply andb_true_iff in Ha as [_ Ha]. apply andb_true_iff in Ha' as [_ Ha'].
    destruct (IH a' r r' Ha Ha' H) as [-> ->]. auto.
Qed.

Lemma module_key_inj (x y x' y' : Z) :
  0 <= x -> 0 <= x' -> module_key x y = module_key x' y' -> x = x' /\ y = y'.
Proof.
  intros Hx Hx' H. unfold module_key in H.
  change ("-" +:+ ?s) with (String "-" s) in H.
  apply digits_dash_inj in H as [Ha Hb]; try (apply string_of_Z_digits; assumption).
  split; apply string_of_Z_inj; assumption.
Qed.

(** X6. The styled renderer emits one primitive per dark module, no
    more and no fewer, and no two primitives share a [key]. *)
Theorem generateStyledModules_one_keyed_element_per_dark_module
    (M : Modules) (margin : Z) (dot : QRDotStyle) (corner : QRCornerStyle) :
  length (generateStyledModules M margin dot corner) = count_dark M
  /\ NoDup (element_key <$> generateStyledModules M margin dot corner).
Proof.
  rewrite generateStyledModules_coords. split.
  - rewrite length_fmap. apply dark_coords_length.
  - rewrite <- list_fmap_compose.
    apply NoDup_fmap_2_strong; [|apply dark_coords_NoDup].
    intros [x y] [x' y'] Hp Hp' Hkey. simpl in Hkey.
    rewrite !element_key_styled_shape in Hkey.
    apply dark_coords_nonneg in Hp, Hp'. simpl in Hp, Hp'.
    apply module_key_inj in Hkey as [-> ->]; [reflexivity | lia | lia].
Qed.

(* ================================================================== *)
(** * Further properties of the layout *)
(* ================================================================== *)

Lemma ERROR_LEVEL_MAP_defined (level : string) :
  is_Some (ERROR_LEVEL_MAP !! level) <-> In level QR_LEVELS.
Proof.
  unfold ERROR_LEVEL_MAP, QR_LEVELS. simpl.
  rewrite !lookup_insert, lookup_empty.
  repeat (destruct (decide (_ = level)) as [<-|?];
          [split; [intros _; tauto | intros _; eexists; reflexivity]|]).
  split; [intros [? ?]; discriminate | tauto].
Qed.

Lemma get_property_own {A : Type} (o : gmap string A) (k : string) (a : A) :
  get_property o k = Some (Own a) <-> o !! k = Some a.
Proof.
  unfold get_property. destruct (o !! k) as [b|].
  - split; intros [= ->]; reflexivity.
  - destruct (bool_decide _); split; discriminate.
Qed.

Lemma get_property_missing {A : Type} (o : gmap string A) (k : string) :
  o !! k = None ->
  get_property o k
  = if bool_decide (k ∈ Object_prototype) then Some (Inherited k) else None.
Proof. intros H. unfold get_property. rewrite H. reflexivity. Qed.

(** X9. The encoder is handed a correction level of the table exactly
    when the requested level is one of L, M, Q, H.  Any other level string
    is passed through unchanged, and the encoder is then handed the member
    of [Object.prototype] of that name when there is one, and [undefined]
    otherwise. *)
Theorem effectiveLevel_defined_iff_requested_valid (props : QRPropsSVG) :
  ((exists ecc,
      get_property ERROR_LEVEL_MAP (effectiveLevel props) = Some (Own ecc))
   <-> In (requested_level props) QR_LEVELS)
  /\ (~ In (requested_level props) QR_LEVELS ->
      effectiveLevel props = requested_level props
      /\ get_property ERROR_LEVEL_MAP (effectiveLevel props)
         = if bool_decide (requested_level props ∈ Object_prototype)
           then Some (Inherited (requested_level props)) else None).
Proof.
  assert (Hown : forall level,
             (exists ecc, get_property ERROR_LEVEL_MAP level = Some (Own ecc))
             <-> In level QR_LEVELS).
  { intros level. rewrite <- ERROR_LEVEL_MAP_defined. unfold is_Some.
    split; intros [ecc H]; exists ecc; apply get_property_own; exact H. }
  rewrite Hown, effectiveLevel_cases.
  unfold escalation_requested.
  destruct (String.eqb_spec (requested_level props) "L") as [HL|HL].
  { rewrite HL. simpl.
    split; [destruct (_ || _); simpl; tauto | intros H; exfalso; apply H; tauto]. }
  destruct (String.eqb_spec (requested_level props) "M") as [HM|HM].
  { rewrite HM. simpl.
    split; [destruct (_ || _); simpl; tauto | intros H; exfalso; apply H; tauto]. }
  simpl. split; [reflexivity|].
  intros H. split; [reflexivity|].
  apply get_property_missing, eq_None_not_Some.
  rewrite ERROR_LEVEL_MAP_defined. exact H.
Qed.

Lemma effectiveLevel_defined_iff_requested_valid_witness :
  let props level :=
    {| p_value := "https://dub.sh/x"; p_size := None; p_level := Some level;
       p_bgColor := None; p_fgColor := None; p_margin := None;
       p_isOGContext := None; p_imageSettings := None;
       p_qrType := Some custom; p_qrStyle := None |} in
  (effectiveLevel (props "l") = "l"
   /\ get_property ERROR_LEVEL_MAP (effectiveLevel (props "l")) = None)
  /\ (effectiveLevel (props "constructor") = "constructor"
      /\ get_property ERROR_LEVEL_MAP (effectiveLevel (props "constructor"))
         = Some (Inherited "constructor")).
Proof.
  intros props. split.
  - destruct (effectiveLevel_defined_iff_requested_valid (props "l")) as [_ H].
    apply H. simpl. intros [?|[?|[?|[?|[]]]]]; discriminate.
  - destruct (effectiveLevel_defined_iff_requested_valid (props "constructor"))
      as [_ H].
    apply H. simpl. intros [?|[?|[?|[?|[]]]]]; discriminate.
Defined.

(** X10. A gradient definition is part of the document exactly for type
    holographic with a style record; it then has two stops, and the fill
    of the modules refers to the definition's own id while the foreground
    colour goes unused.  Type custom never carries a gradient, whatever
    gradient fields its style record has, and is filled with the
    foreground colour. *)
Theorem gradient_only_for_holographic enc (props : QRPropsSVG) (doc : SvgDoc) :
  QRCodeSVG enc props = Some doc ->
  (is_Some (svg_defs doc)
   <-> p_qrType props = Some holographic /\ is_Some (p_qrStyle props))
  /\ (forall g, svg_defs doc = Some g ->
        length (gradient_stops g) = 2%nat
        /\ exists els,
             svg_fg doc = FgStyled ("url(#" +:+ gradient_id g +:+ ")") els)
  /\ (p_qrType props = Some custom -> is_Some (p_qrStyle props) ->
      svg_defs doc = None
      /\ exists els,
           svg_fg doc = FgStyled (default DEFAULT_FGCOLOR (p_fgColor props)) els).
Proof.
  intros Hdoc.
  destruct (QRCodeSVG_encodes _ _ _ Hdoc) as [cells0 Henc].
  destruct (QRCodeSVG_document _ _ _ Henc)
    as (doc' & Hdoc' & _ & _ & _ & _ & _ & _ & Hfg & Hdefs).
  rewrite Hdoc in Hdoc'. injection Hdoc' as <-.
  rewrite Hdefs, Hfg. clear Hdefs Hfg Hdoc Henc.
  split; [|split].
  - destruct (p_qrType props) as [[]|], (p_qrStyle props) as [style|]; simpl;
      split; try (intros [? ?]; discriminate);
      try (intros [? [? ?]]; discriminate).
    + intros _. split; [reflexivity | eexists; reflexivity].
    + intros _. eexists; reflexivity.
  - intros g Hg.
    destruct (p_qrType props) as [[]|], (p_qrStyle props) as [style|];
      simpl in *; try discriminate.
    injection Hg as <-. unfold generateGradientDef.
    destruct (String.eqb _ "radial"); [split; [reflexivity | eauto]|].
    destruct (String.eqb _ "vertical"); [split; [reflexivity | eauto]|].
    destruct (String.eqb _ "diagonal"); split; try reflexivity; eauto.
  - intros Ht [style Hs]. rewrite Ht, Hs. simpl. split; [reflexivity | eauto].
Qed.

Lemma gradient_only_for_holographic_witness :
  let style := {| dotStyle := None; cornerStyle := None;
                  gradientDirection := Some "diagonal";
                  gradientStartColor := Some "#FFD700";
                  gradientEndColor := Some "#50C878" |} in
  let props :=
    {| p_value := "https://dub.sh/x"; p_size := None; p_level := None;
       p_bgColor := None; p_fgColor := Some "#112233"; p_margin := None;
       p_isOGContext := None; p_imageSettings := None;
       p_qrType := Some custom; p_qrStyle := Some style |} in
  let enc : string -> option (Value Ecc) -> option Modules := fun _ _ => Some [[true]] in
  exists doc els,
    QRCodeSVG enc props = Some doc
    /\ svg_defs doc = None /\ svg_fg doc = FgStyled "#112233" els.
Proof.
  intros style props enc.
  destruct (QRCodeSVG enc props) as [doc|] eqn:Hdoc; [|discriminate].
  destruct (gradient_only_for_holographic enc props doc Hdoc) as (_ & _ & H).
  destruct (H eq_refl ltac:(eexists; reflexivity)) as (Hdefs & els & Hfg).
  exists doc, els. auto.
Defined.

(** X11. Without image settings the raster-context flag changes nothing
    in the document, and the matrix drawn is the encoder's own: the flag
    only matters through the logo. *)
Theorem isOGContext_only_matters_with_logo enc (props : QRPropsSVG)
    (b : option bool) :
  p_imageSettings props = None ->
  QRCodeSVG enc (with_isOGContext props b) = QRCodeSVG enc props
  /\ effectiveLevel (with_isOGContext props b) = effectiveLevel props
  /\ (forall cells0, rendered_cells props cells0 = cells0).
Proof.
  intros Himg.
  assert (Hlevel : effectiveLevel (with_isOGContext props b) = effectiveLevel props).
  { unfold effectiveLevel, shouldUseHigherErrorLevel. simpl. rewrite Himg.
    rewrite !andb_false_r. reflexivity. }
  split; [|split; [exact Hlevel|]].
  - unfold QRCodeSVG. rewrite Hlevel. simpl. rewrite Himg.
    change (effectiveMargin (with_isOGContext props b)) with (effectiveMargin props).
    reflexivity.
  - intros cells0. unfold rendered_cells. rewrite Himg. reflexivity.
Qed.

Lemma isOGContext_only_matters_with_logo_witness :
  let props :=
    {| p_value := "https://dub.sh/x"; p_size := None; p_level := Some "L";
       p_bgColor := None; p_fgColor := None; p_margin := None;
       p_isOGContext := None; p_imageSettings := None;
       p_qrType := None; p_qrStyle := None |} in
  let enc : string -> option (Value Ecc) -> option Modules :=
    fun _ ecc => match ecc with Some (Own LOW) => Some [[true]] | _ => None end in
  QRCodeSVG enc (with_isOGContext props (Some true)) = QRCodeSVG enc props.
Proof.
  intros props enc.
  exact (proj1 (isOGContext_only_matters_with_logo enc props (Some true) eq_refl)).
Defined.

(* ================================================================== *)
(** * Further properties of the plan gate and the image route *)
(* ================================================================== *)

Lemma required_plan_tier_le_2 (t : string) :
  In (required_plan t) ["free"; "pro"; "business"]
  /\ 0 <= plan_tier (Some (required_plan t)) <= 2.
Proof.
  unfold required_plan.
  repeat (case_decide; [simpl; split; [tauto | lia]|]).
  simpl; split; [tauto | lia].
Qed.

(** The level required of a type string, listed, unlisted or inherited,
    is a number between 0 and 2: the printed form of an inherited member
    is no key of the hierarchy. *)
Lemma required_level_bounds (t : string) :
  exists n,
    default (Own 0)
      (get_property PLAN_HIERARCHY
         (to_string (value_or (get_property QR_TYPE_PLAN_REQUIREMENTS t) "business")))
    = Own n
    /\ 0 <= n <= 2.
Proof.
  destruct (decide (t ∈ Object_prototype)) as [Hin|Hout].
  - apply list_elem_of_In in Hin. simpl in Hin.
    repeat (destruct Hin as [<-|Hin]; [exists 0; split; [reflexivity | lia]|]).
    destruct Hin.
  - rewrite (required_level_ordinary _ Hout). cbn [to_string].
    rewrite (plan_level_ordinary _ (required_plan_ordinary t)).
    eexists. split; [reflexivity|]. apply required_plan_tier_le_2.
Qed.

(** On plans that name no inherited member the gate compares the tier of
    the plan with a level between 0 and 2 that depends on the type only. *)
Lemma allowed_by_tier (t : string) :
  exists n,
    0 <= n <= 2
    /\ forall p, (forall s, p = Some s -> s ∉ Object_prototype) ->
                 allowed (checkQRTypePlanAccess t p) = (plan_tier p >=? n).
Proof.
  destruct (required_level_bounds t) as (n & Hn & Hrange).
  exists n. split; [exact Hrange|]. intros p Hp.
  unfold checkQRTypePlanAccess. cbn [allowed]. rewrite Hn.
  rewrite (plan_level_ordinary _ (str_or_free_ordinary _ Hp)), plan_tier_str_or.
  reflexivity.
Qed.

(** X12. The gate is monotone in the plan: among plans that do not name
    a member of [Object.prototype], a type string, listed or not, that is
    allowed on one plan is allowed on every plan of at least the same
    level.  The enterprise plan is allowed every type string, and for a
    type string that names no inherited member the required plan is always
    free, pro or business. *)
Theorem checkQRTypePlanAccess_monotone :
  (forall (t : string) (p p' : option string),
     (forall s, p = Some s -> s ∉ Object_prototype) ->
     (forall s, p' = Some s -> s ∉ Object_prototype) ->
     plan_tier p <= plan_tier p' ->
     allowed (checkQRTypePlanAccess t p) = true ->
     allowed (checkQRTypePlanAccess t p') = true)
  /\ (forall t : string, allowed (checkQRTypePlanAccess t (Some "enterprise")) = true)
  /\ (forall (t : string) p,
        t ∉ Object_prototype ->
        exists s,
          requiredPlan (checkQRTypePlanAccess t p) = Own s
          /\ In s ["free"; "pro"; "business"]).
Proof.
  split; [|split].
  - intros t p p' Hp Hp' Hle.
    destruct (allowed_by_tier t) as (n & _ & Hn).
    rewrite (Hn p Hp), (Hn p' Hp'), !Z.geb_le. lia.
  - intros t. destruct (allowed_by_tier t) as (n & Hrange & Hn).
    rewrite Hn.
    + rewrite Z.geb_le. change (plan_tier (Some "enterprise")) with 3. lia.
    + intros s [= <-]. apply not_inherited. reflexivity.
  - intros t p Ht. exists (required_plan t). split.
    + unfold checkQRTypePlanAccess. cbn [requiredPlan].
      apply required_level_ordinary, Ht.
    + apply required_plan_tier_le_2.
Qed.

Lemma checkQRTypePlanAccess_monotone_witness :
  allowed (checkQRTypePlanAccess "custom" (Some "business")) = true
  /\ allowed (checkQRTypePlanAccess "unheard-of" (Some "enterprise")) = true.
Proof.
  destruct checkQRTypePlanAccess_monotone as (Hmono & Htop & _).
  split; [|apply Htop].
  apply (Hmono "custom" (Some "pro") (Some "business")).
  - intros s [= <-]. apply not_inherited. reflexivity.
  - intros s [= <-]. apply not_inherited. reflexivity.
  - vm_compute. discriminate.
  - reflexivity.
Defined.

(** X13. A workspace whose plan name is neither a key of the hierarchy
    nor a member of [Object.prototype] is gated exactly like a free one:
    of the six types it is allowed standard and micro only. *)
Theorem unlisted_plan_is_gated_as_free (s : string) (t : QRCodeType) :
  get_property PLAN_HIERARCHY s = None ->
  allowed (checkQRTypePlanAccess (qrType_name t) (Some s))
  = allowed (checkQRTypePlanAccess (qrType_name t) (Some "free"))
  /\ (allowed (checkQRTypePlanAccess (qrType_name t) (Some s)) = true
      <-> t = standard \/ t = micro).
Proof.
  intros Hs.
  assert (Hlevel : default (Own 0)
                     (get_property PLAN_HIERARCHY (str_or (Some s) "free"))
                   = Own 0).
  { destruct s as [|c s]; [reflexivity|]. simpl str_or. rewrite Hs. reflexivity. }
  unfold checkQRTypePlanAccess. cbn [allowed]. rewrite Hlevel.
  destruct t; vm_compute; (split; [reflexivity|]);
    split; try discriminate; try tauto;
    intros [?|?]; discriminate.
Qed.

Lemma unlisted_plan_is_gated_as_free_witness :
  allowed (checkQRTypePlanAccess "compact" (Some "advanced")) = false
  /\ allowed (checkQRTypePlanAccess "micro" (Some "advanced")) = true.
Proof.
  destruct (unlisted_plan_is_gated_as_free "advanced" compact eq_refl) as [_ Hc].
  destruct (unlisted_plan_is_gated_as_free "advanced" micro eq_refl) as [_ Hm].
  split.
  - apply not_true_is_false. intros H. apply Hc in H as [?|?]; discriminate.
  - apply Hm. right. reflexivity.
Defined.

Section RouteFacts.

Variable encodeText : string -> option (Value Ecc) -> option Modules.
Variable getShortLinkViaEdge : string -> option ShortLink.
Variable getWorkspaceViaEdge : string -> option Workspace.
Variable getDomainViaEdge : string -> option Domain.
Variable isDubDomain : string -> bool.
Variable DUB_QR_LOGO : string.

Let logo_of :=
  getQRCodeLogo getShortLinkViaEdge getWorkspaceViaEdge getDomainViaEdge
    isDubDomain DUB_QR_LOGO.

Let props_of :=
  route_props getShortLinkViaEdge getWorkspaceViaEdge getDomainViaEdge
    isDubDomain DUB_QR_LOGO.

(** X14. Branding: for a URL that is no known short link, and for a
    workspace plan that is missing, empty or free, the logo is the default
    one whatever logo or hide flag the request carries.  No logo at all is
    returned exactly when the link is known, the plan is set and not free,
    and the hide flag is on; and a logo that is returned is never the
    empty string unless the default logo is. *)
Theorem getQRCodeLogo_branding (url : string) (logo : option string)
    (hideLogo : bool) (workspacePlan : option string) :
  (getShortLinkViaEdge (before_query url) = None
   \/ truthy workspacePlan = false \/ workspacePlan = Some "free" ->
   logo_of url logo hideLogo workspacePlan = Some DUB_QR_LOGO)
  /\ (logo_of url logo hideLogo workspacePlan = None
      <-> is_Some (getShortLinkViaEdge (before_query url))
          /\ truthy workspacePlan = true /\ workspacePlan <> Some "free"
          /\ hideLogo = true)
  /\ (forall s, logo_of url logo hideLogo workspacePlan = Some s ->
                s = DUB_QR_LOGO \/ s <> EmptyString).
Proof.
  subst logo_of. unfold getQRCodeLogo.
  destruct (getShortLinkViaEdge (before_query url)) as [sl|].
  2:{ split; [reflexivity|]. split.
      - split; [discriminate | intros ([? ?] & _); discriminate].
      - intros s [= <-]. left. reflexivity. }
  destruct (truthy workspacePlan) eqn:Hplan; simpl.
  2:{ split; [reflexivity|]. split.
      - split; [discriminate | intros (_ & ? & _); discriminate].
      - intros s [= <-]. left. reflexivity. }
  case_bool_decide as Hfree.
  { split; [reflexivity|]. split.
    - split; [discriminate | intros (_ & _ & ? & _); contradiction].
    - intros s [= <-]. left. reflexivity. }
  assert (Hnonempty : forall (o : option string) s,
             truthy o = true -> o = Some s -> s <> EmptyString).
  { intros [[|c r]|] s Ht Ho; simpl in Ht; try discriminate.
    injection Ho as <-. discriminate. }
  split; [intros [?|[?|?]]; [discriminate | discriminate | contradiction]|].
  destruct hideLogo.
  { split; [split; [intros _; eauto 6 | reflexivity]|]. discriminate. }
  split.
  { split; [|intros (_ & _ & _ & ?); discriminate].
    destruct (truthy logo) eqn:Hl; [destruct logo as [[|]|]; discriminate|].
    destruct (_ && _); [discriminate|].
    destruct (truthy (getDomainViaEdge (domain sl) ≫= dom_logo)) eqn:Hd.
    { destruct (getDomainViaEdge (domain sl) ≫= dom_logo) as [[|]|]; discriminate. }
    destruct (truthy (getWorkspaceViaEdge (projectId sl) ≫= ws_logo)) eqn:Hw;
      [|discriminate].
    destruct (getWorkspaceViaEdge (projectId sl) ≫= ws_logo) as [[|]|]; discriminate. }
  intros s.
  destruct (truthy logo) eqn:Hl; [intros H; right; exact (Hnonempty _ _ Hl H)|].
  destruct (_ && _); [intros [= <-]; left; reflexivity|].
  destruct (truthy (getDomainViaEdge (domain sl) ≫= dom_logo)) eqn:Hd;
    [intros H; right; exact (Hnonempty _ _ Hd H)|].
  destruct (truthy (getWorkspaceViaEdge (projectId sl) ≫= ws_logo)) eqn:Hw;
    [intros H; right; exact (Hnonempty _ _ Hw H)|].
  intros [= <-]. left. reflexivity.
Qed.

End RouteFacts.

Lemma before_query_no_mark (url : string) (n : nat) :
  String.get n (before_query url) <> Some "?"%char.
Proof.
  revert n. induction url as [|c url IH]; intros n; simpl; [destruct n; discriminate|].
  destruct (Ascii.eqb_spec c "?") as [->|Hc]; [destruct n; discriminate|].
  destruct n as [|n]; simpl; [congruence | apply IH].
Qed.

(** X15. The part of the URL looked up as a short link is the URL up to
    its first question mark: it holds no question mark, the URL is that
    part followed by nothing or by a rest that begins with the question
    mark, and a URL without one is looked up whole. *)
Theorem before_query_splits_at_first_mark (url : string) :
  (forall n, String.get n (before_query url) <> Some "?"%char)
  /\ (exists rest,
        url = before_query url +:+ rest
        /\ (rest = EmptyString \/ exists r, rest = String "?" r))
  /\ ((forall n, String.get n url <> Some "?"%char) -> before_query url = url)
  /\ before_query (before_query url) = before_query url.
Proof.
  split; [apply before_query_no_mark|].
  assert (Hid : forall u, (forall n, String.get n u <> Some "?"%char) ->
                          before_query u = u).
  { induction u as [|c u IH]; intros H; [reflexivity|]. simpl.
    destruct (Ascii.eqb_spec c "?") as [->|Hc]; [exfalso; exact (H 0%nat eq_refl)|].
    f_equal. apply IH. intros n. exact (H (S n)). }
  split; [|split; [apply Hid | apply Hid, before_query_no_mark]].
  induction url as [|c url (rest & Hrest & Hshape)]; simpl.
  - exists EmptyString. split; [reflexivity | left; reflexivity].
  - destruct (Ascii.eqb_spec c "?") as [->|Hc].
    + exists (String "?" url). split; [reflexivity | right; eauto].
    + exists rest. rewrite append_cons, <- Hrest. split; [reflexivity | exact Hshape].
Qed.

Lemma before_query_splits_at_first_mark_witness :
  before_query "https://dub.sh/x" = "https://dub.sh/x"
  /\ before_query "https://dub.sh/x?a=1?b" = "https://dub.sh/x".
Proof.
  split; [|reflexivity].
  destruct (before_query_splits_at_first_mark "https://dub.sh/x") as (_ & _ & H & _).
  apply H. intros n.
  do 17 (destruct n as [|n]; [discriminate|]). discriminate.
Defined.

Section RouteRendering.

Variable encodeText : string -> option (Value Ecc) -> option Modules.
Variable getShortLinkViaEdge : string -> option ShortLink.
Variable getWorkspaceViaEdge : string -> option Workspace.
Variable getDomainViaEdge : string -> option Domain.
Variable isDubDomain : string -> bool.
Variable DUB_QR_LOGO : string.

Let props_of :=
  route_props getShortLinkViaEdge getWorkspaceViaEdge getDomainViaEdge
    isDubDomain DUB_QR_LOGO.

(** X16. Through the image route a logo always comes with excavation in
    the raster context, so a request at level L or M that carries a logo is
    encoded at Q; a request without a logo keeps its level unless its type
    is custom or holographic. *)
Theorem route_logo_escalates_level (q : QRQuery) (workspacePlan : option string) :
  let rp := props_of q workspacePlan in
  (forall img, p_imageSettings rp = Some img ->
               img_excavate img = true /\ p_isOGContext rp = Some true)
  /\ (is_Some (p_imageSettings rp) ->
      q_level q = "L" \/ q_level q = "M" ->
      effectiveLevel rp = "Q")
  /\ (p_imageSettings rp = None ->
      is_styled_type (q_qrType q) = false ->
      effectiveLevel rp = q_level q).
Proof.
  intros rp. subst rp props_of. unfold route_props.
  match goal with
  | |- context [ getQRCodeLogo ?a ?b ?c ?d ?e ?f ?g ?h ?i ] =>
      generalize (getQRCodeLogo a b c d e f g h i)
  end.
  intros logo. unfold effectiveLevel, shouldUseHigherErrorLevel. simpl.
  destruct logo as [[|c s]|]; simpl.
  - split; [discriminate|]. split; [intros [? ?]; discriminate|].
    intros _ Hs. rewrite Hs. reflexivity.
  - split; [intros img [= <-]; auto|]. split; [|discriminate].
    intros _ [Hl|Hl]; rewrite Hl; reflexivity.
  - split; [discriminate|]. split; [intros [? ?]; discriminate|].
    intros _ Hs. rewrite Hs. reflexivity.
Qed.

(** X17. Through the image route types custom and holographic are always
    drawn in styled mode, with the dot and corner style of the query and
    the requested margin; the style record the route builds always names
    both styles, so the type-dependent default of the renderer never
    applies there. *)
Theorem route_styled_types_use_query_styles (q : QRQuery)
    (workspacePlan : option string) (cells0 : Modules) :
  let rp := props_of q workspacePlan in
  is_styled_type (q_qrType q) = true ->
  encodeText (q_url q) (get_property ERROR_LEVEL_MAP (effectiveLevel rp)) = Some cells0 ->
  exists doc fill,
    QRCodeSVG encodeText rp = Some doc
    /\ svg_fg doc
       = FgStyled fill
           (generateStyledModules (rendered_cells rp cells0) (q_margin q)
              (q_dotStyle q) (q_cornerStyle q))
    /\ (is_Some (svg_defs doc) <-> q_qrType q = holographic).
Proof.
  intros rp Hstyled Henc.
  assert (Hv : p_value rp = q_url q) by reflexivity.
  assert (Ht : p_qrType rp = Some (q_qrType q)) by reflexivity.
  assert (Hm : effectiveMargin rp = q_margin q).
  { unfold effectiveMargin. rewrite Ht. simpl.
    destruct (q_qrType q); try discriminate; reflexivity. }
  assert (Hs : exists g1 g2 g3,
             p_qrStyle rp = Some {| dotStyle := Some (q_dotStyle q);
                                    cornerStyle := Some (q_cornerStyle q);
                                    gradientDirection := g1;
                                    gradientStartColor := g2;
                                    gradientEndColor := g3 |}).
  { subst rp props_of. unfold route_props. simpl. rewrite Hstyled. eauto. }
  destruct Hs as (g1 & g2 & g3 & Hs).
  clearbody rp. rewrite <- Hv in Henc.
  destruct (QRCodeSVG_document _ _ _ Henc)
    as (doc & Hdoc & _ & _ & _ & _ & _ & _ & Hfg & Hdefs).
  rewrite Ht, Hm, Hs in Hfg. rewrite Ht, Hs in Hdefs. simpl in Hfg, Hdefs.
  rewrite Hstyled in Hfg. simpl in Hfg.
  exists doc. eexists. split; [exact Hdoc|]. split; [exact Hfg|].
  rewrite Hdefs.
  destruct (q_qrType q); try discriminate; simpl; split;
    try (intros [? ?]; discriminate); try discriminate; eauto.
Qed.

End RouteRendering.

Lemma route_styled_types_use_query_styles_witness :
  let cells0 : Modules :=
    map (fun y => map (fun x => (x =? y) && ((x =? 0) || (x =? 10) || (x =? 20)))
                      (seqZ 0 21))
        (seqZ 0 21) in
  let q :=
    {| q_logo := None; q_url := "https://dub.sh/x?ref=1"; q_size := 600;
       q_level := "L"; q_fgColor := "#000000"; q_bgColor := "#FFFFFF";
       q_margin := 2; q_hideLogo := false; q_qrType := holographic;
       q_dotStyle := DotCircle; q_cornerStyle := CornerRounded;
       q_gradientDirection := "radial";
       q_gradientStartColor := "#8A2BE2"; q_gradientEndColor := "#00CED1" |} in
  let enc : string -> option (Value Ecc) -> option Modules :=
    fun _ _ => Some cells0 in
  let getShortLink : string -> option ShortLink :=
    fun _ => Some {| projectId := "ws_1"; domain := "dub.sh" |} in
  let getWorkspace : string -> option Workspace :=
    fun _ => Some {| plan := Some "business"; ws_logo := None |} in
  let rp := route_props getShortLink getWorkspace (fun _ => None)
              (fun _ => true) "https://assets.dub.co/logo.png" q
              (Some "business") in
  cell_at cells0 10 10 = true
  /\ cell_at (rendered_cells rp cells0) 10 10 = false
  /\ exists doc fill,
       QRCodeSVG enc rp = Some doc
       /\ svg_fg doc
          = FgStyled fill
              [ renderCornerModule 2 2 CornerRounded "0-0";
                renderDotModule 22 22 DotCircle "20-20" ]
       /\ is_Some (svg_defs doc).
Proof.
  intros cells0 q enc getShortLink getWorkspace rp.
  split; [reflexivity|]. split; [vm_compute; reflexivity|].
  destruct (route_styled_types_use_query_styles enc getShortLink getWorkspace
              (fun _ => None) (fun _ => true) "https://assets.dub.co/logo.png"
              q (Some "business") cells0 eq_refl eq_refl)
    as (doc & fill & Hdoc & Hfg & Hdefs).
  exists doc, fill. split; [exact Hdoc|]. split.
  - rewrite Hfg. vm_compute. reflexivity.
  - apply Hdefs. reflexivity.
Defined.

(* ================================================================== *)
(** * Restricted CORS headers *)
(* ================================================================== *)

Lemma allowedOrigins_fixed env1 env2 :
  "https://app.dub.co" ∈ allowedOrigins env1 env2
  /\ "https://dub.co" ∈ allowedOrigins env1 env2
  /\ exists o rest, allowedOrigins env1 env2 = o :: rest /\ o <> EmptyString
                    /\ str_or (head (allowedOrigins env1 env2)) "https://app.dub.co" = o.
Proof.
  unfold allowedOrigins.
  destruct env1 as [[|c1 s1]|], env2 as [[|c2 s2]|]; simpl;
    (split; [repeat constructor|]); (split; [repeat constructor|]);
    eexists; eexists; (split; [reflexivity|]); split; try reflexivity; discriminate.
Qed.

(** X18. The origin the restricted headers allow is always one of the
    configured origins: it is the request's origin exactly when that origin
    is configured, and otherwise the first configured one, which is the
    NEXTAUTH_URL when that is set and https://app.dub.co when it is not.
    An origin that is not configured is never echoed back. *)
Theorem restricted_origin_is_always_configured
    (NEXTAUTH_URL NEXT_PUBLIC_APP_URL : option string) (requestOrigin : option string) :
  let allowed := allowedOrigins NEXTAUTH_URL NEXT_PUBLIC_APP_URL in
  let origin := restrictedOrigin NEXTAUTH_URL NEXT_PUBLIC_APP_URL requestOrigin in
  header_get "Access-Control-Allow-Origin"
    (getRestrictedCorsHeaders NEXTAUTH_URL NEXT_PUBLIC_APP_URL requestOrigin)
  = Some origin
  /\ origin ∈ allowed
  /\ (forall s, requestOrigin = Some s -> s ∈ allowed -> origin = s)
  /\ (forall s, requestOrigin = Some s -> s ∉ allowed ->
                origin <> s /\ origin = str_or NEXTAUTH_URL "https://app.dub.co")
  /\ (requestOrigin = None -> origin = str_or NEXTAUTH_URL "https://app.dub.co").
Proof.
  intros allowed origin.
  destruct (allowedOrigins_fixed NEXTAUTH_URL NEXT_PUBLIC_APP_URL)
    as (Happ & _ & o & rest & Hlist & Ho & Hhead).
  assert (Hfirst : o = str_or NEXTAUTH_URL "https://app.dub.co").
  { revert Hlist. unfold allowedOrigins.
    destruct NEXTAUTH_URL as [[|c1 s1]|]; simpl; intros [= <- _]; reflexivity. }
  assert (Ho_in : o ∈ allowed).
  { subst allowed. rewrite Hlist. constructor. }
  split; [reflexivity|].
  subst origin. unfold restrictedOrigin. rewrite Hhead. fold allowed.
  destruct requestOrigin as [[|c s]|].
  - split; [exact Ho_in|]. split.
    + intros s [= <-] Hin. exfalso. subst allowed.
      apply list_elem_of_In in Hin. revert Hin. unfold allowedOrigins.
      destruct NEXTAUTH_URL as [[|]|], NEXT_PUBLIC_APP_URL as [[|]|]; simpl;
        intuition discriminate.
    + split; [|discriminate]. intros s [= <-] _. split; [exact Ho | exact Hfirst].
  - case_bool_decide as Hin.
    + split; [exact Hin|]. split; [intros s' [= <-] _; reflexivity|].
      split; [|discriminate]. intros s' [= <-] Hnot. contradiction.
    + split; [exact Ho_in|]. split; [intros s' [= <-] Hin'; contradiction|].
      split; [|discriminate]. intros s' [= <-] _. split; [|exact Hfirst].
      intros ->. contradiction.
  - split; [exact Ho_in|]. split; [discriminate|].
    split; [discriminate|]. intros _. exact Hfirst.
Qed.

Lemma restricted_origin_is_always_configured_witness :
  restrictedOrigin (Some "https://qr.example.com") None (Some "https://evil.example")
  = "https://qr.example.com"
  /\ restrictedOrigin (Some "https://qr.example.com") None (Some "https://dub.co")
     = "https://dub.co".
Proof.
  destruct (restricted_origin_is_always_configured (Some "https://qr.example.com")
              None (Some "https://evil.example")) as (_ & _ & _ & Hno & _).
  destruct (restricted_origin_is_always_configured (Some "https://qr.example.com")
              None (Some "https://dub.co")) as (_ & _ & Hyes & _).
  split.
  - apply (Hno "https://evil.example" eq_refl).
    intros Hin. apply list_elem_of_In in Hin. simpl in Hin.
    intuition discriminate.
  - apply (Hyes "https://dub.co" eq_refl). repeat constructor.
Defined.

(* ================================================================== *)
(** * Backup server utilities *)
(* ================================================================== *)

Lemma take_bytes_length (n : nat) (s : string) :
  String.length (Server.take_bytes n s) = Nat.min n (String.length s).
Proof.
  revert s. induction n as [|n IH]; intros [|c s]; simpl; try reflexivity.
  rewrite IH. reflexivity.
Qed.

Lemma take_drop_bytes (n : nat) (s : string) :
  Server.take_bytes n s +:+ Server.drop_bytes n s = s.
Proof.
  revert s. induction n as [|n IH]; intros [|c s]; simpl; try reflexivity.
  rewrite append_cons, IH. reflexivity.
Qed.

Lemma take_bytes_all (n : nat) (s : string) :
  (String.length s <= n)%nat -> Server.take_bytes n s = s.
Proof.
  revert s. induction n as [|n IH]; intros [|c s] H; simpl in *;
    try reflexivity; try lia.
  rewrite IH by lia. reflexivity.
Qed.

(** X19. With a bound that is not negative, [truncate] returns a prefix
    of its argument of length min(len(s), maxLen), the argument itself when
    it is short enough, and truncating again changes nothing.  With a
    negative bound it panics on every string, the empty one included. *)
Theorem truncate_is_bounded_prefix (s : string) (maxLen : Z) :
  0 <= maxLen ->
  exists r,
    Server.truncate s maxLen = Some r
    /\ Z.of_nat (String.length r) = Z.min (Z.of_nat (String.length s)) maxLen
    /\ (exists rest, s = r +:+ rest)
    /\ (Z.of_nat (String.length s) <= maxLen -> r = s)
    /\ Server.truncate r maxLen = Some r
    /\ forall s' k, k < 0 -> Server.truncate s' k = None.
Proof.
  intros Hmax. unfold Server.truncate.
  destruct (Z.leb_spec (Z.of_nat (String.length s)) maxLen) as [Hshort|Hlong].
  - exists s. split; [reflexivity|]. split; [lia|].
    split; [exists EmptyString; rewrite append_nil_r; reflexivity|].
    split; [reflexivity|]. split.
    + destruct (Z.leb_spec (Z.of_nat (String.length s)) maxLen); [reflexivity | lia].
    + intros s' k Hk.
      destruct (Z.leb_spec (Z.of_nat (String.length s')) k); [lia|].
      destruct (Z.ltb_spec k 0); [reflexivity | lia].
  - destruct (Z.ltb_spec maxLen 0); [lia|].
    exists (Server.take_bytes (Z.to_nat maxLen) s).
    pose proof (take_bytes_length (Z.to_nat maxLen) s) as Hlen.
    split; [reflexivity|]. split; [lia|].
    split; [exists (Server.drop_bytes (Z.to_nat maxLen) s);
            symmetry; apply take_drop_bytes|].
    split; [lia|]. split.
    + destruct (Z.leb_spec
                  (Z.of_nat (String.length (Server.take_bytes (Z.to_nat maxLen) s)))
                  maxLen); [reflexivity | lia].
    + intros s' k Hk.
      destruct (Z.leb_spec (Z.of_nat (String.length s')) k); [lia|].
      destruct (Z.ltb_spec k 0); [reflexivity | lia].
Qed.

Lemma truncate_is_bounded_prefix_witness :
  Server.truncate "development archive" 11 = Some "development"
  /\ Server.truncate "short" 300 = Some "short".
Proof.
  destruct (truncate_is_bounded_prefix "short" 300 ltac:(lia))
    as (r & Hr & _ & _ & Hsame & _).
  split; [reflexivity|].
  rewrite Hr. f_equal. apply Hsame. simpl. lia.
Defined.

(* ================================================================== *)
(** * Shapes, background and quiet zone *)
(* ================================================================== *)

(** X21. Every primitive stays inside the unit cell of its module, so
    shapes of neighbouring modules never overlap: the circle, rounded and
    diamond dots keep a gap of 1/20 of a module on every side, the square
    dot and the three corner shapes reach the sides of the cell. *)
Theorem styled_shapes_stay_in_their_cell (x y : Z) (key : string) :
  (forall style,
     inset_in_cell (match style with DotSquare => 0 | _ => 1 # 20 end)
       (renderDotModule x y style key) x y)
  /\ (forall style, inset_in_cell 0 (renderCornerModule x y style key) x y)
  /\ (forall (M : Modules) margin dot corner e,
        e ∈ generateStyledModules M margin dot corner ->
        exists mx my,
          cell_at M mx my = true
          /\ inset_in_cell 0 e (mx + margin) (my + margin)).
Proof.
  assert (Hdot : forall style,
             inset_in_cell (match style with DotSquare => 0 | _ => 1 # 20 end)
               (renderDotModule x y style key) x y).
  { intros []; unfold inset_in_cell, renderDotModule;
      generalize (inject_Z x) (inject_Z y); intros qx qy;
      repeat first [ apply Forall_cons; split | apply Forall_nil | split ];
      simpl; lra. }
  assert (Hcorner : forall style, inset_in_cell 0 (renderCornerModule x y style key) x y).
  { intros []; unfold inset_in_cell, renderCornerModule;
      generalize (inject_Z x) (inject_Z y); intros qx qy;
      repeat split; simpl; lra. }
  split; [exact Hdot|]. split; [exact Hcorner|].
  clear Hdot Hcorner.
  intros M margin dot corner e He.
  apply generateStyledModules_elem_of in He as (mx & my & Hd & ->).
  exists mx, my. split; [exact Hd|].
  unfold styled_shape. destruct (isFinderModule _ mx my).
  - destruct corner; unfold inset_in_cell, renderCornerModule;
      generalize (inject_Z (mx + margin)) (inject_Z (my + margin)); intros qx qy;
      repeat split; simpl; lra.
  - destruct dot; unfold inset_in_cell, renderDotModule;
      generalize (inject_Z (mx + margin)) (inject_Z (my + margin)); intros qx qy;
      repeat first [ apply Forall_cons; split | apply Forall_nil | split ];
      simpl; lra.
Qed.

Lemma crossing_vertical_down cx cy x y1 y2 :
  y1 < y2 ->
  crossing cx cy ((x, y1), (x, y2))
  = if (y1 <=? cy) && (cy <? y2) && (cx <? x) then 1 else 0.
Proof.
  intros H. unfold crossing.
  replace (x - x) with 0 by lia. rewrite Z.mul_0_l, Z.add_0_r.
  destruct ((y1 <=? cy) && (cy <? y2)) eqn:E; simpl.
  - destruct (Z.ltb_spec ((2 * cx + 1) * (y2 - y1)) (2 * x * (y2 - y1))),
      (Z.ltb_spec cx x); try reflexivity; nia.
  - destruct (Z.leb_spec y2 cy), (Z.ltb_spec cy y1); simpl; try reflexivity; lia.
Qed.

Lemma crossing_vertical_up cx cy x y1 y2 :
  y1 < y2 ->
  crossing cx cy ((x, y2), (x, y1))
  = if (y1 <=? cy) && (cy <? y2) && (cx <? x) then -1 else 0.
Proof.
  intros H. unfold crossing.
  replace (x - x) with 0 by lia. rewrite Z.mul_0_l, Z.add_0_r.
  destruct (Z.leb_spec y2 cy), (Z.ltb_spec cy y1), (Z.leb_spec y1 cy),
    (Z.ltb_spec cy y2); simpl; try reflexivity; try lia.
  rewrite ?Z.mul_0_l, ?Z.add_0_r.
  destruct (Z.ltb_spec ((2 * cx + 1) * (y2 - y1)) (2 * x * (y2 - y1))),
    (Z.ltb_spec cx x); try reflexivity; nia.
Qed.

Lemma background_edges (n : Z) :
  path_edges (background_d n)
  = Some [ ((0, 0), (n, 0)); ((n, 0), (n, n)); ((n, n), (0, n)); ((0, n), (0, 0)) ].
Proof.
  unfold path_edges, background_d. flatten_append.
  change (lex None (String "M" (String "0" (String "," (String "0" (String " " (String "h" ?t)))))))
    with (TCmd "M" :: TNum 0 :: TNum 0 :: TCmd "h" :: lex None t).
  rewrite lex_number by reflexivity.
  change (lex None (String "v" ?t)) with (TCmd "v" :: lex None t).
  rewrite lex_number by reflexivity.
  change (lex None "H0z") with [TCmd "H"; TNum 0; TCmd "z"].
  reflexivity.
Qed.

Lemma background_winding (n cx cy : Z) :
  0 <= n ->
  winding_number (background_d n) cx cy
  = Some (if (0 <=? cx) && (cx <? n) && (0 <=? cy) && (cy <? n) then 1 else 0).
Proof.
  intros Hn. unfold winding_number. rewrite background_edges.
  cbn [fmap option_fmap option_map]. f_equal. unfold winding. cbn [foldr].
  rewrite !crossing_horizontal.
  destruct (Z.eq_dec n 0) as [->|Hne].
  - unfold crossing. split_comparisons; simpl; try reflexivity; lia.
  - rewrite crossing_vertical_down, crossing_vertical_up by lia.
    split_comparisons; simpl; try reflexivity; lia.
Qed.

Lemma cell_at_in_range (M : Modules) x y :
  cell_at M x y = true ->
  0 <= y < Z.of_nat (length M)
  /\ exists row, M !! Z.to_nat y = Some row /\ 0 <= x < Z.of_nat (length row).
Proof.
  intros H. apply cell_at_true in H as (i & j & row & -> & -> & Hrow & Hc).
  apply lookup_lt_Some in Hrow as Hi. apply lookup_lt_Some in Hc as Hj.
  split; [lia|]. exists row. rewrite Nat2Z.id. split; [exact Hrow | lia].
Qed.

(** X22. For a margin that is not negative and a matrix whose rows are no
    longer than its side N, the background path fills exactly the square
    of side N + 2·margin, and every cell the foreground path fills lies in
    that square at least [margin] cells from each of its sides: the quiet
    zone is never drawn on. *)
Theorem foreground_inside_background_quiet_zone (M : Modules) (m : Z) :
  0 <= m ->
  (forall row, In row M -> (length row <= length M)%nat) ->
  let N := Z.of_nat (length M) in
  let numCells := N + m * 2 in
  (forall cx cy,
     filled (background_d numCells) cx cy = true
     <-> 0 <= cx < numCells /\ 0 <= cy < numCells)
  /\ (forall cx cy,
        filled (generatePath M m) cx cy = true ->
        filled (background_d numCells) cx cy = true
        /\ m <= cx < numCells - m /\ m <= cy < numCells - m).
Proof.
  intros Hm Hrows N numCells.
  assert (Hn : 0 <= numCells) by (subst numCells N; lia).
  assert (Hbg : forall cx cy,
             filled (background_d numCells) cx cy = true
             <-> 0 <= cx < numCells /\ 0 <= cy < numCells).
  { intros cx cy. unfold filled. rewrite (background_winding _ _ _ Hn).
    destruct ((0 <=? cx) && (cx <? numCells) && (0 <=? cy) && (cy <? numCells))
      eqn:E; simpl.
    - rewrite !andb_true_iff, !Z.leb_le, !Z.ltb_lt in E. split; [lia | reflexivity].
    - split; [discriminate|]. intros Hr.
      assert (E' : (0 <=? cx) && (cx <? numCells) && (0 <=? cy) && (cy <? numCells)
                   = true)
        by (rewrite !andb_true_iff, !Z.leb_le, !Z.ltb_lt; lia).
      congruence. }
  split; [exact Hbg|].
  intros cx cy Hf. rewrite filled_generatePath in Hf.
  apply cell_at_in_range in Hf as (Hy & row & Hrow & Hx).
  assert (Hlen : (length row <= length M)%nat).
  { apply Hrows. apply list_elem_of_In. eapply list_elem_of_lookup_2. exact Hrow. }
  assert (m <= cx < numCells - m /\ m <= cy < numCells - m)
    by (subst numCells N; lia).
  split; [apply Hbg; lia | assumption].
Qed.

Lemma foreground_inside_background_quiet_zone_witness :
  let M : Modules := [[true; false; true]; [false; true; false]; [true; true; true]] in
  filled (background_d 7) 6 6 = true
  /\ (filled (generatePath M 2) 4 4 = true
      -> filled (background_d 7) 4 4 = true /\ 2 <= 4 < 5 /\ 2 <= 4 < 5).
Proof.
  intros M.
  destruct (foreground_inside_background_quiet_zone M 2 ltac:(lia)) as [Hbg Hfg].
  - intros row [<-|[<-|[<-|[]]]]; simpl; lia.
  - split; [apply (Hbg 6 6); simpl; lia | exact (Hfg 4 4)].
Defined.
